(** * stonefish: a shallow embedding of the transformer wrapper and the
      training loops

    The development follows the three source files:
    - [model]     : [stonefish/model.py]  (masking, positional encoding,
                    [BaseModel.forward], the autoregressive decoder, and
                    [GPTModel.forward] and [GPTModel.inference]);
    - [train]     : [stonefish/train.py]  (the board-game training loop, its
                    log file and its checkpoint files, and the script that
                    calls it);
    - [train_gpt] : [stonefish/train/gpt.py] ([GPTTrainingContext.__call__]
                    and [compute_loss]).

    Conventions.  Python integers are [Z]; tensors of token ids are lists of
    rows of [Z]; dense tensors are lists of rows of feature vectors over the
    real numbers [R] (floating point is idealised by exact real arithmetic).
    A Python exception is a value [Raise e] of the [result] type.  The torch
    library itself ([nn.Transformer], [Categorical.sample]) is an interface,
    the class [Torch], whose documented contract is the class [TorchLaws]. *)

From stdpp Require Import base list strings gmap pretty.
From Stdlib Require Import Reals Lra ZArith Lia.

(* ================================================================== *)
(** * Exceptions and results *)
(* ================================================================== *)

Inductive exn : Set :=
| ValueError
| IndexError
| RuntimeError
| ZeroDivisionError
| FileNotFoundError
| UnpicklingError.

Inductive result (A : Type) : Type :=
| Ok (a : A)
| Raise (e : exn).
Arguments Ok {A} a.
Arguments Raise {A} e.

Definition rbind {A B} (r : result A) (k : A -> result B) : result B :=
  match r with
  | Ok a => k a
  | Raise e => Raise e
  end.

(** [rmapM f l] runs [f] on the elements of [l] from left to right and
    stops at the first exception. *)
Fixpoint rmapM {A B} (f : A -> result B) (l : list A) : result (list B) :=
  match l with
  | [] => Ok []
  | x :: l' => rbind (f x) (fun y => rbind (rmapM f l') (fun ys => Ok (y :: ys)))
  end.

(** The state-and-exception monad in which the methods are written: a
    computation reads and writes a state [St] and either returns a value
    or raises; the state written so far survives an exception. *)
Definition SE (St A : Type) : Type := St -> result A * St.

Definition ret {St A} (a : A) : SE St A := fun s => (Ok a, s).

Definition bind {St A B} (m : SE St A) (k : A -> SE St B) : SE St B :=
  fun s => match m s with
           | (Ok a, s') => k a s'
           | (Raise e, s') => (Raise e, s')
           end.

Definition lift {St A} (r : result A) : SE St A := fun s => (r, s).

Definition gets {St A} (f : St -> A) : SE St A := fun s => (Ok (f s), s).

Definition modify {St} (f : St -> St) : SE St unit := fun s => (Ok tt, f s).

Notation "x <- c1 ;; c2" := (bind c1 (fun x => c2))
  (at level 100, c1 at next level, right associativity).
Notation "c1 ;;; c2" := (bind c1 (fun _ => c2))
  (at level 100, right associativity).

(** [for i, x in enumerate(l): body(i, x)], counting from [i]. *)
Fixpoint for_enumerate {St A} (i : nat) (l : list A) (body : nat -> A -> SE St unit)
  : SE St unit :=
  match l with
  | [] => ret tt
  | x :: l' => body i x ;;; for_enumerate (S i) l' body
  end.

(** [for i in range(n): body(i)] *)
Definition for_in_range {St} (n : nat) (body : nat -> SE St unit) : SE St unit :=
  for_enumerate 0 (seq 0 n) (fun _ i => body i).

(* ================================================================== *)
(** * Tensors *)
(* ================================================================== *)

(** batch x length, integer token ids *)
Abbreviation tensor2 := (list (list Z)).
(** batch x length, booleans *)
Abbreviation mask2 := (list (list bool)).
(** a feature vector *)
Abbreviation vec := (list R).
(** batch x length x features *)
Abbreviation tensor3 := (list (list (list R))).

(** [t.shape[1]] of a batched tensor, read off its first row. *)
Definition shape1 {A} (t : list (list A)) : nat :=
  match t with
  | [] => 0
  | row :: _ => length row
  end.

(** All rows have [n] columns. *)
Definition rect {A} (n : nat) (t : list (list A)) : Prop :=
  Forall (fun row => length row = n) t.

Fixpoint sum_R (l : list R) : R :=
  match l with
  | [] => 0%R
  | x :: l' => (x + sum_R l')%R
  end.

Definition dot (u v : vec) : R := sum_R (zip_with Rmult u v).
Definition vadd (u v : vec) : vec := zip_with Rplus u v.

(** [nn.Linear(in, out)]: [weight] has [out] rows of [in] entries. *)
Record Linear : Type := mkLinear {
  weight : list vec;
  bias : vec
}.

Definition out_features (l : Linear) : nat := length (weight l).

(** [x @ weight.T + bias]; the inputs have as many entries as the rows
    of [weight] by construction ([nn.Embedding(_, 8)] feeds
    [nn.Linear(8, _)]). *)
Definition linear (l : Linear) (x : vec) : vec :=
  zip_with Rplus (map (fun row => dot row x) (weight l)) (bias l).

(** [nn.LogSoftmax(dim=-1)] on one feature vector. *)
Definition log_softmax (x : vec) : vec :=
  let s := ln (sum_R (map exp x)) in
  map (fun xi => (xi - s)%R) x.

(** [nn.Embedding]: a table lookup; an id outside [0, rows) raises. *)
Definition embedding_lookup (table : list vec) (id : Z) : result vec :=
  if (id <? 0)%Z then Raise IndexError
  else match table !! Z.to_nat id with
       | Some v => Ok v
       | None => Raise IndexError
       end.

Definition embedding (table : list vec) (ids : tensor2) : result tensor3 :=
  rmapM (rmapM (embedding_lookup table)) ids.

(** [torch.argmax] along the last dimension: the index of the first
    maximal value; an empty reduction dimension raises. *)
Fixpoint argmax_from (best_i : nat) (best : R) (i : nat) (xs : list R) : nat :=
  match xs with
  | [] => best_i
  | x :: xs' =>
      if Rlt_dec best x then argmax_from i x (S i) xs'
      else argmax_from best_i best (S i) xs'
  end.

Definition argmax (xs : list R) : result Z :=
  match xs with
  | [] => Raise IndexError
  | x :: xs' => Ok (Z.of_nat (argmax_from 0 x 1 xs'))
  end.

(** [torch.cat((a, b), dim=1)] *)
Definition cat1 {A} (a b : list (list A)) : result (list (list A)) :=
  if decide (length a = length b) then Ok (zip_with app a b)
  else Raise RuntimeError.

(** [t[:, -1, :]] *)
Definition last_position {A} (t : list (list A)) : result (list A) :=
  rmapM (fun row => match last row with
                    | Some v => Ok v
                    | None => Raise IndexError
                    end) t.

(** [t[:, :-1, :]] *)
Definition drop_last_position {A} (t : list (list A)) : list (list A) :=
  map (fun row => take (length row - 1) row) t.

Inductive Device : Set :=
| cpu
| cuda.

Global Instance Device_eq_dec : EqDecision Device.
Proof. solve_decision. Defined.

(** The checks of [nn.Transformer.forward] on its two inputs: they have
    the same batch size, and their feature vectors have [d] entries. *)
Definition transformer_check (d : nat) (src tgt : tensor3) : result unit :=
  if negb (length src =? length tgt) then Raise RuntimeError
  else if negb (forallb (forallb (fun v : vec => length v =? d)) src
                && forallb (forallb (fun v : vec => length v =? d)) tgt)
       then Raise RuntimeError
       else Ok tt.

(** The part of torch that the wrapper only calls. *)
Class Torch : Type := {
  (** the weights of an [nn.Transformer] *)
  TransformerParams : Type;
  d_model : TransformerParams -> nat;
  (** [nn.Transformer.forward(src, tgt, tgt_mask, src_key_padding_mask,
      tgt_key_padding_mask)] with [batch_first=True] *)
  transformer_forward :
    TransformerParams -> tensor3 -> tensor3 -> list (list bool) ->
    mask2 -> mask2 -> result tensor3;
  (** the two halves of a pass:
      [encoder(src, src_key_padding_mask)] and
      [decoder(tgt, memory, tgt_mask, tgt_key_padding_mask)] *)
  transformer_encoder : TransformerParams -> tensor3 -> mask2 -> result tensor3;
  transformer_decoder :
    TransformerParams -> tensor3 -> tensor3 -> list (list bool) -> mask2 ->
    result tensor3;
  (** the state of the global random number generator *)
  Generator : Type;
  (** [Categorical(logits=l).sample()] for one batch row *)
  Categorical_sample : vec -> Generator -> Z * Generator
}.

(** The documented behaviour of these operations on well-shaped input:
    the transformer returns one feature vector of width [d_model] per
    target position; a pass is the checks of the shapes and then the
    decoder run on what the encoder returns for the source; and a draw
    from a categorical distribution is the index of one of its
    categories. *)
Class TorchLaws `{Torch} : Prop := {
  transformer_forward_split theta src tgt tgt_mask src_mask tgt_padding :
    transformer_forward theta src tgt tgt_mask src_mask tgt_padding =
    rbind (transformer_check (d_model theta) src tgt) (fun _ =>
    rbind (transformer_encoder theta src src_mask) (fun memory =>
    transformer_decoder theta tgt memory tgt_mask tgt_padding));
  transformer_forward_shape theta src tgt tgt_mask src_mask tgt_padding n_src n_tgt :
    length src = length tgt -> 0 < length tgt ->
    0 < n_src -> 0 < n_tgt ->
    rect n_src src -> rect n_tgt tgt ->
    Forall (rect (d_model theta)) src -> Forall (rect (d_model theta)) tgt ->
    length src_mask = length src -> rect n_src src_mask ->
    length tgt_padding = length tgt -> rect n_tgt tgt_padding ->
    length tgt_mask = n_tgt -> rect n_tgt tgt_mask ->
    exists out,
      transformer_forward theta src tgt tgt_mask src_mask tgt_padding = Ok out /\
      length out = length tgt /\ rect n_tgt out /\
      Forall (rect (d_model theta)) out;
  Categorical_sample_range logits g :
    logits <> [] ->
    (0 <= (Categorical_sample logits g).1 < Z.of_nat (length logits))%Z
}.

(** The pretrained language model that [GPTModel] wraps. *)
Class GPT2 : Type := {
  (** the weights of a [GPT2LMHeadModel] *)
  LMParams : Type;
  (** [config.vocab_size] and [config.n_positions] *)
  vocab_size : LMParams -> nat;
  n_positions : LMParams -> nat;
  (** [GPT2LMHeadModel.forward(input_ids).logits] *)
  lm_logits : LMParams -> tensor2 -> result tensor3
}.

(** Its documented behaviour: for a non-empty batch of sequences of at
    most [n_positions] ids of the vocabulary, the logits have one vector
    of [vocab_size] entries per position. *)
Class GPT2Laws `{GPT2} : Prop := {
  lm_logits_shape theta ids n :
    0 < length ids -> 1 <= n <= n_positions theta -> rect n ids ->
    Forall (Forall (fun x => (0 <= x < Z.of_nat (vocab_size theta))%Z)) ids ->
    exists out,
      lm_logits theta ids = Ok out /\
      length out = length ids /\ rect n out /\
      Forall (rect (vocab_size theta)) out
}.

(* ================================================================== *)
(** * stonefish/model.py *)
(* ================================================================== *)

Module model.

(** ** get_mask *)

Definition get_mask (data : tensor2) (padding_value : Z) : mask2 :=
  map (map (fun x => (x =? padding_value)%Z)) data.

(** [~mask * data]: the negated boolean mask is promoted to 0/1 and
    multiplied into the integer tensor. *)
Definition not_mask_mul (mask : mask2) (data : tensor2) : tensor2 :=
  zip_with (zip_with (fun b x => (Z.b2z (negb b) * x)%Z)) mask data.

(** ** positionalencoding1d *)

(** [torch.arange(0, stop, step)] for non-negative integer arguments *)
Fixpoint arange_aux (n : nat) (start step : nat) : list nat :=
  match n with
  | 0 => []
  | S n' => start :: arange_aux n' (start + step) step
  end.

Definition arange (stop step : nat) : list nat :=
  arange_aux (Nat.div (stop + step - 1) step) 0 step.

(** [row[start::step] = vals] *)
Fixpoint assign_stride (start step : nat) (vals row : vec) : vec :=
  match vals with
  | [] => row
  | v :: vals' => assign_stride (start + step) step vals' (<[start := v]> row)
  end.

(** [pe[:, start::step] = vals] *)
Definition assign_columns (start step : nat) (vals pe : list vec) : list vec :=
  zip_with (assign_stride start step) vals pe.

Definition div_term (d_model : Z) : vec :=
  map (fun k => exp (INR k * - (ln 10000 / IZR d_model))%R)
      (arange (Z.to_nat d_model) 2).

Definition positionalencoding1d (d_model length : Z) : result (list vec) :=
  if negb (d_model mod 2 =? 0)%Z then Raise ValueError
  else if ((length <? 0) || (d_model <? 0))%Z then
    (* torch.zeros with a negative size *)
    Raise RuntimeError
  else
    let pe := replicate (Z.to_nat length) (replicate (Z.to_nat d_model) 0%R) in
    let position := arange (Z.to_nat length) 1 in
    if (d_model =? 0)%Z then
      (* math.log(10000.0) / d_model *)
      Raise ZeroDivisionError
    else
      let div_term := div_term d_model in
      let pe :=
        assign_columns 0 2
          (map (fun p => map (fun w => sin (INR p * w)%R) div_term) position) pe in
      let pe :=
        assign_columns 1 2
          (map (fun p => map (fun w => cos (INR p * w)%R) div_term) position) pe in
      Ok pe.

(** ** BaseModel *)

Section BaseModel.
Context `{Torch}.

(** The attributes of a [BaseModel] instance.  The learned parameters are
    the two embedding tables, the three linear maps and the transformer
    weights; [pe] is a plain attribute that moves between devices. *)
Record BaseModel : Type := mkBaseModel {
  device : Device;
  board_embed : list vec;
  move_embed : list vec;
  pe : list vec;
  pe_device : Device;
  transformer : TransformerParams;
  to_emb_board : Linear;
  to_emb_move : Linear;
  to_dist_linear : Linear;
  start_token : Z
}.

(** The shapes that [__init__] gives to the attributes, for an input
    vocabulary of [w_in] tokens, an output vocabulary of [w_out] tokens
    and the working dimension [emb_dim]. *)
Record wf_model (w_in w_out : nat) (emb_dim : Z) (m : BaseModel) : Prop := {
  wf_board_embed : length (board_embed m) = w_in;
  wf_move_embed : length (move_embed m) = w_out;
  wf_pe : positionalencoding1d emb_dim 1024 = Ok (pe m);
  wf_transformer : d_model (transformer m) = Z.to_nat emb_dim;
  wf_to_emb_board : out_features (to_emb_board m) = Z.to_nat emb_dim;
  wf_to_emb_board_bias : length (bias (to_emb_board m)) = Z.to_nat emb_dim;
  wf_to_emb_move : out_features (to_emb_move m) = Z.to_nat emb_dim;
  wf_to_emb_move_bias : length (bias (to_emb_move m)) = Z.to_nat emb_dim;
  wf_to_dist : out_features (to_dist_linear m) = w_out;
  wf_to_dist_bias : length (bias (to_dist_linear m)) = w_out
}.

(** The learned parameters of a model ([nn.Module.parameters()]). *)
Definition parameters (m : BaseModel)
  : list vec * list vec * TransformerParams * Linear * Linear * Linear :=
  (board_embed m, move_embed m, transformer m,
   to_emb_board m, to_emb_move m, to_dist_linear m).

(** The calls that forward hooks on the three sub-modules
    [board_embed], [move_embed] and [transformer] observe. *)
Inductive Call : Type :=
| CallBoardEmbed (ids : tensor2)
| CallMoveEmbed (ids : tensor2)
| CallTransformer (src tgt : tensor3) (src_padding_mask tgt_padding_mask : mask2).

(** What a method of the model can read and write: the instance itself,
    the global random generator, and the record of sub-module calls. *)
Record World : Type := mkWorld {
  self : BaseModel;
  gen : Generator;
  calls : list Call
}.

Definition M (A : Type) : Type := SE World A.

(** reading an attribute of [self] *)
Definition asks {A} (f : BaseModel -> A) : M A := gets (fun w => f (self w)).

Definition record_call (c : Call) : M unit :=
  modify (fun w => mkWorld (self w) (gen w) (calls w ++ [c])).

Definition BaseModel_init (device : Device)
    (board_embed move_embed : list vec) (emb_dim : Z)
    (transformer : TransformerParams)
    (to_emb_board to_emb_move to_dist : Linear) (start_id : Z)
  : result BaseModel :=
  rbind (positionalencoding1d emb_dim 1024) (fun pe =>
    Ok (mkBaseModel device board_embed move_embed pe device transformer
          to_emb_board to_emb_move to_dist start_id)).

(** The instance with [pe] on the device of the model. *)
Definition pe_to_device (m : BaseModel) : BaseModel :=
  mkBaseModel (device m) (board_embed m) (move_embed m) (pe m)
    (device m) (transformer m) (to_emb_board m) (to_emb_move m)
    (to_dist_linear m) (start_token m).

(** [if self.pe.device != data.device: self.pe = self.pe.to(data.device)];
    every tensor that reaches this method was moved to or created on
    [self.device]. *)
Definition migrate_pe : M unit :=
  fun w =>
    if decide (pe_device (self w) = device (self w)) then (Ok tt, w)
    else (Ok tt, mkWorld (pe_to_device (self w)) (gen w) (calls w)).

(** [data + pe[: data.shape[1]]]: the slice is shorter than the data
    when the data is longer than the table (which has more than one
    row), and the sum then fails to broadcast. *)
Definition add_positions (pe : list vec) (data : tensor3) : result tensor3 :=
  rmapM (fun row =>
           let slice := take (length row) pe in
           if decide (length slice = length row)
           then Ok (zip_with vadd row slice)
           else Raise RuntimeError) data.

Definition _encode_position (data : tensor3) : M tensor3 :=
  migrate_pe ;;;
  pe <- asks pe ;;
  lift (add_positions pe data).

Definition _state_embed (state : tensor2) : M tensor3 :=
  record_call (CallBoardEmbed state) ;;;
  board_embed <- asks board_embed ;;
  to_emb_board <- asks to_emb_board ;;
  embed <- lift (embedding board_embed state) ;;
  let embed_state := map (map (linear to_emb_board)) embed in
  pos_embed_state <- _encode_position embed_state ;;
  ret pos_embed_state.

(** [self.to_emb_move(self.move_embed(action))] *)
Definition move_embedding (action : tensor2) : M tensor3 :=
  record_call (CallMoveEmbed action) ;;;
  move_embed <- asks move_embed ;;
  to_emb_move <- asks to_emb_move ;;
  embed <- lift (embedding move_embed action) ;;
  ret (map (map (linear to_emb_move)) embed).

Definition _action_embed (action : tensor2) : M tensor3 :=
  tgt_embed <- move_embedding action ;;
  pos_tgt_embed <- _encode_position tgt_embed ;;
  ret pos_tgt_embed.

(** [generate_square_subsequent_mask(sz)]: entry (i, j) is blocked
    (minus infinity) exactly when j > i. *)
Definition generate_square_subsequent_mask (sz : nat) : list (list bool) :=
  map (fun i => map (fun j => (i <? j)%nat) (seq 0 sz)) (seq 0 sz).

Definition _transformer_pass (src tgt : tensor3)
    (src_padding_mask tgt_padding_mask : mask2) : M tensor3 :=
  let tgt_mask := generate_square_subsequent_mask (shape1 tgt) in
  record_call (CallTransformer src tgt src_padding_mask tgt_padding_mask) ;;;
  transformer <- asks transformer ;;
  out <- lift (transformer_forward transformer src tgt tgt_mask
                 src_padding_mask tgt_padding_mask) ;;
  ret out.

(** [self.to_dist]: the output projection followed by the log-softmax. *)
Definition to_dist (l : Linear) (out : tensor3) : tensor3 :=
  map (map (fun v => log_softmax (linear l v))) out.

Definition forward (state action : tensor2) : M tensor3 :=
  let mask := get_mask state (-1) in
  let tgt_mask := get_mask action (-1) in
  pos_embed_state <- _state_embed (not_mask_mul mask state) ;;
  tgt_embed <- _action_embed (not_mask_mul tgt_mask action) ;;
  out <- _transformer_pass pos_embed_state tgt_embed mask tgt_mask ;;
  to_dist_linear <- asks to_dist_linear ;;
  let logits := to_dist to_dist_linear out in
  ret (drop_last_position logits).

(** One iteration of the loop of [_inference]. *)
Definition decode_step (pos_embed_state : tensor3) (mask : mask2)
    (action_sel : list vec -> M tensor2) (tokens : tensor2) : M tensor2 :=
  decode <- _action_embed tokens ;;
  let tgt_mask := replicate (length decode) (replicate (shape1 decode) false) in
  out <- _transformer_pass pos_embed_state decode mask tgt_mask ;;
  to_dist_linear <- asks to_dist_linear ;;
  logits <- lift (last_position (to_dist to_dist_linear out)) ;;
  next_value <- action_sel logits ;;
  tokens' <- lift (cat1 tokens next_value) ;;
  embed_next <- move_embedding next_value ;;
  _ <- lift (cat1 decode embed_next) ;;
  ret tokens'.

(** [for i in range(n): tokens = body(tokens)] *)
Fixpoint for_range (n : nat) (body : tensor2 -> M tensor2) (tokens : tensor2)
  : M tensor2 :=
  match n with
  | 0 => ret tokens
  | S n' => tokens' <- body tokens ;; for_range n' body tokens'
  end.

Definition _inference (state : tensor2) (max_len : Z)
    (action_sel : list vec -> M tensor2) : M tensor2 :=
  let mask := get_mask state (-1) in
  pos_embed_state <- _state_embed (not_mask_mul mask state) ;;
  start_token <- asks start_token ;;
  let start_token := replicate (length state) [start_token] in
  let tokens := start_token in
  for_range (Z.to_nat max_len)
    (decode_step pos_embed_state mask action_sel) tokens.

(** [torch.argmax(logits, dim=1).view(-1, 1)], the policy of [inference] *)
Definition max_action_sel (logits : list vec) : M tensor2 :=
  lift (rmapM (fun row => rbind (argmax row) (fun i => Ok [i])) logits).

Definition inference (state : tensor2) (max_len : Z) : M tensor2 :=
  _inference state max_len max_action_sel.

(** [Categorical(logits=logits).sample().view(-1, 1)], the policy of
    [sample]: one draw per batch row, each advancing the generator. *)
Fixpoint sample_rows (logits : list vec) (g : Generator) : tensor2 * Generator :=
  match logits with
  | [] => ([], g)
  | row :: rest =>
      let '(i, g') := Categorical_sample row g in
      let '(next, g'') := sample_rows rest g' in
      ([i] :: next, g'')
  end.

Definition sample_action_sel (logits : list vec) : M tensor2 :=
  fun w =>
    let '(next, g) := sample_rows logits (gen w) in
    (Ok next, mkWorld (self w) g (calls w)).

Definition sample (state : tensor2) (max_len : Z) : M tensor2 :=
  _inference state max_len sample_action_sel.

(** The formulation that encodes the source again on every decode step,
    against which [_inference] is compared. *)
Definition _inference_reencode (state : tensor2) (max_len : Z)
    (action_sel : list vec -> M tensor2) : M tensor2 :=
  let mask := get_mask state (-1) in
  start_token <- asks start_token ;;
  let tokens := replicate (length state) [start_token] in
  for_range (Z.to_nat max_len)
    (fun tokens =>
       pos_embed_state <- _state_embed (not_mask_mul mask state) ;;
       decode_step pos_embed_state mask action_sel tokens) tokens.

(** The formulation that runs the encoder of the transformer once,
    before the loop, and at every decode step only its decoder, on the
    encoded source [memory]; against it the passes of [_inference], each
    through the whole transformer, are compared. *)
Definition _decoder_pass (src tgt memory : tensor3) (tgt_padding_mask : mask2)
  : M tensor3 :=
  let tgt_mask := generate_square_subsequent_mask (shape1 tgt) in
  transformer <- asks transformer ;;
  lift (transformer_check (d_model transformer) src tgt) ;;;
  lift (transformer_decoder transformer tgt memory tgt_mask tgt_padding_mask).

Definition decode_step_memory (pos_embed_state memory : tensor3)
    (action_sel : list vec -> M tensor2) (tokens : tensor2) : M tensor2 :=
  decode <- _action_embed tokens ;;
  let tgt_mask := replicate (length decode) (replicate (shape1 decode) false) in
  out <- _decoder_pass pos_embed_state decode memory tgt_mask ;;
  to_dist_linear <- asks to_dist_linear ;;
  logits <- lift (last_position (to_dist to_dist_linear out)) ;;
  next_value <- action_sel logits ;;
  tokens' <- lift (cat1 tokens next_value) ;;
  embed_next <- move_embedding next_value ;;
  _ <- lift (cat1 decode embed_next) ;;
  ret tokens'.

Definition _inference_encode_once (state : tensor2) (max_len : Z)
    (action_sel : list vec -> M tensor2) : M tensor2 :=
  let mask := get_mask state (-1) in
  pos_embed_state <- _state_embed (not_mask_mul mask state) ;;
  transformer <- asks transformer ;;
  memory <- lift (transformer_encoder transformer pos_embed_state mask) ;;
  start_token <- asks start_token ;;
  let tokens := replicate (length state) [start_token] in
  for_range (Z.to_nat max_len)
    (decode_step_memory pos_embed_state memory action_sel) tokens.

End BaseModel.

(** ** GPTModel *)

Module GPTModel.

Section GPTModel.
Context `{Torch} `{GPT2}.

(** The attributes of a [GPTModel] instance that [forward] and
    [inference] use. *)
Record GPTModel : Type := mkGPTModel {
  device : Device;
  hidden_size : Z;
  output_size : Z;
  model : LMParams
}.

(** [__init__], for the weights that [from_pretrained] loads. *)
Definition GPTModel_init (device : Device) (pretrained : LMParams) : GPTModel :=
  mkGPTModel device 1024 50257 pretrained.

(** What a method can read and write: the instance, the global random
    generator, and the record of the inputs on which the language model
    was called. *)
Record World : Type := mkWorld {
  self : GPTModel;
  gen : Generator;
  calls : list tensor2
}.

Definition M (A : Type) : Type := SE World A.

Definition forward (state : tensor2) : M tensor3 :=
  let mask := get_mask state (-1) in
  model <- gets (fun w => model (self w)) ;;
  modify (fun w => mkWorld (self w) (gen w)
                     (calls w ++ [not_mask_mul mask state])) ;;;
  out <- lift (lm_logits model (not_mask_mul mask state)) ;;
  ret out.

(** [Categorical(logits=out).sample()] on a batch of logits: one draw
    per row, each advancing the generator. *)
Fixpoint sample_batch (logits : list vec) (g : Generator) : list Z * Generator :=
  match logits with
  | [] => ([], g)
  | row :: rest =>
      let '(i, g') := Categorical_sample row g in
      let '(next, g'') := sample_batch rest g' in
      (i :: next, g'')
  end.

(** The body of the loop of [inference]; the temperature is not 0. *)
Definition inference_step (temp : R) (tensor : tensor2) : M tensor2 :=
  logits <- forward tensor ;;
  last <- lift (last_position logits) ;;
  let out := map (map (fun x => (x / temp)%R)) last in
  next_value <- (fun w =>
                   let '(next, g) := sample_batch out (gen w) in
                   (Ok next, mkWorld (self w) g (calls w))) ;;
  (* next_value.unsqueeze(0) has one row *)
  lift (cat1 tensor [next_value]).

(** [t = 0; while t < n: tensor = body(tensor); t += 1] *)
Fixpoint while_lt (n : nat) (body : tensor2 -> M tensor2) (tensor : tensor2)
  : M tensor2 :=
  match n with
  | 0 => ret tensor
  | S n' => tensor' <- body tensor ;; while_lt n' body tensor'
  end.

Definition inference (tensor : tensor2) (max_length : Z) (temp : R) : M tensor2 :=
  while_lt (Z.to_nat max_length) (inference_step temp) tensor.

End GPTModel.

End GPTModel.

End model.

(* ================================================================== *)
(** * The training loops *)
(* ================================================================== *)

(** What the training loops only call: the model under training, its
    optimizer, the data source, the evaluation and the clock. *)
Class Trainer : Type := {
  (** a model's parameter set ([state_dict]) *)
  Params : Type;
  (** an optimizer's state ([state_dict]) *)
  OptState : Type;
  Batch : Type;
  (** a Python float *)
  Scalar : Type;
  (** the value of the [k]-th reading of [time.time()] *)
  time_at : nat -> Scalar;
  (** a freshly constructed model and a fresh optimizer for it *)
  init_params : Params;
  init_opt : Params -> OptState;
  (** the result of an evaluation: accuracy and test loss *)
  eval_model : Params -> Scalar * Scalar;
  (** [opt.zero_grad()], forward pass, loss, [loss.backward()],
      [opt.step()], [loss.item()] *)
  train_step : Params -> OptState -> Batch -> Params * OptState * Scalar;
  (** [opt.zero_grad()], [loss.backward()] and [opt.step()] for the loss
      that a caller-supplied loss function computes *)
  backward_step :
    (Params -> Batch -> Scalar) -> Params -> OptState -> Batch -> Params * OptState
}.

(* ================================================================== *)
(** * stonefish/train.py *)
(* ================================================================== *)

Module train.

Section main.
Context `{Trainer}.

(** A line of the log file. *)
Inductive LogRecord : Type :=
| TEST (epoch : Z) (time : Scalar) (acc : Scalar)
| TRAIN (epoch : Z) (batch_idx : Z) (time : Scalar) (loss : Scalar).

(** What a file holds: lines of text, or a pickled state dictionary. *)
Inductive Entry : Type :=
| Line (r : LogRecord)
| ModelSnapshot (p : Params)
| OptSnapshot (o : OptState).

Record State : Type := mkState {
  fs : gmap string (list Entry);
  model : Params;
  opt : OptState;
  clock : nat;
  losses : list Scalar
}.

Definition T (A : Type) : Type := SE State A.

Definition set_fs (f : gmap string (list Entry) -> gmap string (list Entry))
    (s : State) : State :=
  mkState (f (fs s)) (model s) (opt s) (clock s) (losses s).

(** [open(path, mode)] in write mode: the file is created, or truncated
    when it exists. *)
Definition open_w (path : string) : T string :=
  modify (set_fs (insert path [])) ;;; ret path.

(** [log_file.write(line)] *)
Definition write (log_file : string) (r : LogRecord) : T unit :=
  modify (set_fs (fun fs =>
    <[log_file := default [] (fs !! log_file) ++ [Line r]]> fs)).

(** [time.time()] *)
Definition time : T Scalar :=
  fun s => (Ok (time_at (clock s)),
            mkState (fs s) (model s) (opt s) (S (clock s)) (losses s)).

(** [torch.save(obj, path)] replaces the file at [path]. *)
Definition torch_save (e : Entry) (path : string) : T unit :=
  modify (set_fs (insert path [e])).

(** [model.load_state_dict(torch.load(path))] *)
Definition load_model_state (path : string) : T unit :=
  fun s => match fs s !! path with
           | None => (Raise FileNotFoundError, s)
           | Some [ModelSnapshot p] =>
               (Ok tt, mkState (fs s) p (opt s) (clock s) (losses s))
           | Some _ => (Raise UnpicklingError, s)
           end.

(** [opt.load_state_dict(torch.load(path))] *)
Definition load_opt_state (path : string) : T unit :=
  fun s => match fs s !! path with
           | None => (Raise FileNotFoundError, s)
           | Some [OptSnapshot o] =>
               (Ok tt, mkState (fs s) (model s) o (clock s) (losses s))
           | Some _ => (Raise UnpicklingError, s)
           end.

(** [if load: ...] on an optional path: [None] and the empty string are
    both false. *)
Definition if_path (load : option string) (k : string -> T unit) : T unit :=
  match load with
  | None => ret tt
  | Some p => if decide (p = EmptyString) then ret tt else k p
  end.

Definition model_path (epoch : nat) : string :=
  "model_" +:+ pretty epoch +:+ ".pth".

Definition opt_path : string := "opt.pth".

(** [losses = deque(maxlen=1000)]; [losses.append(loss)] *)
Definition deque_append (maxlen : nat) (l : list Scalar) (x : Scalar) : list Scalar :=
  drop (length (l ++ [x]) - maxlen) (l ++ [x]).

(** One gradient step on the batch [b], and [losses.append(loss)]. *)
Definition train_on (b : Batch) : T Scalar :=
  fun s =>
    let '(p, o, loss) := train_step (model s) (opt s) b in
    (Ok loss, mkState (fs s) p o (clock s) (deque_append 1000 (losses s) loss)).

(** The body of the loop over the batches. *)
Definition batch_body (log_file : string) (epoch batch_idx : nat) (b : Batch)
  : T unit :=
  loss <- train_on b ;;
  t <- time ;;
  write log_file (TRAIN (Z.of_nat epoch) (Z.of_nat batch_idx) t loss).

(** The body of the loop over the epochs; [dataloader epoch] is what the
    shuffling data loader yields when it is iterated for this epoch. *)
Definition epoch_body (dataloader : nat -> list Batch) (log_file : string)
    (epoch : nat) : T unit :=
  r <- gets (fun s => eval_model (model s)) ;;
  let '(acc, loss) := r in
  t <- time ;;
  write log_file (TEST (Z.of_nat epoch - 1) t acc) ;;;
  for_enumerate 0 (dataloader epoch) (batch_body log_file epoch) ;;;
  m <- gets model ;;
  torch_save (ModelSnapshot m) (model_path epoch) ;;;
  o <- gets opt ;;
  torch_save (OptSnapshot o) opt_path.

(** Everything before the loop over the epochs. *)
Definition setup (log_file_path : string) (load_model load_opt : option string)
  : T string :=
  modify (fun s => mkState (fs s) init_params (opt s) (clock s) (losses s)) ;;;
  if_path load_model load_model_state ;;;
  modify (fun s => mkState (fs s) (model s) (init_opt (model s)) (clock s)
                     (losses s)) ;;;
  if_path load_opt load_opt_state ;;;
  log_file <- open_w log_file_path ;;
  modify (fun s => mkState (fs s) (model s) (opt s) (clock s) []) ;;;
  ret log_file.

(** [main] with the loop bound as a parameter: the state in which the
    run is after [epochs] completed epochs. *)
Definition main_epochs (epochs : nat) (dataloader : nat -> list Batch)
    (log_file_path : string) (load_model load_opt : option string) : T unit :=
  log_file <- setup log_file_path load_model load_opt ;;
  for_in_range epochs (epoch_body dataloader log_file).

(** [main]; the trailing evaluation is only printed. *)
Definition main (dataloader : nat -> list Batch)
    (log_file_path : string) (load_model load_opt : option string) : T unit :=
  main_epochs 1000 dataloader log_file_path load_model load_opt ;;;
  _ <- gets (fun s => eval_model (model s)) ;;
  ret tt.

(** [str.lower()] on the letters of ASCII; the other characters, and the
    bytes of the characters outside ASCII, are left as they are. *)
Definition lower_ascii (c : Ascii.ascii) : Ascii.ascii :=
  let n := Ascii.nat_of_ascii c in
  if (65 <=? n) && (n <=? 90) then Ascii.ascii_of_nat (n + 32) else c.

Fixpoint lower (s : string) : string :=
  match s with
  | EmptyString => EmptyString
  | String c s' => String (lower_ascii c) (lower s')
  end.

(** [os.path.exists(path)] *)
Definition path_exists (path : string) : T bool :=
  gets (fun s => bool_decide (is_Some (fs s !! path))).

(** The script under [if __name__ == "__main__"], for the parsed
    arguments [log_file], [load_model], [load_opt] and [o] (the flag
    [-o]); [res] is the line that [input] reads when the user is asked. *)
Definition script (dataloader : nat -> list Batch) (log_file : string)
    (load_model load_opt : option string) (o : bool) (res : string) : T unit :=
  let go_ahead := o in
  go_ahead <-
    (if negb go_ahead then
       exists_ <- path_exists log_file ;;
       if exists_ : bool then
         ret (bool_decide (res = EmptyString) || bool_decide (lower res = "y"))
       else ret go_ahead
     else ret go_ahead) ;;
  exists_ <- path_exists log_file ;;
  if negb exists_ || go_ahead
  then main dataloader log_file load_model load_opt
  else ret tt.

End main.

End train.

(* ================================================================== *)
(** * stonefish/train/gpt.py *)
(* ================================================================== *)

Module train_gpt.

Section GPTTrainingContext.
Context `{Trainer}.

(** The calls that the controller makes on its collaborators, in order:
    the evaluation function, the training function (with the epoch and
    the batch index at which it is called) and the logger. *)
Inductive Event : Type :=
| LoggerEpoch
| EvalFn
| LoggerTestOutput (out : Scalar * Scalar)
| LoggerSaveCheckpoint
| TrainFn (epoch batch_idx : nat)
| LoggerLoss (batch_idx : Z) (len : nat) (loss : Scalar).

Record GPTTrainingContext : Type := mkGPTTrainingContext {
  eval_fn : Params -> list Batch -> (Params -> Batch -> Scalar) -> Scalar * Scalar;
  train_fn : Params -> Batch -> Scalar;
  train_dl : list Batch;
  test_dl : list Batch;
  epochs : Z;
  eval_freq : Z
}.

Record State : Type := mkState {
  model : Params;
  opt : OptState;
  trace : list Event
}.

Definition T (A : Type) : Type := SE State A.

Definition emit (e : Event) : T unit :=
  modify (fun s => mkState (model s) (opt s) (trace s ++ [e])).

(** [out = self.eval_fn(model, self.test_dl, self.train_fn)]
    [Logger.test_output] on the unpacked [out]; [Logger.save_checkpoint(model, opt)] *)
Definition evaluate (self : GPTTrainingContext) : T unit :=
  emit EvalFn ;;;
  out <- gets (fun s => eval_fn self (model s) (test_dl self) (train_fn self)) ;;
  emit (LoggerTestOutput out) ;;;
  emit LoggerSaveCheckpoint.

(** Python's [a % b] on integers *)
Definition py_mod (a b : Z) : result Z :=
  if decide (b = 0%Z) then Raise ZeroDivisionError else Ok (a mod b)%Z.

(** [loss = self.train_fn(model, state)], [loss.backward()],
    [opt.step()], [loss.item()] *)
Definition train_on (self : GPTTrainingContext) (state : Batch) : T Scalar :=
  fun s =>
    let loss := train_fn self (model s) state in
    let '(p, o) := backward_step (train_fn self) (model s) (opt s) state in
    (Ok loss, mkState p o (trace s)).

Definition batch_body (self : GPTTrainingContext) (epoch batch_idx : nat)
    (state : Batch) : T unit :=
  emit (TrainFn epoch batch_idx) ;;;
  loss <- train_on self state ;;
  emit (LoggerLoss (Z.of_nat batch_idx) (length (train_dl self)) loss) ;;;
  r <- lift (py_mod (Z.of_nat batch_idx) (eval_freq self)) ;;
  if ((r =? 0) && (Z.of_nat batch_idx >? 0))%Z then evaluate self else ret tt.

Definition epoch_body (self : GPTTrainingContext) (epoch : nat) : T unit :=
  emit LoggerEpoch ;;;
  evaluate self ;;;
  for_enumerate 0 (train_dl self) (batch_body self epoch) ;;;
  evaluate self.

Definition __call__ (self : GPTTrainingContext) : T unit :=
  for_in_range (Z.to_nat (epochs self)) (epoch_body self).

End GPTTrainingContext.

(** ** compute_loss *)

Section compute_loss.

(** The size of the vocabulary that [compute_loss] assumes. *)
Definition gpt2_vocab : nat := Z.to_nat 50257.

(** [flat] in rows of [n] entries, for at most [fuel] rows. *)
Fixpoint rows_of (fuel n : nat) (flat : list R) : list vec :=
  match fuel with
  | 0 => []
  | S fuel' =>
      match flat with
      | [] => []
      | _ => take n flat :: rows_of fuel' n (drop n flat)
      end
  end.

(** [t.reshape(-1, n)] for a positive [n]: the entries of [t] in
    row-major order, in rows of [n]; their number must be a multiple of
    [n]. *)
Definition reshape_rows (n : nat) (t : tensor3) : result (list vec) :=
  let flat := concat (concat t) in
  if length flat mod n =? 0 then Ok (rows_of (length flat) n flat)
  else Raise RuntimeError.

(** [rows[mask]] for a boolean mask over the rows *)
Definition masked_select {A} (rows : list A) (mask : list bool) : result (list A) :=
  if decide (length rows = length mask)
  then Ok (map fst (List.filter snd (zip rows mask)))
  else Raise IndexError.

(** The negative log-probability that the logits [p] give to the class
    [t]; a class that is not an index of [p] raises. *)
Definition nll (p : vec) (t : Z) : result R :=
  if (t <? 0)%Z then Raise IndexError
  else match log_softmax p !! Z.to_nat t with
       | Some x => Ok (- x)%R
       | None => Raise IndexError
       end.

(** [F.cross_entropy(input, target)] on the CPU, with its defaults: the
    mean of [nll] over the targets other than [ignore_index = -100];
    [None] is the nan that the mean over no target is. *)
Definition cross_entropy (input : list vec) (target : list Z)
  : result (option R) :=
  if decide (length input = length target) then
    let scored :=
      List.filter (fun p => negb (p.2 =? -100)%Z) (zip input target) in
    rbind (rmapM (fun p => nll p.1 p.2) scored) (fun terms =>
      match terms with
      | [] => Ok None
      | _ => Ok (Some (sum_R terms / INR (length terms))%R)
      end)
  else Raise ValueError.

(** [compute_loss(model, state)], for a [model] that is called as a
    function of the batch. *)
Definition compute_loss (model : tensor2 -> result tensor3) (state : tensor2)
  : result (option R) :=
  rbind (model state) (fun preds =>
  rbind (reshape_rows gpt2_vocab (drop_last_position preds)) (fun preds =>
  let target_ids := concat (map (drop 1) state) in
  let keep := map (fun t => negb (t =? -1)%Z) target_ids in
  rbind (masked_select preds keep) (fun preds =>
  rbind (masked_select target_ids keep) (fun target_ids =>
  cross_entropy preds target_ids)))).

End compute_loss.

End train_gpt.

(* ================================================================== *)
(** * Properties of the tensor operations *)
(* ================================================================== *)

Section tensor_facts.

Lemma rmapM_ok_inv {A B} (f : A -> result B) l ys :
  rmapM f l = Ok ys -> Forall2 (fun x y => f x = Ok y) l ys.
Proof.
  revert ys. induction l as [|x l IH]; simpl; intros ys Hys.
  - injection Hys as <-. constructor.
  - destruct (f x) as [y|e] eqn:Hfx; simpl in Hys; [|discriminate].
    destruct (rmapM f l) as [ys'|e] eqn:Hl; simpl in Hys; [|discriminate].
    injection Hys as <-. constructor; auto.
Qed.

Lemma rmapM_ok_intro {A B} (f : A -> result B) l ys :
  Forall2 (fun x y => f x = Ok y) l ys -> rmapM f l = Ok ys.
Proof.
  induction 1 as [|x y l ys Hxy _ IH]; simpl; [done|].
  by rewrite Hxy, IH.
Qed.

Lemma rmapM_total {A B} (f : A -> result B) (P : A -> Prop) l :
  (forall x, P x -> exists y, f x = Ok y) ->
  Forall P l -> exists ys, rmapM f l = Ok ys.
Proof.
  intros Hf. induction 1 as [|x l Hx _ [ys IH]]; simpl; [by eexists|].
  destruct (Hf x Hx) as [y ->]. rewrite IH. by eexists.
Qed.

Lemma rmapM_length {A B} (f : A -> result B) l ys :
  rmapM f l = Ok ys -> length ys = length l.
Proof. intros Hl%rmapM_ok_inv. symmetry. by eapply Forall2_length. Qed.

Lemma sum_R_exp_pos (x : vec) : x <> [] -> (0 < sum_R (map exp x))%R.
Proof.
  destruct x as [|a x]; [done|intros _]. simpl.
  assert (0 <= sum_R (map exp x))%R as Hnn.
  { induction x as [|b x IH]; simpl; [lra|]. pose proof (exp_pos b). lra. }
  pose proof (exp_pos a). lra.
Qed.

Lemma sum_R_map_scale (c : R) (l : list R) :
  sum_R (map (fun y => y * c)%R l) = (sum_R l * c)%R.
Proof. induction l as [|y l IH]; simpl; [lra|]. rewrite IH. lra. Qed.

(** Exponentiating the output of the log-softmax gives a probability
    distribution. *)
Lemma log_softmax_normalised (x : vec) :
  x <> [] -> sum_R (map exp (log_softmax x)) = 1%R.
Proof.
  intros Hx. pose proof (sum_R_exp_pos x Hx) as Hpos.
  unfold log_softmax. rewrite map_map.
  erewrite map_ext.
  2:{ intros xi. unfold Rminus. rewrite exp_plus, exp_Ropp, exp_ln by done.
      reflexivity. }
  rewrite <- (map_map exp (fun y => y * / sum_R (map exp x))%R).
  rewrite sum_R_map_scale. field. lra.
Qed.

Lemma log_softmax_length (x : vec) : length (log_softmax x) = length x.
Proof. unfold log_softmax. by rewrite length_map. Qed.

Lemma linear_length (l : Linear) (x : vec) :
  length (bias l) = out_features l -> length (linear l x) = out_features l.
Proof.
  intros Hb. unfold linear, out_features in *.
  rewrite length_zip_with, length_map. lia.
Qed.

Lemma argmax_from_bound best_i best i xs :
  best_i < i -> argmax_from best_i best i xs < i + length xs.
Proof.
  revert best_i best i. induction xs as [|x xs IH]; simpl; intros; [lia|].
  destruct (Rlt_dec best x).
  - specialize (IH i x (S i)). lia.
  - specialize (IH best_i best (S i)). lia.
Qed.

Lemma argmax_range xs :
  xs <> [] -> exists i, argmax xs = Ok i /\ (0 <= i < Z.of_nat (length xs))%Z.
Proof.
  destruct xs as [|x xs]; [done|intros _]. eexists; split; [done|].
  pose proof (argmax_from_bound 0 x 1 xs). simpl. lia.
Qed.

(** The value that [argmax_from] settles on, together with its index:
    the index is the first one at which the maximum is attained. *)
Lemma argmax_from_first best_i best i xs (d : R) :
  let k := argmax_from best_i best i xs in
  (k = best_i /\ Forall (fun x => x <= best)%R xs) \/
  (exists j, k = i + j /\ j < length xs /\
     (best < nth j xs d)%R /\
     Forall (fun x => x <= nth j xs d)%R xs /\
     forall j', j' < j -> (nth j' xs d < nth j xs d)%R).
Proof.
  revert best_i best i. induction xs as [|x xs IH]; simpl; intros best_i best i.
  { left. split; [done|constructor]. }
  destruct (Rlt_dec best x) as [Hlt|Hge].
  - right. destruct (IH i x (S i)) as [[Hk Hall]|(j & Hk & Hj & Hbest & Hall & Hfirst)].
    + exists 0. simpl. repeat split; [lia|lia|done| |lia].
      constructor; [lra|done].
    + exists (S j). simpl. repeat split; [lia|lia|lra| |].
      * constructor; [lra|done].
      * intros [|j'] Hj'; [done|]. apply Hfirst. lia.
  - destruct (IH best_i best (S i)) as [[Hk Hall]|(j & Hk & Hj & Hbest & Hall & Hfirst)].
    + left. split; [done|]. constructor; [lra|done].
    + right. exists (S j). simpl. repeat split; [lia|lia|done| |].
      * constructor; [lra|done].
      * intros [|j'] Hj'; [lra|]. apply Hfirst. lia.
Qed.

Lemma transformer_check_ok d (src tgt : tensor3) :
  length src = length tgt ->
  Forall (rect d) src -> Forall (rect d) tgt ->
  transformer_check d src tgt = Ok tt.
Proof.
  intros Hb Hs Ht. unfold transformer_check.
  rewrite (proj2 (Nat.eqb_eq _ _) Hb). simpl.
  assert (forall t : tensor3, Forall (rect d) t ->
            forallb (forallb (fun v : vec => length v =? d)) t = true) as Hall.
  { intros t Hd. apply forallb_forall. intros row Hrow.
    apply forallb_forall. intros v Hv. apply Nat.eqb_eq.
    rewrite Forall_forall in Hd. specialize (Hd row).
    unfold rect in Hd. rewrite Forall_forall in Hd.
    apply Hd; by apply list_elem_of_In. }
  by rewrite (Hall src Hs), (Hall tgt Ht).
Qed.

End tensor_facts.

(* ================================================================== *)
(** * The positional encoding table *)
(* ================================================================== *)

Section positional_encoding_facts.
Import model.

Lemma arange_aux_seq n start step :
  arange_aux n start step = map (fun i => start + i * step) (seq 0 n).
Proof.
  revert start. induction n as [|n IH]; intros start; [done|].
  simpl. f_equal; [lia|]. rewrite IH, <- seq_shift, map_map.
  apply map_ext. intros i. lia.
Qed.

Lemma arange_unit n : arange n 1 = seq 0 n.
Proof.
  unfold arange. rewrite arange_aux_seq.
  replace (n + 1 - 1) with n by lia. rewrite Nat.div_1_r.
  rewrite <- (map_id (seq 0 n)) at 2. apply map_ext. intros; lia.
Qed.

Lemma arange_even k : arange (2 * k) 2 = map (fun i => 2 * i) (seq 0 k).
Proof.
  unfold arange. rewrite arange_aux_seq.
  replace (2 * k + 2 - 1) with (1 + k * 2) by lia.
  rewrite Nat.div_add by lia. simpl (1 `div` 2). simpl (0 + k).
  apply map_ext. intros; lia.
Qed.

Lemma assign_stride_length start step vals row :
  length (assign_stride start step vals row) = length row.
Proof.
  revert start row. induction vals as [|v vals IH]; intros start row; [done|].
  cbn [assign_stride]. rewrite IH. apply length_insert.
Qed.

Lemma assign_stride_miss start step vals (row : vec) j :
  (forall i, i < length vals -> j <> start + i * step) ->
  assign_stride start step vals row !! j = row !! j.
Proof.
  revert start row. induction vals as [|v vals IH]; intros start row Hj; [done|].
  cbn [assign_stride]. rewrite IH.
  - apply list_lookup_insert_ne. specialize (Hj 0). simpl in Hj. lia.
  - intros i Hi. specialize (Hj (S i)). simpl in Hj. lia.
Qed.

Lemma assign_stride_hit start step vals (row : vec) i v :
  0 < step -> vals !! i = Some v -> start + i * step < length row ->
  assign_stride start step vals row !! (start + i * step) = Some v.
Proof.
  intros Hstep. revert start row i.
  induction vals as [|v' vals IH]; intros start row i Hv Hlen; [done|].
  destruct i as [|i]; cbn [assign_stride]; simpl in Hv.
  - injection Hv as ->. replace (start + 0 * step) with start in * by lia.
    rewrite assign_stride_miss.
    + apply list_lookup_insert_eq. lia.
    + intros i _. nia.
  - replace (start + S i * step) with ((start + step) + i * step) by lia.
    apply IH; [done|]. rewrite length_insert. lia.
Qed.

Lemma div_term_lookup (d : Z) i :
  (d mod 2 = 0)%Z -> 2 * i < Z.to_nat d ->
  div_term d !! i = Some (exp (INR (2 * i) * - (ln 10000 / IZR d)))%R.
Proof.
  intros Hev Hi. unfold div_term.
  assert (exists k, Z.to_nat d = 2 * k) as [k Hk].
  { exists (Z.to_nat (d / 2)). apply Z.div_exact in Hev; lia. }
  rewrite Hk, arange_even, map_map, list_lookup_fmap.
  rewrite lookup_seq_lt by lia. done.
Qed.

Lemma div_term_length (d : Z) :
  (d mod 2 = 0)%Z -> 2 * length (div_term d) = Z.to_nat d.
Proof.
  intros Hev. unfold div_term.
  assert (exists k, Z.to_nat d = 2 * k) as [k Hk].
  { exists (Z.to_nat (d / 2)). apply Z.div_exact in Hev; lia. }
  rewrite Hk, arange_even, !length_map, length_seq. done.
Qed.

(** The table that a successful construction returns. *)
Lemma positionalencoding1d_ok (d L : Z) :
  (0 < d)%Z -> (d mod 2 = 0)%Z -> (0 <= L)%Z ->
  exists pe, positionalencoding1d d L = Ok pe /\
    length pe = Z.to_nat L /\
    forall p row, pe !! p = Some row ->
      length row = Z.to_nat d /\
      forall i, 2 * i < Z.to_nat d ->
        row !! (2 * i) =
          Some (sin (INR p * exp (INR (2 * i) * - (ln 10000 / IZR d))))%R /\
        row !! (2 * i + 1) =
          Some (cos (INR p * exp (INR (2 * i) * - (ln 10000 / IZR d))))%R.
Proof.
  intros Hd Hev HL. unfold positionalencoding1d.
  rewrite Hev. simpl negb. cbv iota.
  destruct (Z.ltb_spec L 0); [lia|]. destruct (Z.ltb_spec d 0); [lia|].
  simpl orb. cbv iota. destruct (Z.eqb_spec d 0); [lia|].
  eexists; split; [reflexivity|]. rewrite arange_unit. split.
  - unfold assign_columns.
    rewrite !length_zip_with, !length_map, length_seq, length_replicate. lia.
  - intros p row Hrow. unfold assign_columns in Hrow.
    apply lookup_zip_with_Some in Hrow as (cosv & row1 & -> & Hcos & Hrow1).
    apply lookup_zip_with_Some in Hrow1 as (sinv & row0 & -> & Hsin & Hrow0).
    apply lookup_replicate in Hrow0 as [-> Hp].
    rewrite list_lookup_fmap, lookup_seq_lt in Hcos, Hsin by done.
    simpl in Hcos, Hsin. injection Hcos as <-. injection Hsin as <-.
    split; [by rewrite !assign_stride_length, length_replicate|].
    intros i Hi. pose proof (div_term_length d Hev) as Hlen.
    pose proof (div_term_lookup d i Hev Hi) as Hw. split.
    + rewrite assign_stride_miss by (intros; lia).
      replace (2 * i) with (0 + i * 2) at 1 by lia.
      apply assign_stride_hit; [lia| |rewrite length_replicate; lia].
      by rewrite list_lookup_fmap, Hw.
    + replace (2 * i + 1) with (1 + i * 2) by lia.
      apply assign_stride_hit; [lia| |].
      * by rewrite list_lookup_fmap, Hw.
      * rewrite assign_stride_length, length_replicate. lia.
Qed.

Lemma positionalencoding1d_odd (d L : Z) :
  Z.odd d = true -> positionalencoding1d d L = Raise ValueError.
Proof.
  intros Hodd. unfold positionalencoding1d.
  rewrite Zmod_odd, Hodd. done.
Qed.

Lemma positionalencoding1d_width (d L : Z) pe :
  positionalencoding1d d L = Ok pe ->
  length pe = Z.to_nat L /\ rect (Z.to_nat d) pe.
Proof.
  intros Hpe. unfold positionalencoding1d in Hpe.
  destruct (Z.eqb_spec (d mod 2) 0) as [Hev|]; [|done]. simpl in Hpe.
  destruct (Z.ltb_spec L 0); [done|]. destruct (Z.ltb_spec d 0); [done|].
  simpl in Hpe. destruct (Z.eqb_spec d 0); [done|].
  destruct (positionalencoding1d_ok d L) as (pe' & Hpe' & Hlen & Hrows);
    [lia|done|done|].
  unfold positionalencoding1d in Hpe'. rewrite Hev in Hpe'. simpl in Hpe'.
  destruct (Z.ltb_spec L 0); [lia|]. destruct (Z.ltb_spec d 0); [lia|].
  simpl in Hpe'. destruct (Z.eqb_spec d 0); [lia|].
  rewrite Hpe in Hpe'. injection Hpe' as <-. split; [done|].
  apply Forall_lookup. intros p row Hrow. by apply Hrows in Hrow as [? _].
Qed.

End positional_encoding_facts.

(* ================================================================== *)
(** * Reasoning about computations *)
(* ================================================================== *)

Section monad_facts.
Context {St : Type}.

Lemma bind_ok {A B} (m : SE St A) (k : A -> SE St B) s a :
  (m s).1 = Ok a -> bind m k s = k a (m s).2.
Proof. unfold bind. destruct (m s) as [[a'|e] s']; simpl; congruence. Qed.

Lemma bind_raise {A B} (m : SE St A) (k : A -> SE St B) s e :
  (m s).1 = Raise e -> bind m k s = (Raise e, (m s).2).
Proof. unfold bind. destruct (m s) as [[a'|e'] s']; simpl; congruence. Qed.

Lemma bind_run {A B} (m : SE St A) (k : A -> SE St B) s a s' :
  m s = (Ok a, s') -> bind m k s = k a s'.
Proof. unfold bind. by intros ->. Qed.

Lemma bind_run_raise {A B} (m : SE St A) (k : A -> SE St B) s e s' :
  m s = (Raise e, s') -> bind m k s = (Raise e, s').
Proof. unfold bind. by intros ->. Qed.

Lemma bind_assoc {A B C} (m : SE St A) (k : A -> SE St B) (k' : B -> SE St C) s :
  bind (bind m k) k' s = bind m (fun a => bind (k a) k') s.
Proof. unfold bind. by destruct (m s) as [[a|e] s']. Qed.

Lemma bind_ret_r {A} (m : SE St A) s : bind m ret s = m s.
Proof. unfold bind, ret. by destruct (m s) as [[a|e] s']. Qed.

(** ** A computation only moves the state along a preorder *)

Definition stable {A} (R : St -> St -> Prop) (m : SE St A) : Prop :=
  forall s, R s (m s).2.

Section stable.
Context (R : St -> St -> Prop) `{!Reflexive R, !Transitive R}.

Lemma stable_ret {A} (a : A) : stable R (ret a).
Proof. intros s. simpl. reflexivity. Qed.

Lemma stable_lift {A} (r : result A) : stable R (lift r).
Proof. intros s. simpl. reflexivity. Qed.

Lemma stable_gets {A} (f : St -> A) : stable R (gets f).
Proof. intros s. simpl. reflexivity. Qed.

Lemma stable_bind {A B} (m : SE St A) (k : A -> SE St B) :
  stable R m -> (forall a, stable R (k a)) -> stable R (bind m k).
Proof.
  intros Hm Hk s. unfold bind. specialize (Hm s).
  destruct (m s) as [[a|e] s']; simpl in *; [|done].
  etrans; [exact Hm|apply Hk].
Qed.

Lemma stable_for_enumerate {A} i (l : list A) (body : nat -> A -> SE St unit) :
  (forall j x, stable R (body j x)) -> stable R (for_enumerate i l body).
Proof.
  intros Hbody. revert i. induction l as [|x l IH]; intros i; simpl.
  - apply stable_ret.
  - apply stable_bind; [apply Hbody|intros _; apply IH].
Qed.

End stable.

(** ** Two runs from related states stay related and agree on the result *)

Definition agree {A} (R : St -> St -> Prop) (m1 m2 : SE St A) : Prop :=
  forall s1 s2, R s1 s2 -> (m1 s1).1 = (m2 s2).1 /\ R (m1 s1).2 (m2 s2).2.

Lemma agree_ret {A} R (a : A) : agree R (ret a) (ret a).
Proof. intros s1 s2 HR. done. Qed.

Lemma agree_lift {A} R (r : result A) : agree R (lift r) (lift r).
Proof. intros s1 s2 HR. done. Qed.

Lemma agree_bind {A B} R (m1 m2 : SE St A) (k1 k2 : A -> SE St B) :
  agree R m1 m2 -> (forall a, agree R (k1 a) (k2 a)) ->
  agree R (bind m1 k1) (bind m2 k2).
Proof.
  intros Hm Hk s1 s2 HR. unfold bind. destruct (Hm s1 s2 HR) as [Hv Hs].
  destruct (m1 s1) as [[a1|e1] s1'], (m2 s2) as [[a2|e2] s2'];
    simpl in *; try discriminate.
  - injection Hv as ->. by apply Hk.
  - injection Hv as ->. by split.
Qed.

End monad_facts.

(* ================================================================== *)
(** * Shapes of the tensors that flow through the model *)
(* ================================================================== *)

(** [t] is a batch of [b] rows of [n] entries. *)
Definition shape2 {A} (b n : nat) (t : list (list A)) : Prop :=
  length t = b /\ rect n t.

(** [t] is a batch of [b] rows of [n] feature vectors of width [d]. *)
Definition shape3 (b n d : nat) (t : tensor3) : Prop :=
  length t = b /\ rect n t /\ Forall (rect d) t.

(** Every id of [t] is an index into a table of [w] rows. *)
Definition in_vocab (w : nat) (t : tensor2) : Prop :=
  Forall (Forall (fun id => 0 <= id < Z.of_nat w)%Z) t.

(** Every id of [t] is the padding sentinel or an index into a table of
    [w] rows. *)
Definition in_vocab_or_padding (w : nat) (t : tensor2) : Prop :=
  Forall (Forall (fun id => id = (-1)%Z \/ (0 <= id < Z.of_nat w)%Z)) t.

Section shape_facts.
Import model.

Lemma rect_shape1 {A} n (t : list (list A)) : t <> [] -> rect n t -> shape1 t = n.
Proof. destruct t as [|row t]; [done|]. intros _ Hr. by inversion Hr. Qed.

Lemma get_mask_shape b n (t : tensor2) pad :
  shape2 b n t -> shape2 b n (get_mask t pad).
Proof.
  intros [Hb Hn]. split; unfold get_mask; [by rewrite length_map|].
  unfold rect in *. rewrite Forall_fmap. eapply Forall_impl; [exact Hn|].
  intros row Hrow. simpl. by rewrite length_map.
Qed.

Lemma not_mask_mul_row_length (row : list Z) pad :
  length (zip_with (fun (b : bool) x => (Z.b2z (negb b) * x)%Z)
            (map (fun x => (x =? pad)%Z) row) row) = length row.
Proof. rewrite length_zip_with, length_map. lia. Qed.

Lemma not_mask_mul_shape b n (t : tensor2) :
  shape2 b n t -> shape2 b n (not_mask_mul (get_mask t (-1)) t).
Proof.
  intros [Hb Hn]. unfold not_mask_mul, get_mask. split.
  - rewrite length_zip_with, length_map. lia.
  - unfold rect in *. apply Forall_lookup. intros i row Hi.
    apply lookup_zip_with_Some in Hi as (mrow & trow & -> & Hm & Ht).
    rewrite list_lookup_fmap, Ht in Hm. injection Hm as <-.
    rewrite not_mask_mul_row_length.
    by eapply (Forall_lookup_1 _ _ _ _ Hn).
Qed.

(** Multiplying by the negated mask sends the sentinel to 0 and leaves
    every other id as it is. *)
Lemma not_mask_mul_lookup (t : tensor2) i j x :
  t !! i ≫= (.!! j) = Some x ->
  not_mask_mul (get_mask t (-1)) t !! i ≫= (.!! j)
  = Some (if decide (x = (-1)%Z) then 0%Z else x).
Proof.
  intros Hx. destruct (t !! i) as [row|] eqn:Hrow; [|done]. simpl in Hx.
  unfold not_mask_mul, get_mask.
  rewrite lookup_zip_with, list_lookup_fmap, Hrow. simpl.
  rewrite lookup_zip_with, list_lookup_fmap, Hx. simpl. f_equal.
  case_decide as Hd.
  - subst x. done.
  - destruct (Z.eqb_spec x (-1)); [done|]. simpl. lia.
Qed.

Lemma not_mask_mul_in_vocab w (t : tensor2) :
  0 < w -> in_vocab_or_padding w t ->
  in_vocab w (not_mask_mul (get_mask t (-1)) t).
Proof.
  intros Hw Ht. unfold in_vocab. apply Forall_lookup. intros i row Hi.
  apply Forall_lookup. intros j y Hj.
  assert (not_mask_mul (get_mask t (-1)) t !! i ≫= (.!! j) = Some y) as Hy
    by (by rewrite Hi).
  unfold not_mask_mul, get_mask in Hi.
  apply lookup_zip_with_Some in Hi as (mrow & trow & _ & _ & Ht').
  assert (exists x, trow !! j = Some x) as [x Hx].
  { apply lookup_lt_is_Some. apply lookup_lt_Some in Hj.
    unfold not_mask_mul, get_mask in Hy.
    rewrite lookup_zip_with, list_lookup_fmap, Ht' in Hy. simpl in Hy.
    apply lookup_lt_Some in Hy. rewrite length_zip_with in Hy. lia. }
  rewrite (not_mask_mul_lookup t i j x) in Hy by (by rewrite Ht').
  injection Hy as <-.
  pose proof (Forall_lookup_1 _ _ _ _ (Forall_lookup_1 _ _ _ _ Ht Ht') Hx) as Hv.
  simpl in Hv. case_decide; lia.
Qed.

Lemma embedding_lookup_ok (table : list vec) id :
  (0 <= id < Z.of_nat (length table))%Z ->
  exists v, embedding_lookup table id = Ok v.
Proof.
  intros Hid. unfold embedding_lookup.
  destruct (Z.ltb_spec id 0); [lia|].
  destruct (lookup_lt_is_Some_2 table (Z.to_nat id)) as [v ->]; [lia|].
  by eexists.
Qed.

Lemma embedding_ok (table : list vec) b n (ids : tensor2) :
  shape2 b n ids -> in_vocab (length table) ids ->
  exists e, embedding table ids = Ok e /\ shape2 b n e.
Proof.
  intros [Hb Hn] Hv. unfold embedding.
  destruct (rmapM_total (rmapM (embedding_lookup table))
              (Forall (fun id => 0 <= id < Z.of_nat (length table))%Z) ids)
    as [e He]; [|done|].
  { intros row Hrow. eapply rmapM_total; [|exact Hrow].
    intros id Hid. by apply embedding_lookup_ok. }
  exists e. split; [done|]. pose proof (rmapM_ok_inv _ _ _ He) as H2.
  split; [by rewrite <- (Forall2_length _ _ _ H2)|].
  unfold rect in *. clear He Hb Hv. induction H2 as [|row r ids e Hr _ IH].
  - constructor.
  - inversion Hn; subst. constructor; [|by apply IH].
    by apply rmapM_length in Hr.
Qed.

Lemma map_linear_shape b n (l : Linear) (e : tensor3) :
  length (bias l) = out_features l ->
  shape2 b n e -> shape3 b n (out_features l) (map (map (linear l)) e).
Proof.
  intros Hl [Hb Hn]. unfold shape3, rect in *.
  rewrite length_map. split; [done|]. split.
  - rewrite Forall_fmap. eapply Forall_impl; [exact Hn|].
    intros row Hrow. simpl. by rewrite length_map.
  - rewrite Forall_fmap. apply Forall_forall. intros row _. simpl.
    rewrite Forall_fmap. apply Forall_forall. intros v _. simpl.
    by apply linear_length.
Qed.

Lemma add_positions_ok (pe : list vec) b n d (data : tensor3) :
  n <= length pe -> rect d pe -> shape3 b n d data ->
  exists out, add_positions pe data = Ok out /\ shape3 b n d out.
Proof.
  intros Hn Hpe (Hb & Hr & Hd). unfold add_positions.
  set (f := fun row : list vec => _).
  assert (Forall2 (fun row y => f row = Ok y)
            data (map (fun row => zip_with vadd row (take (length row) pe)) data))
    as H2.
  { apply Forall2_fmap_r, Forall_Forall2_diag.
    eapply Forall_impl; [exact Hr|]. intros row Hrow. unfold f. simpl in *.
    rewrite decide_True; [done|]. rewrite length_take. lia. }
  eexists. split; [by apply rmapM_ok_intro|].
  unfold shape3, rect in *. rewrite length_map. split; [done|]. split.
  - rewrite Forall_fmap. eapply Forall_impl; [exact Hr|].
    intros row Hrow. simpl in *. rewrite length_zip_with, length_take. lia.
  - rewrite Forall_fmap. apply Forall_lookup. intros i row Hi. simpl.
    apply Forall_lookup. intros j v Hj.
    apply lookup_zip_with_Some in Hj as (x & y & -> & Hx & Hy).
    unfold vadd. rewrite length_zip_with.
    pose proof (Forall_lookup_1 _ _ _ _ (Forall_lookup_1 _ _ _ _ Hd Hi) Hx) as Hxd.
    apply lookup_take_Some in Hy as [Hy _].
    pose proof (Forall_lookup_1 _ _ _ _ Hpe Hy) as Hyd.
    simpl in *. lia.
Qed.

(** A row longer than the table does not broadcast. *)
Lemma add_positions_too_long (pe : list vec) (row : list vec) (data : tensor3) :
  length pe < length row ->
  add_positions pe (row :: data) = Raise RuntimeError.
Proof.
  intros Hlen. unfold add_positions. simpl.
  rewrite decide_False; [done|]. rewrite length_take. lia.
Qed.

Lemma to_dist_shape b n (l : Linear) (out : tensor3) :
  length (bias l) = out_features l ->
  shape2 b n out -> shape3 b n (out_features l) (to_dist l out).
Proof.
  intros Hl [Hb Hn]. unfold to_dist, shape3, rect in *.
  rewrite length_map. split; [done|]. split.
  - rewrite Forall_fmap. eapply Forall_impl; [exact Hn|].
    intros row Hrow. simpl. by rewrite length_map.
  - rewrite Forall_fmap. apply Forall_forall. intros row _. simpl.
    rewrite Forall_fmap. apply Forall_forall. intros v _. simpl.
    rewrite log_softmax_length. by apply linear_length.
Qed.

(** Every position of the output of [to_dist] is a log-probability
    distribution over a non-empty vocabulary. *)
Lemma to_dist_normalised (l : Linear) (out : tensor3) :
  length (bias l) = out_features l -> 0 < out_features l ->
  Forall (Forall (fun v => sum_R (map exp v) = 1%R)) (to_dist l out).
Proof.
  intros Hl Hpos. unfold to_dist.
  rewrite Forall_fmap. apply Forall_forall. intros row _. simpl.
  rewrite Forall_fmap. apply Forall_forall. intros v _. simpl.
  apply log_softmax_normalised. intros Hnil.
  pose proof (linear_length l v Hl) as Hlen. rewrite Hnil in Hlen. simpl in Hlen. lia.
Qed.

Lemma drop_last_position_shape b n d (t : tensor3) :
  shape3 b n d t -> shape3 b (n - 1) d (drop_last_position t).
Proof.
  intros (Hb & Hn & Hd). unfold drop_last_position, shape3, rect in *.
  rewrite length_map. split; [done|]. split.
  - rewrite Forall_fmap. eapply Forall_impl; [exact Hn|].
    intros row Hrow. simpl in *. rewrite length_take. lia.
  - rewrite Forall_fmap. eapply Forall_impl; [exact Hd|].
    intros row Hrow. simpl. by apply Forall_take.
Qed.

Lemma last_position_ok b n d (t : tensor3) :
  0 < n -> shape3 b n d t ->
  exists l, last_position t = Ok l /\ length l = b /\ rect d l.
Proof.
  intros Hpos (Hb & Hn & Hd). unfold last_position.
  destruct (rmapM_total
              (fun row : list vec => match last row with
                                     | Some v => Ok v
                                     | None => Raise IndexError
                                     end)
              (fun row => length row = n) t) as [l Hl]; [|done|].
  { intros row Hrow. destruct (last row) eqn:Hlast; [by eexists|].
    apply last_None in Hlast. subst row. simpl in Hrow. lia. }
  exists l. split; [done|]. pose proof (rmapM_ok_inv _ _ _ Hl) as H2.
  split; [by rewrite <- (Forall2_length _ _ _ H2)|].
  unfold rect in *. clear Hl Hb Hn. induction H2 as [|row v t l Hv _ IH].
  - constructor.
  - inversion Hd as [|? ? Hrow Hd']; subst. constructor; [|by apply IH].
    destruct (last row) eqn:Hlast; [|done]. injection Hv as <-.
    apply last_Some in Hlast as [row' ->].
    apply Forall_app in Hrow as [_ Hrow]. by inversion Hrow.
Qed.

End shape_facts.

(* ================================================================== *)
(** * The methods of BaseModel, run on well-formed input *)
(* ================================================================== *)

Section BaseModel_runs.
Import model.
Context `{TorchLaws}.

(** The world after [pe] was brought to the device of the model. *)
Definition moved (w : World) : World :=
  mkWorld (pe_to_device (self w)) (gen w) (calls w).

(** The world after one more sub-module call was observed. *)
Definition with_call (w : World) (c : Call) : World :=
  mkWorld (self w) (gen w) (calls w ++ [c]).

Lemma wf_model_pe_to_device w_in w_out d m :
  wf_model w_in w_out d m -> wf_model w_in w_out d (pe_to_device m).
Proof. intros []. by constructor. Qed.

Lemma migrate_pe_run w : migrate_pe w = (Ok tt, moved w).
Proof.
  unfold migrate_pe, moved. case_decide as Hd; [|done].
  destruct w as [[] g c]. simpl in *. by subst.
Qed.

Lemma _encode_position_run data w :
  _encode_position data w = (add_positions (pe (self w)) data, moved w).
Proof. unfold _encode_position, bind. by rewrite migrate_pe_run. Qed.

Lemma _state_embed_run state w :
  _state_embed state w =
  match embedding (board_embed (self w)) state with
  | Ok embed =>
      (add_positions (pe (self w))
         (map (map (linear (to_emb_board (self w)))) embed),
       moved (with_call w (CallBoardEmbed state)))
  | Raise e => (Raise e, with_call w (CallBoardEmbed state))
  end.
Proof.
  unfold _state_embed, bind at 1 2 3 4. simpl.
  destruct (embedding _ state) as [embed|e]; [|done].
  rewrite bind_ret_r. by rewrite _encode_position_run.
Qed.

Lemma move_embedding_run action w :
  move_embedding action w =
  (rbind (embedding (move_embed (self w)) action)
     (fun embed => Ok (map (map (linear (to_emb_move (self w)))) embed)),
   with_call w (CallMoveEmbed action)).
Proof.
  unfold move_embedding, bind. simpl.
  by destruct (embedding _ action) as [embed|e].
Qed.

Lemma _action_embed_run action w :
  _action_embed action w =
  match embedding (move_embed (self w)) action with
  | Ok embed =>
      (add_positions (pe (self w))
         (map (map (linear (to_emb_move (self w)))) embed),
       moved (with_call w (CallMoveEmbed action)))
  | Raise e => (Raise e, with_call w (CallMoveEmbed action))
  end.
Proof.
  unfold _action_embed, bind at 1. rewrite move_embedding_run.
  destruct (embedding _ action) as [embed|e]; simpl; [|done].
  rewrite bind_ret_r. by rewrite _encode_position_run.
Qed.

Lemma _transformer_pass_run src tgt src_mask tgt_padding w :
  _transformer_pass src tgt src_mask tgt_padding w =
  (transformer_forward (transformer (self w)) src tgt
     (generate_square_subsequent_mask (shape1 tgt)) src_mask tgt_padding,
   with_call w (CallTransformer src tgt src_mask tgt_padding)).
Proof.
  unfold _transformer_pass, bind. simpl.
  by destruct (transformer_forward _ _ _ _ _ _).
Qed.

Lemma generate_square_subsequent_mask_shape sz :
  length (generate_square_subsequent_mask sz) = sz /\
  rect sz (generate_square_subsequent_mask sz).
Proof.
  unfold generate_square_subsequent_mask. rewrite length_map, length_seq.
  split; [done|]. unfold rect. rewrite Forall_fmap.
  apply Forall_forall. intros i _. simpl. by rewrite length_map, length_seq.
Qed.

(** From here on the model has the shapes that its constructor gives. *)
Context (w_in w_out : nat) (emb_dim : Z).

Lemma wf_pe_shape m :
  wf_model w_in w_out emb_dim m ->
  length (pe m) = 1024 /\ rect (Z.to_nat emb_dim) (pe m).
Proof. intros Hwf. by apply (positionalencoding1d_width emb_dim 1024), Hwf. Qed.

Lemma _state_embed_ok b n state w :
  wf_model w_in w_out emb_dim (self w) ->
  n <= 1024 -> shape2 b n state -> in_vocab w_in state ->
  exists pos,
    _state_embed state w =
      (Ok pos, moved (with_call w (CallBoardEmbed state))) /\
    shape3 b n (Z.to_nat emb_dim) pos.
Proof.
  intros Hwf Hn Hs Hv. rewrite _state_embed_run.
  destruct (wf_pe_shape _ Hwf) as [Hlen Hpe].
  destruct (embedding_ok (board_embed (self w)) b n state) as (e & -> & He);
    [done|by rewrite (wf_board_embed _ _ _ _ Hwf)|].
  destruct (add_positions_ok (pe (self w)) b n (Z.to_nat emb_dim)
              (map (map (linear (to_emb_board (self w)))) e))
    as (pos & -> & Hpos); [lia|done| |by exists pos].
  rewrite <- (wf_to_emb_board _ _ _ _ Hwf). apply map_linear_shape; [|done].
  by rewrite (wf_to_emb_board _ _ _ _ Hwf), (wf_to_emb_board_bias _ _ _ _ Hwf).
Qed.

Lemma _action_embed_ok b n action w :
  wf_model w_in w_out emb_dim (self w) ->
  n <= 1024 -> shape2 b n action -> in_vocab w_out action ->
  exists tgt,
    _action_embed action w =
      (Ok tgt, moved (with_call w (CallMoveEmbed action))) /\
    shape3 b n (Z.to_nat emb_dim) tgt.
Proof.
  intros Hwf Hn Hs Hv. rewrite _action_embed_run.
  destruct (wf_pe_shape _ Hwf) as [Hlen Hpe].
  destruct (embedding_ok (move_embed (self w)) b n action) as (e & -> & He);
    [done|by rewrite (wf_move_embed _ _ _ _ Hwf)|].
  destruct (add_positions_ok (pe (self w)) b n (Z.to_nat emb_dim)
              (map (map (linear (to_emb_move (self w)))) e))
    as (pos & -> & Hpos); [lia|done| |by exists pos].
  rewrite <- (wf_to_emb_move _ _ _ _ Hwf). apply map_linear_shape; [|done].
  by rewrite (wf_to_emb_move _ _ _ _ Hwf), (wf_to_emb_move_bias _ _ _ _ Hwf).
Qed.

Lemma _transformer_pass_ok b n k src tgt (src_mask tgt_padding : mask2) w :
  wf_model w_in w_out emb_dim (self w) ->
  0 < b -> 0 < n -> 0 < k ->
  shape3 b n (Z.to_nat emb_dim) src -> shape3 b k (Z.to_nat emb_dim) tgt ->
  shape2 b n src_mask -> shape2 b k tgt_padding ->
  exists out,
    _transformer_pass src tgt src_mask tgt_padding w =
      (Ok out, with_call w (CallTransformer src tgt src_mask tgt_padding)) /\
    shape3 b k (Z.to_nat emb_dim) out.
Proof.
  intros Hwf Hb Hn Hk (Hsb & Hsn & Hsd) (Htb & Htn & Htd) [Hmb Hmn] [Hpb Hpn].
  rewrite _transformer_pass_run.
  assert (shape1 tgt = k) as Hshape.
  { apply rect_shape1; [|done]. intros ->. simpl in Htb. lia. }
  destruct (generate_square_subsequent_mask_shape k) as [Hgl Hgr].
  destruct (transformer_forward_shape (transformer (self w)) src tgt
              (generate_square_subsequent_mask (shape1 tgt))
              src_mask tgt_padding n k)
    as (out & -> & Hob & Hon & Hod);
    rewrite ?Hshape, ?(wf_transformer _ _ _ _ Hwf); try done; try lia.
  rewrite (wf_transformer _ _ _ _ Hwf) in Hod.
  exists out. split; [done|]. repeat split; try done; lia.
Qed.

(** [forward] on a non-empty batch of well-formed sequences returns, and
    this is what it returns and which sub-modules it called on what. *)
Lemma forward_ok b n k state action w :
  wf_model w_in w_out emb_dim (self w) ->
  0 < w_in -> 0 < w_out -> 0 < b ->
  1 <= n <= 1024 -> 1 <= k <= 1024 ->
  shape2 b n state -> shape2 b k action ->
  in_vocab_or_padding w_in state -> in_vocab_or_padding w_out action ->
  exists pos tgt out,
    shape3 b k (Z.to_nat emb_dim) out /\
    (forward state action w).1 =
      Ok (drop_last_position (to_dist (to_dist_linear (self w)) out)) /\
    calls (forward state action w).2 =
      calls w ++
      [CallBoardEmbed (not_mask_mul (get_mask state (-1)) state);
       CallMoveEmbed (not_mask_mul (get_mask action (-1)) action);
       CallTransformer pos tgt (get_mask state (-1)) (get_mask action (-1))].
Proof.
  intros Hwf Hwin Hwout Hb Hn Hk Hs Ha Hvs Hva. unfold forward.
  destruct (_state_embed_ok b n (not_mask_mul (get_mask state (-1)) state) w)
    as (pos & Hrun1 & Hpos);
    [done|lia|by apply not_mask_mul_shape|by apply not_mask_mul_in_vocab|].
  rewrite (bind_run _ _ _ _ _ Hrun1).
  set (w1 := moved (with_call w _)).
  assert (wf_model w_in w_out emb_dim (self w1)) as Hwf1
    by (by apply wf_model_pe_to_device).
  destruct (_action_embed_ok b k (not_mask_mul (get_mask action (-1)) action) w1)
    as (tgt & Hrun2 & Htgt);
    [done|lia|by apply not_mask_mul_shape|by apply not_mask_mul_in_vocab|].
  rewrite (bind_run _ _ _ _ _ Hrun2).
  set (w2 := moved (with_call w1 _)).
  assert (wf_model w_in w_out emb_dim (self w2)) as Hwf2
    by (by apply wf_model_pe_to_device).
  destruct (_transformer_pass_ok b n k pos tgt
              (get_mask state (-1)) (get_mask action (-1)) w2)
    as (out & Hrun3 & Hout);
    [done|lia|lia|lia|done|done|by apply get_mask_shape|by apply get_mask_shape|].
  rewrite (bind_run _ _ _ _ _ Hrun3).
  exists pos, tgt, out. split; [done|]. split; [done|].
  simpl. by rewrite <- !app_assoc.
Qed.

(** What the constructor returns has the shapes of [wf_model], when the
    initial weights have them. *)
Lemma BaseModel_init_wf device board move transformer
    (to_board to_move to_dist : Linear) start_id m :
  BaseModel_init device board move emb_dim transformer to_board to_move to_dist
    start_id = Ok m ->
  length board = w_in -> length move = w_out ->
  d_model transformer = Z.to_nat emb_dim ->
  out_features to_board = Z.to_nat emb_dim ->
  length (bias to_board) = Z.to_nat emb_dim ->
  out_features to_move = Z.to_nat emb_dim ->
  length (bias to_move) = Z.to_nat emb_dim ->
  out_features to_dist = w_out -> length (bias to_dist) = w_out ->
  wf_model w_in w_out emb_dim m /\ pe_device m = model.device m.
Proof.
  unfold BaseModel_init. intros Hinit.
  destruct (positionalencoding1d emb_dim 1024) as [pe|e] eqn:Hpe; [|done].
  simpl in Hinit. injection Hinit as <-. by repeat split.
Qed.

(** The constructor raises for an odd working dimension. *)
Lemma BaseModel_init_odd device board move transformer
    (to_board to_move to_dist : Linear) start_id :
  Z.odd emb_dim = true ->
  BaseModel_init device board move emb_dim transformer to_board to_move to_dist
    start_id = Raise ValueError.
Proof.
  intros Hodd. unfold BaseModel_init.
  by rewrite (positionalencoding1d_odd emb_dim 1024 Hodd).
Qed.

End BaseModel_runs.

(** ** [forward], step by step *)

Section forward_runs.
Import model.
Context `{TorchLaws}.
Context (w_in w_out : nat) (emb_dim : Z).

(** [forward] on a non-empty batch of well-formed sequences, step by
    step: the two embeddings, the pass of the transformer on them, and
    the result, which is the output of [to_dist] on what the transformer
    returns, without its last position. *)
Lemma forward_steps b n k state action w :
  wf_model w_in w_out emb_dim (self w) ->
  0 < w_in -> 0 < w_out -> 0 < b ->
  1 <= n <= 1024 -> 1 <= k <= 1024 ->
  shape2 b n state -> shape2 b k action ->
  in_vocab_or_padding w_in state -> in_vocab_or_padding w_out action ->
  exists pos tgt out,
    (_state_embed (not_mask_mul (get_mask state (-1)) state) w).1 = Ok pos /\
    (_action_embed (not_mask_mul (get_mask action (-1)) action)
       (_state_embed (not_mask_mul (get_mask state (-1)) state) w).2).1 = Ok tgt /\
    transformer_forward (transformer (self w)) pos tgt
      (generate_square_subsequent_mask k)
      (get_mask state (-1)) (get_mask action (-1)) = Ok out /\
    shape3 b k (Z.to_nat emb_dim) out /\
    (forward state action w).1 =
      Ok (drop_last_position (to_dist (to_dist_linear (self w)) out)).
Proof.
  intros Hwf Hwin Hwout Hb Hn Hk Hs Ha Hvs Hva. unfold forward.
  destruct (_state_embed_ok w_in w_out emb_dim b n
              (not_mask_mul (get_mask state (-1)) state) w)
    as (pos & Hrun1 & Hpos);
    [done|lia|by apply not_mask_mul_shape|by apply not_mask_mul_in_vocab|].
  rewrite (bind_run _ _ _ _ _ Hrun1). rewrite Hrun1. cbn [fst snd].
  set (w1 := moved (with_call w _)).
  assert (wf_model w_in w_out emb_dim (self w1)) as Hwf1
    by (by apply wf_model_pe_to_device).
  destruct (_action_embed_ok w_in w_out emb_dim b k
              (not_mask_mul (get_mask action (-1)) action) w1)
    as (tgt & Hrun2 & Htgt);
    [done|lia|by apply not_mask_mul_shape|by apply not_mask_mul_in_vocab|].
  rewrite (bind_run _ _ _ _ _ Hrun2). rewrite Hrun2. cbn [fst snd].
  set (w2 := moved (with_call w1 _)).
  assert (wf_model w_in w_out emb_dim (self w2)) as Hwf2
    by (by apply wf_model_pe_to_device).
  destruct (_transformer_pass_ok w_in w_out emb_dim b n k pos tgt
              (get_mask state (-1)) (get_mask action (-1)) w2)
    as (out & Hrun3 & Hout);
    [done|lia|lia|lia|done|done|by apply get_mask_shape|by apply get_mask_shape|].
  rewrite (bind_run _ _ _ _ _ Hrun3).
  exists pos, tgt, out. split; [done|]. split; [done|]. split.
  - rewrite _transformer_pass_run in Hrun3.
    assert (shape1 tgt = k) as Hshape.
    { destruct Htgt as (Htb & Htn & _). apply rect_shape1; [|done].
      intros ->. simpl in Htb. lia. }
    rewrite Hshape in Hrun3. by injection Hrun3 as ->.
  - split; [done|]. done.
Qed.

(** An action longer than the positional table has rows makes [forward]
    raise when it adds the positions to the embedded action. *)
Lemma forward_action_too_long b n k state action w :
  wf_model w_in w_out emb_dim (self w) ->
  0 < w_in -> 0 < w_out -> 0 < b ->
  1 <= n <= 1024 -> 1024 < k ->
  shape2 b n state -> shape2 b k action ->
  in_vocab_or_padding w_in state -> in_vocab_or_padding w_out action ->
  (forward state action w).1 = Raise RuntimeError.
Proof.
  intros Hwf Hwin Hwout Hb Hn Hk Hs Ha Hvs Hva. unfold forward.
  destruct (_state_embed_ok w_in w_out emb_dim b n
              (not_mask_mul (get_mask state (-1)) state) w)
    as (pos & Hrun1 & Hpos);
    [done|lia|by apply not_mask_mul_shape|by apply not_mask_mul_in_vocab|].
  rewrite (bind_run _ _ _ _ _ Hrun1).
  set (w1 := moved (with_call w _)).
  assert (wf_model w_in w_out emb_dim (self w1)) as Hwf1
    by (by apply wf_model_pe_to_device).
  assert ((_action_embed (not_mask_mul (get_mask action (-1)) action) w1).1
          = Raise RuntimeError) as Hraise.
  { rewrite _action_embed_run.
    destruct (embedding_ok (move_embed (self w1)) b k
                (not_mask_mul (get_mask action (-1)) action))
      as (e & -> & Heb & Hek);
      [by apply not_mask_mul_shape
      |rewrite (wf_move_embed _ _ _ _ Hwf1); by apply not_mask_mul_in_vocab|].
    destruct e as [|row e]; [simpl in Heb; lia|]. cbn [map].
    rewrite add_positions_too_long; [reflexivity|].
    apply Forall_cons in Hek as [Hrow _]. rewrite length_map, Hrow.
    destruct (wf_pe_shape w_in w_out emb_dim _ Hwf1) as [-> _]. lia. }
  by rewrite (bind_raise _ _ _ _ Hraise).
Qed.

Lemma drop_last_position_lookup {A} k (t : list (list A)) i j :
  rect k t -> j < k - 1 ->
  drop_last_position t !! i ≫= (.!! j) = t !! i ≫= (.!! j).
Proof.
  intros Hrect Hj. unfold drop_last_position. rewrite list_lookup_fmap.
  destruct (t !! i) as [row|] eqn:Hi; [|done]. simpl.
  pose proof (Forall_lookup_1 _ _ _ _ Hrect Hi) as Hrow. simpl in Hrow.
  apply lookup_take_lt. lia.
Qed.

End forward_runs.

(* ================================================================== *)
(** * The autoregressive decoder, run on well-formed input *)
(* ================================================================== *)

Section decoder_runs.
Import model.
Context `{TorchLaws}.

(** The number of times the transformer was called. *)
Definition is_transformer_call (c : Call) : bool :=
  match c with
  | CallTransformer _ _ _ _ => true
  | _ => false
  end.

Definition count_transformer (cs : list Call) : nat :=
  length (filter (fun c => is_transformer_call c = true) cs).

(** A selection policy: on one row of [w_out] log-probabilities per batch
    element it returns one id of the output vocabulary per batch
    element, and it leaves the model and the call record alone. *)
Definition selects (w_out : nat) (action_sel : list vec -> M tensor2) : Prop :=
  forall logits w,
    rect w_out logits ->
    exists next,
      (action_sel logits w).1 = Ok next /\
      shape2 (length logits) 1 next /\ in_vocab w_out next /\
      self (action_sel logits w).2 = self w /\
      calls (action_sel logits w).2 = calls w.

Lemma max_action_sel_selects w_out : 0 < w_out -> selects w_out max_action_sel.
Proof.
  intros Hw logits w Hr. unfold max_action_sel, lift. simpl.
  assert (exists next,
            rmapM (fun row => rbind (argmax row) (fun i => Ok [i])) logits = Ok next /\
            shape2 (length logits) 1 next /\ in_vocab w_out next) as (next & -> & H1).
  { induction Hr as [|row logits Hrow _ (next & IH & [Hb Hn] & Hv)]; simpl.
    - exists []. repeat split; constructor.
    - destruct (argmax_range row) as (i & -> & Hi).
      { intros ->. simpl in Hrow. lia. }
      simpl. rewrite IH. simpl. exists ([i] :: next).
      split; [done|]. split; [split; [simpl; lia|by constructor]|].
      constructor; [|done]. constructor; [lia|constructor]. }
  exists next. by destruct H1.
Qed.

Lemma sample_rows_ok w_out logits g :
  0 < w_out -> rect w_out logits ->
  shape2 (length logits) 1 (sample_rows logits g).1 /\
  in_vocab w_out (sample_rows logits g).1.
Proof.
  intros Hw Hr. revert g.
  induction Hr as [|row logits Hrow _ IH]; intros g; simpl.
  - repeat split; constructor.
  - pose proof (Categorical_sample_range row g) as Hi.
    destruct (Categorical_sample row g) as [i g'].
    specialize (IH g'). destruct (sample_rows logits g') as [next g''].
    simpl in *. destruct IH as [[Hb Hn] Hv].
    split; [split; [simpl; lia|by constructor]|].
    constructor; [|done]. constructor; [|constructor].
    rewrite <- Hrow. apply Hi. intros ->. simpl in Hrow. lia.
Qed.

Lemma sample_action_sel_selects w_out :
  0 < w_out -> selects w_out sample_action_sel.
Proof.
  intros Hw logits w Hr. unfold sample_action_sel.
  pose proof (sample_rows_ok w_out logits (gen w) Hw Hr) as Hok.
  destruct (sample_rows logits (gen w)) as [next g]. simpl in *.
  exists next. by destruct Hok.
Qed.

Lemma cat1_ok {A} (a b : list (list A)) :
  length a = length b -> cat1 a b = Ok (zip_with app a b).
Proof. intros Hl. unfold cat1. by rewrite decide_True. Qed.

(** Appending one column to a batch. *)
Lemma zip_with_app_grows {A} b k (t next : list (list A)) :
  shape2 b k t -> shape2 b 1 next ->
  shape2 b (k + 1) (zip_with app t next) /\
  Forall2 (fun row row' => exists x, row' = row ++ [x]) t (zip_with app t next).
Proof.
  intros [Hb Hk] [Hb' Hk']. subst b. unfold shape2, rect in *.
  revert next Hb' Hk'. induction t as [|row t IH];
    intros [|nrow next] Hb' Hk'; simpl in *; try lia.
  - repeat split; constructor.
  - apply Forall_cons in Hk as [Hrow Hk]. apply Forall_cons in Hk' as [Hn Hk'].
    destruct (IH Hk next) as [[Hl Hr] H2]; [lia|done|].
    destruct nrow as [|x [|? ?]]; simpl in Hn; try lia.
    split; [split|].
    + lia.
    + constructor; [|done]. rewrite length_app. simpl. lia.
    + constructor; [by exists x|done].
Qed.

Lemma zip_with_app_in_vocab w (t next : tensor2) :
  in_vocab w t -> in_vocab w next -> in_vocab w (zip_with app t next).
Proof.
  unfold in_vocab. intros Ht. revert next.
  induction Ht as [|row t Hrow _ IH]; intros [|nrow next] Hn; simpl; try constructor.
  - inversion Hn; subst. by apply Forall_app.
  - inversion Hn; subst. by apply IH.
Qed.

Context (w_in w_out : nat) (emb_dim : Z).

(** The attributes other than the device of [pe] are the same in [m]
    and [m']. *)
Definition same_attributes (m m' : BaseModel) : Prop :=
  pe_to_device m' = pe_to_device m.

Lemma wf_model_same_attributes m m' :
  same_attributes m m' ->
  wf_model w_in w_out emb_dim m -> wf_model w_in w_out emb_dim m'.
Proof.
  intros Hsame Hwf. apply wf_model_pe_to_device in Hwf.
  rewrite <- Hsame in Hwf. destruct Hwf. by constructor.
Qed.

(** One decode step on well-formed input appends one in-vocabulary
    token to every row and calls the transformer once, on [pos]. *)
Lemma decode_step_ok b n k pos (mask : mask2) action_sel (tokens : tensor2) w :
  wf_model w_in w_out emb_dim (self w) ->
  0 < w_out -> 0 < b -> 0 < n -> 1 <= k <= 1024 ->
  shape3 b n (Z.to_nat emb_dim) pos -> shape2 b n mask ->
  shape2 b k tokens -> in_vocab w_out tokens ->
  selects w_out action_sel ->
  exists next decode w',
    decode_step pos mask action_sel tokens w = (Ok (zip_with app tokens next), w') /\
    shape2 b 1 next /\ in_vocab w_out next /\
    same_attributes (self w) (self w') /\
    calls w' = calls w ++
      [CallMoveEmbed tokens;
       CallTransformer pos decode mask
         (replicate b (replicate k false));
       CallMoveEmbed next].
Proof.
  intros Hwf Hwout Hb Hn Hk Hpos Hmask Htok Hvoc Hsel. unfold decode_step.
  destruct (_action_embed_ok w_in w_out emb_dim b k tokens w)
    as (decode & Hrun1 & Hdec); [done|lia|done|done|].
  rewrite (bind_run _ _ _ _ _ Hrun1). set (w1 := moved (with_call w _)).
  assert (wf_model w_in w_out emb_dim (self w1)) as Hwf1
    by (by apply wf_model_pe_to_device).
  assert (length decode = b /\ shape1 decode = k) as [Hdb Hdk].
  { destruct Hdec as (Hdb & Hdn & _). split; [done|].
    apply rect_shape1; [|done]. intros ->. simpl in Hdb. lia. }
  rewrite Hdb, Hdk.
  destruct (_transformer_pass_ok w_in w_out emb_dim b n k pos decode mask
              (replicate b (replicate k false)) w1)
    as (out & Hrun2 & Hout); [done|lia|lia|lia|done|done|done| |].
  { split; [by rewrite length_replicate|]. unfold rect.
    apply Forall_replicate. by rewrite length_replicate. }
  rewrite (bind_run _ _ _ _ _ Hrun2). set (w2 := with_call w1 _).
  unfold bind at 1. simpl.
  destruct (last_position_ok b k w_out (to_dist (to_dist_linear (self w)) out))
    as (logits & Hlast & Hlb & Hlr); [lia| |].
  { rewrite <- (wf_to_dist _ _ _ _ Hwf). apply to_dist_shape.
    - by rewrite (wf_to_dist _ _ _ _ Hwf), (wf_to_dist_bias _ _ _ _ Hwf).
    - destruct Hout as (? & ? & _). by split. }
  unfold bind at 1, lift at 1. rewrite Hlast.
  destruct (Hsel logits w2 Hlr) as (next & Hnext & Hns & Hnv & Hself & Hcalls).
  rewrite Hlb in Hns.
  rewrite (bind_ok _ _ _ _ Hnext). set (w3 := (action_sel logits w2).2) in *.
  unfold bind at 1, lift at 1.
  rewrite cat1_ok by (destruct Htok as [-> _], Hns as [-> _]; done).
  unfold bind at 1. rewrite move_embedding_run.
  destruct (embedding_ok (move_embed (self w3)) b 1 next)
    as (e & He & Heb & _); [done| |].
  { replace (length (move_embed (self w3))) with w_out; [done|].
    rewrite Hself. symmetry. exact (wf_move_embed _ _ _ _ Hwf). }
  rewrite He. simpl rbind. cbv iota.
  unfold bind at 1, lift at 1.
  rewrite cat1_ok by (rewrite length_map; lia).
  exists next, decode, (with_call w3 (CallMoveEmbed next)).
  split; [done|]. split; [done|]. split; [done|]. split.
  - unfold same_attributes. simpl. by rewrite Hself.
  - simpl. rewrite Hcalls. simpl. by rewrite <- !app_assoc.
Qed.

Lemma for_range_snoc n body (tokens : tensor2) (w : World) :
  for_range (S n) body tokens w
  = bind (for_range n body tokens) body w.
Proof.
  revert tokens w. induction n as [|n IH]; intros tokens w.
  - simpl. unfold bind, ret. simpl. destruct (body tokens w) as [[?|?] ?]; reflexivity.
  - change (for_range (S (S n)) body tokens)
      with (bind (body tokens) (for_range (S n) body)).
    change (for_range (S n) body tokens)
      with (bind (body tokens) (for_range n body)).
    rewrite bind_assoc. destruct (body tokens w) as [[t|e] w'] eqn:Hb.
    + rewrite !(bind_run _ _ _ _ _ Hb). apply IH.
    + by rewrite !(bind_run_raise _ _ _ _ _ Hb).
Qed.

Lemma count_transformer_app cs cs' :
  count_transformer (cs ++ cs') = count_transformer cs + count_transformer cs'.
Proof. unfold count_transformer. by rewrite filter_app, length_app. Qed.

(** The loop of [_inference]: [j] steps from a batch of [k] columns. *)
Lemma for_range_ok b n pos (mask : mask2) action_sel j :
  0 < w_out -> 0 < b -> 0 < n ->
  shape3 b n (Z.to_nat emb_dim) pos -> shape2 b n mask ->
  selects w_out action_sel ->
  forall k (tokens : tensor2) w,
    wf_model w_in w_out emb_dim (self w) ->
    1 <= k -> k + j <= 1025 ->
    shape2 b k tokens -> in_vocab w_out tokens ->
    exists tokens' w',
      for_range j (decode_step pos mask action_sel) tokens w = (Ok tokens', w') /\
      shape2 b (k + j) tokens' /\ in_vocab w_out tokens' /\
      Forall2 (fun row row' => row `prefix_of` row') tokens tokens' /\
      same_attributes (self w) (self w') /\
      count_transformer (calls w') = count_transformer (calls w) + j.
Proof.
  intros Hwout Hb Hn Hpos Hmask Hsel.
  induction j as [|j IH]; intros k tokens w Hwf Hk Hkj Htok Hvoc.
  - exists tokens, w. simpl. replace (k + 0) with k by lia.
    split; [done|]. split; [done|]. split; [done|].
    split; [|split; [done|lia]].
    apply Forall_Forall2_diag, Forall_forall. by intros.
  - simpl.
    destruct (decode_step_ok b n k pos mask action_sel tokens w)
      as (next & decode & w1 & Hrun & Hns & Hnv & Hsame & Hcalls);
      [done|done|done|done|lia|done|done|done|done|done|].
    rewrite (bind_run _ _ _ _ _ Hrun).
    destruct (zip_with_app_grows b k tokens next Htok Hns) as [Hshape Hgrow].
    destruct (IH (k + 1) (zip_with app tokens next) w1)
      as (tokens' & w' & Hrun' & Hshape' & Hvoc' & Hpre & Hsame' & Hcount);
      [by eapply wf_model_same_attributes|lia|lia|done
      |by apply zip_with_app_in_vocab|].
    exists tokens', w'. split; [done|]. split.
    { by replace (k + S j) with (k + 1 + j) by lia. }
    split; [done|]. split; [|split].
    + clear -Hgrow Hpre. revert tokens' Hpre.
      induction Hgrow as [|row row1 t t1 [x ->] _ IHg]; intros tokens' Hpre;
        inversion Hpre as [|? row' ? t' Hrow Hrest]; subst; constructor.
      * etrans; [|exact Hrow]. by apply prefix_app_r.
      * by apply IHg.
    + unfold same_attributes in *. congruence.
    + rewrite Hcount, Hcalls, count_transformer_app.
      change (count_transformer [_; _; _]) with 1. lia.
Qed.

End decoder_runs.

(* ================================================================== *)
(** * What the decoder reads and what it writes *)
(* ================================================================== *)

Section decoder_invariants.
Import model.
Context `{Torch}.

Lemma stable_modify {St} (R : St -> St -> Prop) (f : St -> St) :
  (forall s, R s (f s)) -> stable R (modify f).
Proof. intros Hf s. apply Hf. Qed.

(** A selection policy that reads and writes nothing but the random
    generator. *)
Definition generator_only (action_sel : list vec -> M tensor2) : Prop :=
  forall logits w,
    self (action_sel logits w).2 = self w /\
    calls (action_sel logits w).2 = calls w /\
    forall w', gen w' = gen w ->
      (action_sel logits w').1 = (action_sel logits w).1 /\
      gen (action_sel logits w').2 = gen (action_sel logits w).2.

Lemma max_action_sel_generator_only : generator_only max_action_sel.
Proof. intros logits w. unfold max_action_sel, lift. simpl. by repeat split. Qed.

Lemma sample_action_sel_generator_only : generator_only sample_action_sel.
Proof.
  intros logits w. unfold sample_action_sel.
  destruct (sample_rows logits (gen w)) as [next g] eqn:Hs. simpl.
  split; [done|]. split; [done|]. intros w' ->. by rewrite Hs.
Qed.

(** ** The attributes and the generator *)

(** [w'] has the attributes of [w], up to the device of [pe]. *)
Definition keeps_attributes (w w' : World) : Prop :=
  same_attributes (self w) (self w').

(** ... and the generator is untouched as well. *)
Definition keeps_attributes_gen (w w' : World) : Prop :=
  same_attributes (self w) (self w') /\ gen w' = gen w.

Global Instance keeps_attributes_refl : Reflexive keeps_attributes.
Proof. by intros w. Qed.
Global Instance keeps_attributes_trans : Transitive keeps_attributes.
Proof. unfold keeps_attributes, same_attributes. intros w1 w2 w3. congruence. Qed.
Global Instance keeps_attributes_gen_refl : Reflexive keeps_attributes_gen.
Proof. by intros w. Qed.
Global Instance keeps_attributes_gen_trans : Transitive keeps_attributes_gen.
Proof.
  unfold keeps_attributes_gen, same_attributes.
  intros w1 w2 w3 [] []. split; congruence.
Qed.

Lemma stable_migrate_pe : stable keeps_attributes_gen migrate_pe.
Proof.
  intros w. unfold migrate_pe. case_decide; simpl; [reflexivity|]. by split.
Qed.

Lemma stable_record_call c : stable keeps_attributes_gen (record_call c).
Proof. by apply stable_modify. Qed.

Lemma stable__encode_position data :
  stable keeps_attributes_gen (_encode_position data).
Proof.
  unfold _encode_position.
  apply (stable_bind keeps_attributes_gen); [apply stable_migrate_pe|intros _].
  apply (stable_bind keeps_attributes_gen); [apply (stable_gets keeps_attributes_gen)|intros pe].
  apply (stable_lift keeps_attributes_gen).
Qed.

Ltac stable_step :=
  first
    [ apply (stable_ret keeps_attributes_gen)
    | apply (stable_lift keeps_attributes_gen)
    | apply (stable_gets keeps_attributes_gen)
    | apply stable_record_call
    | apply stable__encode_position
    | apply (stable_bind keeps_attributes_gen); [|intros ?] ].

Lemma stable__state_embed state :
  stable keeps_attributes_gen (_state_embed state).
Proof. unfold _state_embed, asks. repeat stable_step. Qed.

Lemma stable_move_embedding action :
  stable keeps_attributes_gen (move_embedding action).
Proof. unfold move_embedding, asks. repeat stable_step. Qed.

Lemma stable__action_embed action :
  stable keeps_attributes_gen (_action_embed action).
Proof.
  unfold _action_embed.
  apply (stable_bind keeps_attributes_gen); [apply stable_move_embedding|intros ?].
  repeat stable_step.
Qed.

Lemma stable__transformer_pass src tgt src_mask tgt_padding :
  stable keeps_attributes_gen (_transformer_pass src tgt src_mask tgt_padding).
Proof. unfold _transformer_pass, asks. repeat stable_step. Qed.

Lemma keeps_attributes_gen_weaken {A} (m : M A) :
  stable keeps_attributes_gen m -> stable keeps_attributes m.
Proof. intros Hm w. by destruct (Hm w). Qed.

Lemma stable_decode_step pos mask action_sel tokens :
  generator_only action_sel ->
  stable keeps_attributes (decode_step pos mask action_sel tokens).
Proof.
  intros Hsel. unfold decode_step, asks.
  apply (stable_bind keeps_attributes);
    [apply keeps_attributes_gen_weaken, stable__action_embed|intros decode].
  apply (stable_bind keeps_attributes);
    [apply keeps_attributes_gen_weaken, stable__transformer_pass|intros out].
  apply (stable_bind keeps_attributes); [apply (stable_gets keeps_attributes)|intros l].
  apply (stable_bind keeps_attributes); [apply (stable_lift keeps_attributes)|intros logits].
  apply (stable_bind keeps_attributes); [|intros next].
  { intros w. unfold keeps_attributes. by destruct (Hsel logits w) as [-> _]. }
  apply (stable_bind keeps_attributes); [apply (stable_lift keeps_attributes)|intros tokens'].
  apply (stable_bind keeps_attributes);
    [apply keeps_attributes_gen_weaken, stable_move_embedding|intros embed_next].
  apply (stable_bind keeps_attributes); [apply (stable_lift keeps_attributes)|intros ?].
  apply (stable_ret keeps_attributes).
Qed.

Lemma stable_for_range {R : World -> World -> Prop}
    `{!Reflexive R, !Transitive R} n body tokens :
  (forall t, stable R (body t)) -> stable R (for_range n body tokens).
Proof.
  intros Hbody. revert tokens. induction n as [|n IH]; intros tokens; simpl.
  - apply (stable_ret R).
  - apply (stable_bind R); [apply Hbody|intros ?; apply IH].
Qed.

Lemma stable__inference state max_len action_sel :
  generator_only action_sel ->
  stable keeps_attributes (_inference state max_len action_sel).
Proof.
  intros Hsel. unfold _inference, asks.
  apply (stable_bind keeps_attributes);
    [apply keeps_attributes_gen_weaken, stable__state_embed|intros ?].
  apply (stable_bind keeps_attributes); [apply (stable_gets keeps_attributes)|intros ?].
  apply (stable_for_range (R:=keeps_attributes)). intros t. by apply stable_decode_step.
Qed.

Lemma same_attributes_parameters m m' :
  same_attributes m m' -> parameters m' = parameters m.
Proof.
  unfold same_attributes. intros Hs.
  change (parameters (pe_to_device m') = parameters (pe_to_device m)).
  by rewrite Hs.
Qed.

End decoder_invariants.

(* ================================================================== *)
(** * Which sub-modules the decoder calls, and on what *)
(* ================================================================== *)

Section decoder_calls.
Import model.
Context `{Torch}.

(** [w'] has seen the calls of [w] and then only calls that satisfy [P]. *)
Definition extends (P : Call -> Prop) (w w' : World) : Prop :=
  exists new, calls w' = calls w ++ new /\ Forall P new.

Global Instance extends_refl P : Reflexive (extends P).
Proof. intros w. exists []. by rewrite app_nil_r. Qed.

Global Instance extends_trans P : Transitive (extends P).
Proof.
  intros w1 w2 w3 (n1 & H1 & HP1) (n2 & H2 & HP2). exists (n1 ++ n2).
  split; [by rewrite H2, H1, app_assoc|by apply Forall_app].
Qed.

(** A call of a decode step: no call of the board embedding, and the
    transformer is called on the source representation [pos]. *)
Definition reuses (pos : tensor3) (c : Call) : Prop :=
  match c with
  | CallBoardEmbed _ => False
  | CallMoveEmbed _ => True
  | CallTransformer src _ _ _ => src = pos
  end.

Lemma extends_record_call P c : P c -> stable (extends P) (record_call c).
Proof. intros Hc w. exists [c]. split; [done|by constructor]. Qed.

Lemma extends_migrate_pe P : stable (extends P) migrate_pe.
Proof. intros w. unfold migrate_pe. case_decide; simpl; [reflexivity|]. by exists []; rewrite app_nil_r. Qed.

Lemma extends__encode_position P data : stable (extends P) (_encode_position data).
Proof.
  unfold _encode_position, asks.
  apply (stable_bind (extends P)); [apply extends_migrate_pe|intros _].
  apply (stable_bind (extends P)); [apply (stable_gets (extends P))|intros pe].
  apply (stable_lift (extends P)).
Qed.

Lemma extends_move_embedding pos action :
  stable (extends (reuses pos)) (move_embedding action).
Proof.
  unfold move_embedding, asks.
  apply (stable_bind (extends (reuses pos))); [by apply extends_record_call|intros _].
  apply (stable_bind (extends (reuses pos))); [apply (stable_gets (extends _))|intros ?].
  apply (stable_bind (extends (reuses pos))); [apply (stable_gets (extends _))|intros ?].
  apply (stable_bind (extends (reuses pos))); [apply (stable_lift (extends _))|intros ?].
  apply (stable_ret (extends _)).
Qed.

Lemma extends__action_embed pos action :
  stable (extends (reuses pos)) (_action_embed action).
Proof.
  unfold _action_embed.
  apply (stable_bind (extends (reuses pos))); [apply extends_move_embedding|intros ?].
  apply (stable_bind (extends (reuses pos))); [apply extends__encode_position|intros ?].
  apply (stable_ret (extends _)).
Qed.

Lemma extends__transformer_pass pos tgt src_mask tgt_padding :
  stable (extends (reuses pos)) (_transformer_pass pos tgt src_mask tgt_padding).
Proof.
  unfold _transformer_pass, asks.
  apply (stable_bind (extends (reuses pos))); [by apply extends_record_call|intros _].
  apply (stable_bind (extends (reuses pos))); [apply (stable_gets (extends _))|intros ?].
  apply (stable_bind (extends (reuses pos))); [apply (stable_lift (extends _))|intros ?].
  apply (stable_ret (extends _)).
Qed.

Lemma extends_decode_step pos mask action_sel tokens :
  generator_only action_sel ->
  stable (extends (reuses pos)) (decode_step pos mask action_sel tokens).
Proof.
  intros Hsel. unfold decode_step, asks.
  apply (stable_bind (extends (reuses pos))); [apply extends__action_embed|intros decode].
  apply (stable_bind (extends (reuses pos))); [apply extends__transformer_pass|intros out].
  apply (stable_bind (extends (reuses pos))); [apply (stable_gets (extends _))|intros l].
  apply (stable_bind (extends (reuses pos))); [apply (stable_lift (extends _))|intros logits].
  apply (stable_bind (extends (reuses pos))); [|intros next].
  { intros w. exists []. rewrite app_nil_r. by destruct (Hsel logits w) as (_ & -> & _). }
  apply (stable_bind (extends (reuses pos))); [apply (stable_lift (extends _))|intros tokens'].
  apply (stable_bind (extends (reuses pos))); [apply extends_move_embedding|intros ?].
  apply (stable_bind (extends (reuses pos))); [apply (stable_lift (extends _))|intros ?].
  apply (stable_ret (extends _)).
Qed.

(** The calls of one run of [_inference]: the board embedding once, on
    the masked state, and then only decode steps on its result. *)
Lemma _inference_calls state max_len action_sel w :
  generator_only action_sel ->
  exists new,
    calls (_inference state max_len action_sel w).2 =
      calls w ++
      CallBoardEmbed (not_mask_mul (get_mask state (-1)) state) :: new /\
    match (_state_embed (not_mask_mul (get_mask state (-1)) state) w).1 with
    | Ok pos => Forall (reuses pos) new
    | Raise _ => new = []
    end.
Proof.
  intros Hsel. unfold _inference.
  set (s' := not_mask_mul (get_mask state (-1)) state).
  pose proof (_state_embed_run s' w) as Hrun.
  destruct (embedding (board_embed (self w)) s') as [embed|e].
  2:{ rewrite (bind_run_raise _ _ _ _ _ Hrun), Hrun. simpl. by exists []. }
  destruct (add_positions _ _) as [pos|e].
  2:{ rewrite (bind_run_raise _ _ _ _ _ Hrun), Hrun. simpl. by exists []. }
  rewrite (bind_run _ _ _ _ _ Hrun), Hrun. simpl fst. cbv iota.
  unfold bind at 1, asks, gets. cbv iota.
  set (w1 := moved (with_call w (CallBoardEmbed s'))).
  destruct (stable_for_range (R:=extends (reuses pos)) (Z.to_nat max_len)
              (decode_step pos (get_mask state (-1)) action_sel)
              (replicate (length state) [start_token (self w1)])
              (fun t => extends_decode_step pos _ action_sel t Hsel) w1)
    as (new & Hnew & HP).
  exists new. split; [|done]. rewrite Hnew. simpl. by rewrite <- app_assoc.
Qed.

End decoder_calls.

(* ================================================================== *)
(** * What the result of the decoder depends on *)
(* ================================================================== *)

Section decoder_agreement.
Import model.
Context `{Torch}.

(** Two worlds whose models have the attributes of [m0]; with
    [with_gen], their generators are in the same state as well. *)
Definition related (m0 : BaseModel) (with_gen : bool) (w1 w2 : World) : Prop :=
  pe_to_device (self w1) = m0 /\ pe_to_device (self w2) = m0 /\
  (with_gen = true -> gen w1 = gen w2).

Context (m0 : BaseModel) (with_gen : bool).
Local Abbreviation Rel := (related m0 with_gen).

Lemma agree_asks {A} (f : BaseModel -> A) :
  (forall m, f (pe_to_device m) = f m) -> agree Rel (asks f) (asks f).
Proof.
  intros Hf w1 w2 (H1 & H2 & Hg). split; [|done]. simpl.
  by rewrite <- (Hf (self w1)), <- (Hf (self w2)), H1, H2.
Qed.

Lemma agree_record_call c c' : agree Rel (record_call c) (record_call c').
Proof. by intros w1 w2 (H1 & H2 & Hg). Qed.

Lemma agree_migrate_pe : agree Rel migrate_pe migrate_pe.
Proof.
  intros w1 w2 (H1 & H2 & Hg). rewrite !migrate_pe_run. simpl.
  split; [done|]. split; [|split]; [by rewrite <- H1|by rewrite <- H2|done].
Qed.

Ltac agree_step :=
  first
    [ apply agree_ret
    | apply agree_lift
    | apply agree_asks; reflexivity
    | apply agree_record_call
    | apply agree_migrate_pe
    | apply agree_bind; [|intros ?] ].

Lemma agree__encode_position data :
  agree Rel (_encode_position data) (_encode_position data).
Proof. unfold _encode_position. repeat agree_step. Qed.

Lemma agree__state_embed state :
  agree Rel (_state_embed state) (_state_embed state).
Proof.
  unfold _state_embed.
  do 4 (agree_step; [agree_step|]).
  agree_step; [apply agree__encode_position|]. agree_step.
Qed.

Lemma agree_move_embedding action :
  agree Rel (move_embedding action) (move_embedding action).
Proof. unfold move_embedding. repeat agree_step. Qed.

Lemma agree__action_embed action :
  agree Rel (_action_embed action) (_action_embed action).
Proof.
  unfold _action_embed.
  agree_step; [apply agree_move_embedding|].
  agree_step; [apply agree__encode_position|]. agree_step.
Qed.

Lemma agree__transformer_pass src tgt src_mask tgt_padding :
  agree Rel (_transformer_pass src tgt src_mask tgt_padding)
          (_transformer_pass src tgt src_mask tgt_padding).
Proof. unfold _transformer_pass. repeat agree_step. Qed.

Lemma agree_decode_step pos mask action_sel tokens :
  (forall logits, agree Rel (action_sel logits) (action_sel logits)) ->
  agree Rel (decode_step pos mask action_sel tokens)
          (decode_step pos mask action_sel tokens).
Proof.
  intros Hsel. unfold decode_step.
  agree_step; [apply agree__action_embed|].
  agree_step; [apply agree__transformer_pass|].
  agree_step; [agree_step|]. agree_step; [agree_step|].
  agree_step; [apply Hsel|]. agree_step; [agree_step|].
  agree_step; [apply agree_move_embedding|].
  agree_step; [agree_step|]. agree_step.
Qed.

Lemma agree_for_range n body1 body2 tokens :
  (forall t, agree Rel (body1 t) (body2 t)) ->
  agree Rel (for_range n body1 tokens) (for_range n body2 tokens).
Proof.
  intros Hbody. revert tokens. induction n as [|n IH]; intros tokens; simpl.
  - apply agree_ret.
  - apply agree_bind; [apply Hbody|intros t; apply IH].
Qed.

Lemma agree__inference state max_len action_sel :
  (forall logits, agree Rel (action_sel logits) (action_sel logits)) ->
  agree Rel (_inference state max_len action_sel)
          (_inference state max_len action_sel).
Proof.
  intros Hsel. unfold _inference.
  agree_step; [apply agree__state_embed|]. agree_step; [agree_step|].
  apply agree_for_range. intros t. by apply agree_decode_step.
Qed.

End decoder_agreement.

Section decoder_reencode.
Import model.
Context `{Torch}.

Lemma generator_only_agree m0 action_sel logits :
  generator_only action_sel ->
  agree (related m0 true) (action_sel logits) (action_sel logits).
Proof.
  intros Hsel w1 w2 (H1 & H2 & Hg).
  destruct (Hsel logits w1) as (Hs1 & _ & _).
  destruct (Hsel logits w2) as (Hs2 & _ & Hv).
  destruct (Hv w1 (Hg eq_refl)) as [Hval Hgen].
  split; [done|]. split; [|split]; [by rewrite Hs1|by rewrite Hs2|done].
Qed.

(** Encoding the source again at a decode step gives what was encoded
    before the loop, whatever the steps in between have done. *)
Lemma _state_embed_again m0 state pos w :
  pe_to_device (self w) = m0 ->
  (_state_embed state w).1 = Ok pos ->
  agree (related m0 true) (ret pos) (_state_embed state).
Proof.
  intros Hw Hpos w1 w2 (H1 & H2 & Hg). simpl.
  destruct (agree__state_embed m0 false state w w2) as [Hval _]; [by split|].
  destruct (stable__state_embed state w2) as [Hsame Hgen].
  split; [congruence|]. split; [done|]. split.
  - unfold same_attributes in Hsame. congruence.
  - intros _. by rewrite Hgen, <- Hg.
Qed.

(** [_inference] and the formulation that encodes the source at every
    step return the same, provided the one encoding returns. *)
Lemma _inference_reencode_eq state max_len action_sel pos w :
  generator_only action_sel ->
  (_state_embed (not_mask_mul (get_mask state (-1)) state) w).1 = Ok pos ->
  (_inference_reencode state max_len action_sel w).1 =
  (_inference state max_len action_sel w).1.
Proof.
  intros Hsel Hpos. unfold _inference, _inference_reencode.
  set (s' := not_mask_mul (get_mask state (-1)) state) in *.
  set (m0 := pe_to_device (self w)).
  rewrite (bind_ok _ _ _ _ Hpos).
  set (w1 := (_state_embed s' w).2).
  assert (related m0 true w1 w) as Hrel.
  { destruct (stable__state_embed s' w) as [Hsame Hgen]. by split. }
  symmetry. revert Hrel. generalize w1. intros w1' Hrel.
  eapply (agree_bind (related m0 true)); [|intros start|exact Hrel].
  { apply agree_asks. reflexivity. }
  apply agree_for_range. intros t.
  change (decode_step pos (get_mask state (-1)) action_sel t)
    with (bind (ret pos)
            (fun pos' => decode_step pos' (get_mask state (-1)) action_sel t)).
  apply agree_bind; [by eapply _state_embed_again|intros pos'].
  apply agree_decode_step. intros logits. by apply generator_only_agree.
Qed.

End decoder_reencode.

Section decoder_encode_once.
Import model.
Context `{TorchLaws}.

(** A pass through the whole transformer returns what its decoder
    returns on the encoded source. *)
Lemma agree__decoder_pass m0 pos memory decode (mask tgt_padding : mask2) :
  transformer_encoder (transformer m0) pos mask = Ok memory ->
  agree (related m0 true)
    (_transformer_pass pos decode mask tgt_padding)
    (_decoder_pass pos decode memory tgt_padding).
Proof.
  intros Hmem w1 w2 (H1 & H2 & Hg).
  rewrite _transformer_pass_run. unfold _decoder_pass, bind, asks, gets, lift.
  simpl. replace (transformer (self w1)) with (transformer m0) by (by rewrite <- H1).
  replace (transformer (self w2)) with (transformer m0) by (by rewrite <- H2).
  rewrite transformer_forward_split, Hmem. simpl.
  by destruct (transformer_check _ pos decode) as [[]|e].
Qed.

Lemma agree_decode_step_memory m0 pos memory mask action_sel tokens :
  transformer_encoder (transformer m0) pos mask = Ok memory ->
  generator_only action_sel ->
  agree (related m0 true)
    (decode_step pos mask action_sel tokens)
    (decode_step_memory pos memory action_sel tokens).
Proof.
  intros Hmem Hsel. unfold decode_step, decode_step_memory.
  apply agree_bind; [apply agree__action_embed|intros decode].
  apply agree_bind; [by apply agree__decoder_pass|intros out].
  apply agree_bind; [by apply agree_asks|intros l].
  apply agree_bind; [apply agree_lift|intros logits].
  apply agree_bind; [by apply generator_only_agree|intros next].
  apply agree_bind; [apply agree_lift|intros tokens'].
  apply agree_bind; [apply agree_move_embedding|intros embed_next].
  apply agree_bind; [apply agree_lift|intros ?]. apply agree_ret.
Qed.

(** [_inference] returns what the formulation with one run of the
    encoder returns, provided the encoding returns. *)
Lemma _inference_encode_once_eq state max_len action_sel pos memory w :
  generator_only action_sel ->
  (_state_embed (not_mask_mul (get_mask state (-1)) state) w).1 = Ok pos ->
  transformer_encoder (transformer (self w)) pos (get_mask state (-1)) = Ok memory ->
  (_inference_encode_once state max_len action_sel w).1 =
  (_inference state max_len action_sel w).1.
Proof.
  intros Hsel Hpos Hmem. unfold _inference, _inference_encode_once.
  set (s' := not_mask_mul (get_mask state (-1)) state) in *.
  rewrite !(bind_ok _ _ _ _ Hpos). set (w1 := (_state_embed s' w).2).
  assert (pe_to_device (self w1) = pe_to_device (self w)) as Hsame
    by (by destruct (stable__state_embed s' w)).
  assert (transformer (self w1) = transformer (self w)) as Htr
    by (exact (f_equal transformer Hsame)).
  rewrite (bind_run (asks transformer) _ w1 (transformer (self w1)) w1)
    by reflexivity.
  rewrite Htr.
  rewrite (bind_run
             (lift (transformer_encoder (transformer (self w)) pos
                      (get_mask state (-1)))) _ w1 memory w1)
    by (unfold lift; by rewrite Hmem).
  symmetry.
  eapply (agree_bind (related (pe_to_device (self w)) true));
    [by apply agree_asks|intros start|by split].
  apply agree_for_range. intros t.
  by apply agree_decode_step_memory.
Qed.

End decoder_encode_once.

Section inference_runs.
Import model.
Context `{TorchLaws}.
Context (w_in w_out : nat) (emb_dim : Z).

Lemma start_tokens_shape b (start : Z) :
  (0 <= start < Z.of_nat w_out)%Z ->
  shape2 b 1 (replicate b [start]) /\ in_vocab w_out (replicate b [start]).
Proof.
  intros Hs. split; [split|].
  - by rewrite length_replicate.
  - by apply Forall_replicate.
  - apply Forall_replicate. by constructor.
Qed.

Lemma prefix_of_start_tokens b (start : Z) (tokens : tensor2) :
  Forall2 (fun row row' => row `prefix_of` row') (replicate b [start]) tokens ->
  Forall (fun row => head row = Some start) tokens.
Proof.
  revert tokens. induction b as [|b IH]; intros tokens Hpre; simpl in Hpre;
    inversion Hpre as [|? row ? t [rest ->] Hrest]; subst; constructor.
  - done.
  - by apply IH.
Qed.

(** [_inference] on a non-empty batch of well-formed states, for at most
    as many steps as the positional table has rows. *)
Lemma _inference_ok b n state max_len action_sel w :
  wf_model w_in w_out emb_dim (self w) ->
  0 < w_in -> 0 < w_out -> 0 < b -> 1 <= n <= 1024 ->
  shape2 b n state -> in_vocab_or_padding w_in state ->
  (0 <= start_token (self w) < Z.of_nat w_out)%Z ->
  (0 <= max_len <= 1024)%Z ->
  selects w_out action_sel ->
  exists pos tokens w1 w',
    _state_embed (not_mask_mul (get_mask state (-1)) state) w = (Ok pos, w1) /\
    shape3 b n (Z.to_nat emb_dim) pos /\
    wf_model w_in w_out emb_dim (self w1) /\
    start_token (self w1) = start_token (self w) /\
    for_range (Z.to_nat max_len)
      (decode_step pos (get_mask state (-1)) action_sel)
      (replicate b [start_token (self w)]) w1 = (Ok tokens, w') /\
    _inference state max_len action_sel w = (Ok tokens, w') /\
    shape2 b (Z.to_nat max_len + 1) tokens /\ in_vocab w_out tokens /\
    Forall (fun row => head row = Some (start_token (self w))) tokens /\
    same_attributes (self w) (self w') /\
    count_transformer (calls w') = count_transformer (calls w) + Z.to_nat max_len.
Proof.
  intros Hwf Hwin Hwout Hb Hn Hs Hv Hstart Hmax Hsel. unfold _inference.
  destruct (_state_embed_ok w_in w_out emb_dim b n
              (not_mask_mul (get_mask state (-1)) state) w)
    as (pos & Hrun & Hpos);
    [done|lia|by apply not_mask_mul_shape|by apply not_mask_mul_in_vocab|].
  rewrite (bind_run _ _ _ _ _ Hrun). set (w1 := moved (with_call w _)) in *.
  assert (wf_model w_in w_out emb_dim (self w1)) as Hwf1
    by (by apply wf_model_pe_to_device).
  unfold bind at 1, asks, gets. cbv iota.
  change (start_token (self w1)) with (start_token (self w)).
  destruct (start_tokens_shape b (start_token (self w)) Hstart) as [Hts Htv].
  destruct Hs as [Hsb Hsn]. rewrite Hsb.
  destruct (for_range_ok w_in w_out emb_dim b n pos (get_mask state (-1))
              action_sel (Z.to_nat max_len) Hwout Hb ltac:(lia) Hpos
              (get_mask_shape b n state (-1) (conj Hsb Hsn)) Hsel
              1 (replicate b [start_token (self w)]) w1)
    as (tokens & w' & Hloop & Hshape & Hvoc & Hpre & Hsame & Hcount);
    [done|lia|lia|done|done|].
  exists pos, tokens, w1, w'.
  split; [done|]. split; [done|]. split; [done|]. split; [done|].
  split; [done|]. split; [done|]. split.
  { by replace (Z.to_nat max_len + 1) with (1 + Z.to_nat max_len) by lia. }
  split; [done|]. split; [by eapply prefix_of_start_tokens|]. split.
  - unfold same_attributes in *. rewrite Hsame. done.
  - rewrite Hcount. unfold w1, moved, with_call. simpl.
    rewrite count_transformer_app. change (count_transformer [_]) with 0. lia.
Qed.

(** One more step appends one token to every row of the output. *)
Lemma _inference_grows b n state j action_sel w :
  wf_model w_in w_out emb_dim (self w) ->
  0 < w_in -> 0 < w_out -> 0 < b -> 1 <= n <= 1024 ->
  shape2 b n state -> in_vocab_or_padding w_in state ->
  (0 <= start_token (self w) < Z.of_nat w_out)%Z ->
  (0 <= j < 1024)%Z ->
  selects w_out action_sel ->
  exists tokens tokens',
    (_inference state j action_sel w).1 = Ok tokens /\
    (_inference state (j + 1) action_sel w).1 = Ok tokens' /\
    Forall2 (fun row row' => exists x, row' = row ++ [x]) tokens tokens'.
Proof.
  intros Hwf Hwin Hwout Hb Hn Hs Hv Hstart Hj Hsel.
  destruct (_inference_ok b n state j action_sel w)
    as (pos & tokens & w1 & w' & Hrun & Hpos & Hwf1 & Hst & Hloop & Hinf & Hshape
        & Hvoc & _ & Hsame & _); [done|done|done|done|done|done|done|done|lia|done|].
  exists tokens. unfold _inference at 2.
  rewrite (bind_run _ _ _ _ _ Hrun). unfold bind at 1, asks, gets. cbv iota.
  rewrite Hst. destruct Hs as [Hsb Hsn]. rewrite Hsb.
  replace (Z.to_nat (j + 1)) with (S (Z.to_nat j)) by lia.
  rewrite for_range_snoc, (bind_run _ _ _ _ _ Hloop).
  destruct (decode_step_ok w_in w_out emb_dim b n (Z.to_nat j + 1) pos
              (get_mask state (-1)) action_sel tokens w')
    as (next & decode & w'' & Hstep & Hns & _);
    [by eapply wf_model_same_attributes|done|done|lia|lia|done
    |by apply get_mask_shape|done|done|done|].
  exists (zip_with app tokens next). rewrite Hinf, Hstep. simpl.
  split; [done|]. split; [done|].
  by apply (zip_with_app_grows b (Z.to_nat j + 1)).
Qed.

End inference_runs.

(* ================================================================== *)
(** * A small concrete model *)
(* ================================================================== *)

(** A transformer that passes the target through, and a sampler that
    always draws the first category. *)
Definition example_torch : Torch := {|
  TransformerParams := unit;
  d_model := fun _ => 2;
  transformer_forward := fun _ src tgt _ _ _ =>
    rbind (transformer_check 2 src tgt) (fun _ => Ok tgt);
  transformer_encoder := fun _ src _ => Ok src;
  transformer_decoder := fun _ tgt _ _ _ => Ok tgt;
  Generator := unit;
  Categorical_sample := fun _ g => (0%Z, g)
|}.

Lemma example_torch_laws : @TorchLaws example_torch.
Proof.
  split.
  - done.
  - intros theta src tgt tgt_mask src_mask tgt_padding n_src n_tgt.
    intros Hb _ _ _ _ Htgt Hsrc Hdst. intros. exists tgt. simpl.
    rewrite (transformer_check_ok 2 src tgt) by done. by repeat split.
  - intros logits g Hne. simpl. destruct logits; [done|]. simpl. lia.
Qed.

Definition example_pe : list vec :=
  match model.positionalencoding1d 2 1024 with
  | Ok pe => pe
  | Raise _ => []
  end.

(** Two board tokens, two move tokens, working dimension 2. *)
Definition example_model : @model.BaseModel example_torch :=
  @model.mkBaseModel example_torch cpu
    (replicate 2 (replicate 8 0%R))
    (replicate 2 (replicate 8 0%R))
    example_pe cuda tt
    (mkLinear (replicate 2 (replicate 8 0%R)) (replicate 2 0%R))
    (mkLinear (replicate 2 (replicate 8 0%R)) (replicate 2 0%R))
    (mkLinear (replicate 2 (replicate 2 0%R)) (replicate 2 0%R))
    0.

Definition example_world : @model.World example_torch :=
  @model.mkWorld example_torch example_model tt [].

Lemma example_pe_ok : model.positionalencoding1d 2 1024 = Ok example_pe.
Proof.
  destruct (positionalencoding1d_ok 2 1024) as (pe & Hpe & _); [lia|done|lia|].
  unfold example_pe. by rewrite Hpe.
Qed.

Lemma example_model_wf : @model.wf_model example_torch 2 2 2 example_model.
Proof. split; first [apply example_pe_ok|reflexivity]. Qed.

Lemma example_state_shape :
  shape2 1 3 [[1; 0; -1]]%Z /\ in_vocab_or_padding 2 [[1; 0; -1]]%Z.
Proof.
  split; [split; [done|by repeat constructor]|].
  repeat constructor; lia.
Qed.

Lemma example_action_shape :
  shape2 1 2 [[0; 1]]%Z /\ in_vocab_or_padding 2 [[0; 1]]%Z.
Proof.
  split; [split; [done|by repeat constructor]|].
  repeat constructor; lia.
Qed.

(* ================================================================== *)
(** * The decoder beyond the positional table *)
(* ================================================================== *)

Section decoder_too_long.
Import model.
Context `{TorchLaws}.
Context (w_in w_out : nat) (emb_dim : Z).

(** A decode step on sequences longer than the positional table raises
    when it adds the positions. *)
Lemma decode_step_too_long b k pos (mask : mask2) action_sel (tokens : tensor2) w :
  wf_model w_in w_out emb_dim (self w) ->
  0 < b -> 1024 < k -> shape2 b k tokens -> in_vocab w_out tokens ->
  (decode_step pos mask action_sel tokens w).1 = Raise RuntimeError.
Proof.
  intros Hwf Hb Hk Htok Hvoc. unfold decode_step.
  assert ((_action_embed tokens w).1 = Raise RuntimeError) as Hraise.
  { rewrite _action_embed_run.
    destruct (embedding_ok (move_embed (self w)) b k tokens) as (e & -> & Heb & Hek);
      [done|by rewrite (wf_move_embed _ _ _ _ Hwf)|].
    destruct e as [|row e]; [simpl in Heb; lia|]. simpl map.
    rewrite add_positions_too_long; [done|].
    apply Forall_cons in Hek as [Hrow _]. rewrite length_map, Hrow.
    destruct (wf_pe_shape w_in w_out emb_dim _ Hwf) as [-> _]. lia. }
  by rewrite (bind_raise _ _ _ _ Hraise).
Qed.

(** With one step more than the positional table has rows, the last
    step of [_inference] raises. *)
Lemma _inference_too_long b n state action_sel w :
  wf_model w_in w_out emb_dim (self w) ->
  0 < w_in -> 0 < w_out -> 0 < b -> 1 <= n <= 1024 ->
  shape2 b n state -> in_vocab_or_padding w_in state ->
  (0 <= start_token (self w) < Z.of_nat w_out)%Z ->
  selects w_out action_sel ->
  (_inference state 1025 action_sel w).1 = Raise RuntimeError.
Proof.
  intros Hwf Hwin Hwout Hb Hn Hs Hv Hstart Hsel.
  destruct (_inference_ok w_in w_out emb_dim b n state 1024 action_sel w)
    as (pos & tokens & w1 & w' & Hrun & Hpos & Hwf1 & Hst & Hloop & _ & Hshape
        & Hvoc & _ & Hsame & _); [done|done|done|done|done|done|done|done|lia|done|].
  unfold _inference.
  rewrite (bind_run _ _ _ _ _ Hrun). unfold bind at 1, asks, gets. cbv iota.
  rewrite Hst. destruct Hs as [Hsb Hsn]. rewrite Hsb.
  replace (Z.to_nat 1025) with (S (Z.to_nat 1024)) by lia.
  rewrite for_range_snoc, (bind_run _ _ _ _ _ Hloop).
  apply (decode_step_too_long b (Z.to_nat 1024 + 1)); try done; [|lia].
  by eapply wf_model_same_attributes.
Qed.

End decoder_too_long.

(* ================================================================== *)
(** * Loops that always return *)
(* ================================================================== *)

Section loop_facts.
Context {St : Type}.

(** The computation returns from every state. *)
Definition returns {A} (m : SE St A) : Prop :=
  forall s, exists a, (m s).1 = Ok a.

Lemma returns_ret {A} (a : A) : returns (ret a).
Proof. intros s. by exists a. Qed.

Lemma returns_gets {A} (f : St -> A) : returns (gets f).
Proof. intros s. eexists. reflexivity. Qed.

Lemma returns_modify (f : St -> St) : returns (modify f).
Proof. intros s. by exists tt. Qed.

Lemma returns_bind {A B} (m : SE St A) (k : A -> SE St B) :
  returns m -> (forall a, returns (k a)) -> returns (bind m k).
Proof.
  intros Hm Hk s. destruct (Hm s) as [a Ha].
  rewrite (bind_ok _ _ _ _ Ha). apply Hk.
Qed.

Lemma returns_for_enumerate {A} i (l : list A) (body : nat -> A -> SE St unit) :
  (forall j x, returns (body j x)) -> returns (for_enumerate i l body).
Proof.
  intros Hbody. revert i. induction l as [|x l IH]; intros i; simpl.
  - apply returns_ret.
  - apply returns_bind; [apply Hbody|intros _; apply IH].
Qed.

Lemma returns_unit (m : SE St unit) s : returns m -> m s = (Ok tt, (m s).2).
Proof. intros Hm. destruct (Hm s) as [[] Ha]. by destruct (m s); simpl in *; subst. Qed.

Lemma for_enumerate_app {A} i (l l' : list A) (body : nat -> A -> SE St unit) s :
  for_enumerate i (l ++ l') body s
  = bind (for_enumerate i l body)
      (fun _ => for_enumerate (i + length l) l' body) s.
Proof.
  revert i s. induction l as [|x l IH]; intros i s; simpl.
  - unfold bind, ret. simpl. by replace (i + 0) with i by lia.
  - rewrite bind_assoc. destruct (body i x s) as [[[]|e] s'] eqn:Hb.
    + rewrite !(bind_run _ _ _ _ _ Hb), IH.
      by replace (S i + length l) with (i + S (length l)) by lia.
    + by rewrite !(bind_run_raise _ _ _ _ _ Hb).
Qed.

(** One more iteration of a [for ... in range] loop. *)
Lemma for_in_range_S n (body : nat -> SE St unit) s :
  for_in_range (S n) body s = bind (for_in_range n body) (fun _ => body n) s.
Proof.
  unfold for_in_range. rewrite seq_S, for_enumerate_app. simpl.
  unfold bind. destruct (for_enumerate 0 (seq 0 n) _ s) as [[[]|e] s']; [|done].
  unfold ret. by destruct (body n s') as [[[]|e] s''].
Qed.

Lemma returns_for_in_range n (body : nat -> SE St unit) :
  (forall i, returns (body i)) -> returns (for_in_range n body).
Proof. intros Hbody. apply returns_for_enumerate. intros _ i. apply Hbody. Qed.

Lemma stable_for_in_range (R : St -> St -> Prop)
    `{!Reflexive R, !Transitive R} n (body : nat -> SE St unit) :
  (forall i, stable R (body i)) -> stable R (for_in_range n body).
Proof. intros Hbody. apply (stable_for_enumerate R). intros _ i. apply Hbody. Qed.

End loop_facts.

(* ================================================================== *)
(** * The files of a training run *)
(* ================================================================== *)

Section train_files.
Import train.
Context `{Trainer}.

(** What the file at [path] holds; a missing file holds nothing. *)
Definition content (path : string) (s : State) : list Entry :=
  default [] (fs s !! path).

(** The file at [path] was only appended to, and only log records. *)
Definition grows (path : string) (s s' : State) : Prop :=
  exists recs, content path s' = content path s ++ (Line <$> recs).

(** No file outside [W] was written. *)
Definition untouched (W : string -> Prop) (s s' : State) : Prop :=
  forall path, ~ W path -> fs s' !! path = fs s !! path.

Global Instance grows_refl path : Reflexive (grows path).
Proof. intros s. exists []. by rewrite app_nil_r. Qed.

Global Instance grows_trans path : Transitive (grows path).
Proof.
  intros s1 s2 s3 [r1 H1] [r2 H2]. exists (r1 ++ r2).
  by rewrite H2, H1, fmap_app, app_assoc.
Qed.

Global Instance untouched_refl W : Reflexive (untouched W).
Proof. by intros s path. Qed.

Global Instance untouched_trans W : Transitive (untouched W).
Proof. intros s1 s2 s3 H1 H2 path Hp. by rewrite H2, H1. Qed.

Lemma string_length_app (s t : string) :
  String.length (s +:+ t) = String.length s + String.length t.
Proof. induction s as [|a s IH]; simpl; [done|by rewrite IH]. Qed.

Lemma string_app_inj_r (s1 s2 t : string) : s1 +:+ t = s2 +:+ t -> s1 = s2.
Proof.
  revert s2. induction s1 as [|a s1 IH]; intros [|a' s2] Heq; simpl in *.
  - done.
  - apply (f_equal String.length) in Heq.
    rewrite !string_length_app in Heq. simpl in Heq. lia.
  - apply (f_equal String.length) in Heq.
    rewrite !string_length_app in Heq. simpl in Heq. lia.
  - injection Heq as -> Heq. f_equal. by apply IH.
Qed.

Lemma model_path_inj e e' : model_path e = model_path e' -> e = e'.
Proof.
  unfold model_path. intros Heq. apply (inj (String.append "model_")) in Heq.
  apply string_app_inj_r in Heq. by apply (inj pretty) in Heq.
Qed.

Lemma model_path_not_opt_path e : model_path e <> opt_path.
Proof. done. Qed.

Lemma model_paths_NoDup n : NoDup (opt_path :: (model_path <$> seq 0 n)).
Proof.
  constructor.
  - intros Hin. apply list_elem_of_fmap in Hin as (e & Heq & _).
    by apply (model_path_not_opt_path e).
  - apply NoDup_fmap_2; [|apply NoDup_seq]. intros e e'. apply model_path_inj.
Qed.

End train_files.

Section train_runs.
Import train.
Context `{Trainer}.

Lemma grows_same_fs path s s' : fs s' = fs s -> grows path s s'.
Proof. intros Hfs. exists []. unfold content. by rewrite Hfs, app_nil_r. Qed.

Lemma untouched_same_fs W s s' : fs s' = fs s -> untouched W s s'.
Proof. intros Hfs path _. by rewrite Hfs. Qed.

Lemma grows_write log_file r : stable (grows log_file) (write log_file r).
Proof.
  intros s. exists [r]. unfold content, write, modify, set_fs. simpl.
  by rewrite lookup_insert_eq.
Qed.

Lemma grows_torch_save log_file e path :
  path <> log_file -> stable (grows log_file) (torch_save e path).
Proof.
  intros Hne s. exists []. unfold content, torch_save, modify, set_fs. simpl.
  by rewrite lookup_insert_ne, app_nil_r.
Qed.

Lemma untouched_write (W : string -> Prop) log_file r :
  W log_file -> stable (untouched W) (write log_file r).
Proof.
  intros HW s path Hpath. unfold write, modify, set_fs. simpl.
  apply lookup_insert_ne. by intros ->.
Qed.

Lemma untouched_torch_save (W : string -> Prop) e path :
  W path -> stable (untouched W) (torch_save e path).
Proof.
  intros HW s p Hp. unfold torch_save, modify, set_fs. simpl.
  apply lookup_insert_ne. by intros ->.
Qed.

Lemma train_on_fs b s : fs (train_on b s).2 = fs s.
Proof. unfold train_on. by destruct (train_step _ _ _) as [[p o] loss]. Qed.

Lemma returns_train_on b : returns (train_on b).
Proof.
  intros s. unfold train_on. destruct (train_step _ _ _) as [[p o] loss].
  by eexists.
Qed.

Lemma returns_time : returns time.
Proof. intros s. by eexists. Qed.

Lemma returns_batch_body log_file epoch i b :
  returns (batch_body log_file epoch i b).
Proof.
  unfold batch_body.
  apply returns_bind; [apply returns_train_on|intros loss].
  apply returns_bind; [apply returns_time|intros t].
  apply returns_modify.
Qed.

(** A relation on the files that holds whenever the files are the same. *)
Definition on_files (R : State -> State -> Prop) : Prop :=
  forall s s', fs s' = fs s -> R s s'.

Lemma stable_batch_body (R : State -> State -> Prop)
    `{!Reflexive R, !Transitive R} log_file epoch i b :
  on_files R ->
  (forall r, stable R (write log_file r)) ->
  stable R (batch_body log_file epoch i b).
Proof.
  intros Hfiles Hwrite. unfold batch_body.
  apply (stable_bind R); [intros s; apply Hfiles, train_on_fs|intros loss].
  apply (stable_bind R); [by intros s; apply Hfiles|intros t].
  apply Hwrite.
Qed.

Lemma stable_epoch_body (R : State -> State -> Prop)
    `{!Reflexive R, !Transitive R} dataloader log_file epoch :
  on_files R ->
  (forall r, stable R (write log_file r)) ->
  (forall e, stable R (torch_save e (model_path epoch))) ->
  (forall e, stable R (torch_save e opt_path)) ->
  stable R (epoch_body dataloader log_file epoch).
Proof.
  intros Hfiles Hwrite Hmodel Hopt. unfold epoch_body.
  apply (stable_bind R); [apply (stable_gets R)|intros [acc loss]].
  apply (stable_bind R); [by intros s; apply Hfiles|intros t].
  apply (stable_bind R); [apply Hwrite|intros _].
  apply (stable_bind R); [|intros _].
  { apply (stable_for_enumerate R). intros i b. by apply stable_batch_body. }
  apply (stable_bind R); [apply (stable_gets R)|intros m].
  apply (stable_bind R); [apply Hmodel|intros _].
  apply (stable_bind R); [apply (stable_gets R)|intros o].
  apply Hopt.
Qed.

Lemma grows_epoch_body dataloader log_file epoch :
  log_file <> opt_path -> log_file <> model_path epoch ->
  stable (grows log_file) (epoch_body dataloader log_file epoch).
Proof.
  intros Ho Hm. apply (stable_epoch_body (grows log_file)).
  - intros s s'. apply grows_same_fs.
  - apply grows_write.
  - intros e. by apply grows_torch_save.
  - intros e. by apply grows_torch_save.
Qed.

Lemma untouched_epoch_body (W : string -> Prop) dataloader log_file epoch :
  W log_file -> W opt_path -> W (model_path epoch) ->
  stable (untouched W) (epoch_body dataloader log_file epoch).
Proof.
  intros Hl Ho Hm. apply (stable_epoch_body (untouched W)).
  - intros s s'. apply untouched_same_fs.
  - intros r. by apply untouched_write.
  - intros e. by apply untouched_torch_save.
  - intros e. by apply untouched_torch_save.
Qed.

Lemma returns_epoch_body dataloader log_file epoch :
  returns (epoch_body dataloader log_file epoch).
Proof.
  unfold epoch_body.
  apply returns_bind; [apply returns_gets|intros [acc loss]].
  apply returns_bind; [apply returns_time|intros t].
  apply returns_bind; [apply returns_modify|intros _].
  apply returns_bind;
    [apply returns_for_enumerate; intros; apply returns_batch_body|intros _].
  apply returns_bind; [apply returns_gets|intros m].
  apply returns_bind; [apply returns_modify|intros _].
  apply returns_bind; [apply returns_gets|intros o].
  apply returns_modify.
Qed.

(** A file that exists is not removed. *)
Definition kept (path : string) (s s' : State) : Prop :=
  is_Some (fs s !! path) -> is_Some (fs s' !! path).

Global Instance kept_refl path : Reflexive (kept path).
Proof. intros s Hs. exact Hs. Qed.

Global Instance kept_trans path : Transitive (kept path).
Proof. intros s1 s2 s3 H1 H2 Hs. apply H2, H1, Hs. Qed.

Lemma kept_insert path p c s :
  kept path s (set_fs (insert p c) s).
Proof.
  intros Hs. unfold set_fs. simpl.
  destruct (decide (p = path)) as [->|Hne].
  - rewrite lookup_insert_eq. by eexists.
  - by rewrite lookup_insert_ne.
Qed.

Lemma kept_epoch_body path dataloader log_file epoch :
  stable (kept path) (epoch_body dataloader log_file epoch).
Proof.
  apply (stable_epoch_body (kept path)).
  - intros s s' Hfs. unfold kept. by rewrite Hfs.
  - intros r s. unfold write, modify. simpl.
    apply (kept_insert path log_file
             (default [] (fs s !! log_file) ++ [Line r]) s).
  - intros e s. apply kept_insert.
  - intros e s. apply kept_insert.
Qed.

(** An epoch ends with the two [torch.save] calls, on the model and the
    optimizer as they are after the last batch. *)
Lemma epoch_body_end dataloader log_file epoch s :
  exists s2,
    epoch_body dataloader log_file epoch s =
    (Ok tt,
     set_fs (insert opt_path [OptSnapshot (opt s2)])
       (set_fs (insert (model_path epoch) [ModelSnapshot (model s2)]) s2)).
Proof.
  unfold epoch_body. unfold bind at 1, gets.
  destruct (eval_model (model s)) as [acc loss].
  unfold bind at 1, time. unfold bind at 1, write, modify.
  set (s1 := set_fs _ _).
  pose proof (returns_unit
    (for_enumerate 0 (dataloader epoch) (batch_body log_file epoch)) s1
    (returns_for_enumerate _ _ _ (returns_batch_body log_file epoch))) as Hrun.
  rewrite (bind_run _ _ _ _ _ Hrun).
  by exists (for_enumerate 0 (dataloader epoch) (batch_body log_file epoch) s1).2.
Qed.

(** ** The records of one epoch *)

Lemma batch_body_log log_file epoch i b s :
  exists t loss,
    content log_file (batch_body log_file epoch i b s).2 =
    content log_file s ++ [Line (TRAIN (Z.of_nat epoch) (Z.of_nat i) t loss)].
Proof.
  unfold batch_body, bind at 1, train_on.
  destruct (train_step (model s) (opt s) b) as [[p o] loss].
  exists (time_at (clock s)), loss.
  unfold bind, time, write, modify, set_fs, content. simpl.
  by rewrite lookup_insert_eq.
Qed.

Lemma batches_log log_file epoch l i s :
  exists trains,
    content log_file (for_enumerate i l (batch_body log_file epoch) s).2 =
    content log_file s ++ (Line <$> trains) /\
    Forall2 (fun r j => exists t loss,
               r = TRAIN (Z.of_nat epoch) (Z.of_nat j) t loss)
      trains (seq i (length l)).
Proof.
  revert i s. induction l as [|b l IH]; intros i s.
  - exists []. simpl. split; [by rewrite app_nil_r|constructor].
  - simpl.
    rewrite (bind_run _ _ _ tt (batch_body log_file epoch i b s).2)
      by apply returns_unit, returns_batch_body.
    destruct (batch_body_log log_file epoch i b s) as (t & loss & Hb).
    destruct (IH (S i) (batch_body log_file epoch i b s).2) as (trains & Hl & H2).
    exists (TRAIN (Z.of_nat epoch) (Z.of_nat i) t loss :: trains). split.
    + rewrite Hl, Hb, <- app_assoc. done.
    + constructor; [by eexists _, _|done].
Qed.

(** An epoch appends the record of its evaluation and then one record
    per batch, in the order of the batches. *)
Lemma epoch_body_log dataloader log_file epoch s :
  log_file <> opt_path -> log_file <> model_path epoch ->
  exists t acc trains,
    content log_file (epoch_body dataloader log_file epoch s).2 =
    content log_file s ++
    Line (TEST (Z.of_nat epoch - 1) t acc) :: (Line <$> trains) /\
    Forall2 (fun r j => exists t loss,
               r = TRAIN (Z.of_nat epoch) (Z.of_nat j) t loss)
      trains (seq 0 (length (dataloader epoch))).
Proof.
  intros Hopt Hmodel. unfold epoch_body, bind at 1, gets.
  destruct (eval_model (model s)) as [acc loss].
  unfold bind at 1, time. unfold bind at 1, write, modify.
  set (s1 := set_fs _ _).
  assert (content log_file s1 =
          content log_file s ++ [Line (TEST (Z.of_nat epoch - 1) (time_at (clock s)) acc)])
    as Hs1.
  { unfold s1, set_fs, content. simpl. by rewrite lookup_insert_eq. }
  rewrite (bind_run _ _ _ tt
             (for_enumerate 0 (dataloader epoch) (batch_body log_file epoch) s1).2)
    by (apply returns_unit, returns_for_enumerate; intros;
        apply returns_batch_body).
  destruct (batches_log log_file epoch (dataloader epoch) 0 s1) as (trains & Hl & H2).
  exists (time_at (clock s)), acc, trains. split; [|done].
  unfold bind, gets, torch_save, modify, set_fs, content. simpl.
  rewrite !lookup_insert_ne by done.
  unfold content in Hl, Hs1. rewrite Hl, Hs1, <- app_assoc. done.
Qed.

(** ** Before the first epoch *)

Lemma if_path_fs load (k : string -> T unit) s :
  (forall p s', fs (k p s').2 = fs s') -> fs (if_path load k s).2 = fs s.
Proof.
  intros Hk. unfold if_path. destruct load as [p|]; [|done].
  case_decide; [done|apply Hk].
Qed.

Lemma load_model_state_fs p s : fs (load_model_state p s).2 = fs s.
Proof.
  unfold load_model_state.
  destruct (fs s !! p) as [[|[r|m|o] [|? ?]]|]; done.
Qed.

Lemma load_opt_state_fs p s : fs (load_opt_state p s).2 = fs s.
Proof.
  unfold load_opt_state.
  destruct (fs s !! p) as [[|[r|m|o] [|? ?]]|]; done.
Qed.

(** When the set-up returns, it returns the log file, truncated. *)
Lemma setup_ok log_file_path load_model load_opt s log_file :
  (setup log_file_path load_model load_opt s).1 = Ok log_file ->
  log_file = log_file_path /\
  fs (setup log_file_path load_model load_opt s).2
  = <[log_file_path := []]> (fs s).
Proof.
  unfold setup, bind, modify, open_w, ret.
  destruct (if_path load_model load_model_state _) as [[[]|e] s2] eqn:H2; [|done].
  destruct (if_path load_opt load_opt_state _) as [[[]|e] s4] eqn:H4; [|done].
  simpl. intros [= <-]. split; [done|].
  apply (f_equal (fun x => fs x.2)) in H2, H4. simpl in H2, H4.
  rewrite if_path_fs in H2 by apply load_model_state_fs.
  rewrite if_path_fs in H4 by apply load_opt_state_fs.
  simpl in H2, H4. by rewrite <- H4, <- H2.
Qed.

(** Without artifacts to resume from, the set-up always returns. *)
Lemma setup_fresh log_file_path s :
  (setup log_file_path None None s).1 = Ok log_file_path.
Proof. done. Qed.

End train_runs.

Section train_epochs.
Import train.
Context `{Trainer}.
Context (dataloader : nat -> list Batch) (log_file_path : string).
Context (load_model load_opt : option string) (s0 : State).

(** The state of the run after [n] completed epochs. *)
Definition after (n : nat) : State :=
  (main_epochs n dataloader log_file_path load_model load_opt s0).2.

Context (log_file : string).
Context (Hsetup : (setup log_file_path load_model load_opt s0).1 = Ok log_file).

Lemma main_epochs_run n :
  main_epochs n dataloader log_file_path load_model load_opt s0
  = for_in_range n (epoch_body dataloader log_file_path)
      (setup log_file_path load_model load_opt s0).2.
Proof.
  unfold main_epochs. rewrite (bind_ok _ _ _ _ Hsetup).
  by destruct (setup_ok _ _ _ _ _ Hsetup) as [-> _].
Qed.

Lemma main_epochs_returns n :
  (main_epochs n dataloader log_file_path load_model load_opt s0).1 = Ok tt.
Proof.
  rewrite main_epochs_run.
  destruct (returns_for_in_range n (epoch_body dataloader log_file_path)
              (returns_epoch_body dataloader log_file_path)
              (setup log_file_path load_model load_opt s0).2) as [[] Hr].
  done.
Qed.

Lemma after_0 : after 0 = (setup log_file_path load_model load_opt s0).2.
Proof. unfold after. by rewrite main_epochs_run. Qed.

Lemma after_S n :
  after (S n) = (epoch_body dataloader log_file_path n (after n)).2.
Proof.
  unfold after. rewrite !main_epochs_run, for_in_range_S.
  rewrite (bind_run _ _ _ tt
             (for_in_range n (epoch_body dataloader log_file_path)
                (setup log_file_path load_model load_opt s0).2).2); [done|].
  apply returns_unit, returns_for_in_range, returns_epoch_body.
Qed.

Lemma after_add n k :
  after (n + k)
  = (for_enumerate n (seq n k)
       (fun _ i => epoch_body dataloader log_file_path i) (after n)).2.
Proof.
  unfold after. rewrite !main_epochs_run. unfold for_in_range.
  rewrite seq_app, for_enumerate_app, length_seq. simpl.
  rewrite (bind_run _ _ _ tt
             (for_in_range n (epoch_body dataloader log_file_path)
                (setup log_file_path load_model load_opt s0).2).2); [done|].
  apply returns_unit, returns_for_in_range, returns_epoch_body.
Qed.

(** The log file is not one of the checkpoint files. *)
Definition not_a_checkpoint (path : string) : Prop :=
  path <> opt_path /\ forall e, path <> model_path e.

Context (Hlog : not_a_checkpoint log_file_path).

Lemma after_model_snapshot n e :
  e < n ->
  fs (after n) !! model_path e = Some [ModelSnapshot (model (after (S e)))].
Proof.
  destruct Hlog as [Hopt Hmodel].
  induction n as [|n IH]; intros He; [lia|].
  destruct (decide (e = n)) as [->|Hne].
  - rewrite !after_S.
    destruct (epoch_body_end dataloader log_file_path n (after n)) as [s2 ->].
    simpl. rewrite lookup_insert_ne by done. by rewrite lookup_insert_eq.
  - rewrite (after_S n).
    rewrite (untouched_epoch_body
               (fun p => p = log_file_path \/ p = opt_path \/ p = model_path n)
               dataloader log_file_path n); [apply IH; lia|auto|auto|auto|].
    intros [Hp|[Hp|Hp]].
    + by apply (Hmodel e).
    + by apply (model_path_not_opt_path e).
    + apply model_path_inj in Hp. lia.
Qed.

Lemma after_opt_snapshot n :
  0 < n -> fs (after n) !! opt_path = Some [OptSnapshot (opt (after n))].
Proof.
  destruct n as [|n]; [lia|intros _]. rewrite !after_S.
  destruct (epoch_body_end dataloader log_file_path n (after n)) as [s2 ->].
  simpl. by rewrite lookup_insert_eq.
Qed.

Lemma after_untouched n path :
  path <> log_file_path -> path <> opt_path ->
  (forall e, e < n -> path <> model_path e) ->
  fs (after n) !! path = fs s0 !! path.
Proof.
  intros Hl Ho. induction n as [|n IH]; intros Hm.
  - rewrite after_0. destruct (setup_ok _ _ _ _ _ Hsetup) as [_ ->].
    by rewrite lookup_insert_ne.
  - rewrite after_S.
    rewrite (untouched_epoch_body
               (fun p => p = log_file_path \/ p = opt_path \/ p = model_path n)
               dataloader log_file_path n); [|auto|auto|auto|].
    + apply IH. intros e He. apply Hm. lia.
    + intros [Hp|[Hp|Hp]]; [done|done|]. by apply (Hm n); [lia|].
Qed.

Lemma after_0_opt_path : fs (after 0) !! opt_path = fs s0 !! opt_path.
Proof.
  destruct Hlog as [Hopt _]. rewrite after_0.
  destruct (setup_ok _ _ _ _ _ Hsetup) as [_ ->]. by rewrite lookup_insert_ne.
Qed.

Lemma after_log n :
  exists recs, fs (after n) !! log_file_path = Some (Line <$> recs).
Proof.
  destruct Hlog as [Hopt Hmodel]. induction n as [|n [recs IH]].
  - exists []. rewrite after_0. destruct (setup_ok _ _ _ _ _ Hsetup) as [_ ->].
    by rewrite lookup_insert_eq.
  - rewrite after_S.
    destruct (grows_epoch_body dataloader log_file_path n Hopt (Hmodel n) (after n))
      as [more Hmore].
    unfold content in Hmore. rewrite IH in Hmore. simpl in Hmore.
    destruct (kept_epoch_body log_file_path dataloader log_file_path n (after n))
      as [c Hc]; [by rewrite IH|].
    rewrite Hc in Hmore. simpl in Hmore. subst c.
    exists (recs ++ more). by rewrite Hc, fmap_app.
Qed.

Lemma after_log_extends n k recs :
  fs (after n) !! log_file_path = Some (Line <$> recs) ->
  exists more, fs (after (n + k)) !! log_file_path = Some (Line <$> (recs ++ more)).
Proof.
  destruct Hlog as [Hopt Hmodel]. intros Hn.
  destruct (after_log (n + k)) as [recs' Hrecs'].
  assert (grows log_file_path (after n) (after (n + k))) as [more Hmore].
  { rewrite after_add. apply (stable_for_enumerate (grows log_file_path)).
    intros _ i. by apply grows_epoch_body. }
  unfold content in Hmore. rewrite Hn, Hrecs' in Hmore. simpl in Hmore.
  exists more. by rewrite Hrecs', Hmore, fmap_app.
Qed.

End train_epochs.

(* ================================================================== *)
(** * The schedule of GPTTrainingContext *)
(* ================================================================== *)

Section schedule.
Import train_gpt.
Context `{Trainer}.

(** Of the calls of the evaluation function and of the training function
    in [t], the first is a call of the evaluation function. *)
Fixpoint next_is_eval (t : list Event) : bool :=
  match t with
  | [] => false
  | EvalFn :: _ => true
  | TrainFn _ _ :: _ => false
  | _ :: t' => next_is_eval t'
  end.

(** Along [t], the start of every epoch is followed by an evaluation
    before the first training step, and so is every training step whose
    batch index is [due]. *)
Fixpoint follows_schedule (due : nat -> bool) (t : list Event) : bool :=
  match t with
  | [] => true
  | LoggerEpoch :: t' => next_is_eval t' && follows_schedule due t'
  | TrainFn _ b :: t' =>
      (if due b then next_is_eval t' else true) && follows_schedule due t'
  | _ :: t' => follows_schedule due t'
  end.

(** The number of epochs that were started along [t]. *)
Fixpoint epoch_starts (t : list Event) : nat :=
  match t with
  | [] => 0
  | LoggerEpoch :: t' => S (epoch_starts t')
  | _ :: t' => epoch_starts t'
  end.

(** The batch indices at which the controller evaluates. *)
Definition due_in_code (eval_freq : Z) (batch_idx : nat) : bool :=
  ((Z.of_nat batch_idx mod eval_freq =? 0) && (Z.of_nat batch_idx >? 0))%Z.

(** The batch indices that are divisible by [eval_freq]. *)
Definition divisible (eval_freq : Z) (batch_idx : nat) : bool :=
  (Z.of_nat batch_idx mod eval_freq =? 0)%Z.

Lemma next_is_eval_app t t' :
  next_is_eval t = true -> next_is_eval (t ++ t') = true.
Proof. induction t as [|[] t IH]; simpl; auto; done. Qed.

Lemma follows_schedule_app due t t' :
  follows_schedule due t = true -> follows_schedule due t' = true ->
  follows_schedule due (t ++ t') = true.
Proof.
  intros Ht Ht'. induction t as [|ev t IH]; [done|].
  destruct ev; simpl in *; auto.
  - apply andb_prop in Ht as [Hn Ht]. rewrite (next_is_eval_app _ _ Hn). auto.
  - apply andb_prop in Ht as [Hn Ht]. rewrite (IH Ht), andb_true_r.
    destruct (due batch_idx); [by apply next_is_eval_app|done].
Qed.

Lemma epoch_starts_app t t' :
  epoch_starts (t ++ t') = epoch_starts t + epoch_starts t'.
Proof. induction t as [|[] t IH]; simpl; auto. Qed.

(** What [follows_schedule] says, position by position. *)
Lemma follows_schedule_spec due t :
  follows_schedule due t = true ->
  (forall pre post, t = pre ++ LoggerEpoch :: post -> next_is_eval post = true) /\
  (forall pre e b post,
     t = pre ++ TrainFn e b :: post -> due b = true -> next_is_eval post = true).
Proof.
  induction t as [|ev t IH]; intros Ht.
  { split; intros; by destruct pre. }
  assert (follows_schedule due t = true) as Ht'.
  { destruct ev; simpl in Ht; try done; by apply andb_prop in Ht as [_ ?]. }
  destruct (IH Ht') as [IH1 IH2]. split.
  - intros [|ev' pre] post Heq; simpl in Heq.
    + injection Heq as -> ->. simpl in Ht. by apply andb_prop in Ht as [? _].
    + injection Heq as -> ->. by eapply IH1.
  - intros [|ev' pre] e b post Heq Hdue; simpl in Heq.
    + injection Heq as -> ->. simpl in Ht. rewrite Hdue in Ht.
      by apply andb_prop in Ht as [? _].
    + injection Heq as -> ->. by eapply IH2.
Qed.

(** [s'] has the trace of [s] and then events that follow the schedule
    and start no epoch. *)
Definition emits (due : nat -> bool) (s s' : State) : Prop :=
  exists new,
    trace s' = trace s ++ new /\
    follows_schedule due new = true /\ epoch_starts new = 0.

Global Instance emits_refl due : Reflexive (emits due).
Proof. intros s. exists []. by rewrite app_nil_r. Qed.

Global Instance emits_trans due : Transitive (emits due).
Proof.
  intros s1 s2 s3 (n1 & H1 & F1 & E1) (n2 & H2 & F2 & E2). exists (n1 ++ n2).
  split; [by rewrite H2, H1, app_assoc|]. split.
  - by apply follows_schedule_app.
  - rewrite epoch_starts_app. lia.
Qed.

Lemma evaluate_run self s :
  evaluate self s =
  (Ok tt,
   mkState (model s) (opt s)
     (trace s ++
      [EvalFn;
       LoggerTestOutput (eval_fn self (model s) (test_dl self) (train_fn self));
       LoggerSaveCheckpoint])).
Proof.
  unfold evaluate, bind, emit, modify, gets. simpl. by rewrite <- !app_assoc.
Qed.

Lemma emits_evaluate due self : stable (emits due) (evaluate self).
Proof. intros s. rewrite evaluate_run. by eexists. Qed.

Lemma returns_evaluate self : returns (evaluate self).
Proof. intros s. rewrite evaluate_run. by eexists. Qed.

(** One training step, and the evaluation after it when it is due. *)
Lemma batch_body_run self epoch batch_idx state s :
  eval_freq self <> 0%Z ->
  exists s1 loss,
    batch_body self epoch batch_idx state s =
    (if due_in_code (eval_freq self) batch_idx then evaluate self else ret tt) s1 /\
    trace s1 =
      trace s ++ [TrainFn epoch batch_idx;
                  LoggerLoss (Z.of_nat batch_idx) (length (train_dl self)) loss].
Proof.
  intros Hfreq. unfold batch_body, bind at 1, emit, modify.
  unfold bind at 1, train_on. simpl.
  destruct (backward_step _ _ _ _) as [p o].
  unfold bind at 1. unfold bind at 1, lift, py_mod.
  rewrite decide_False by done.
  eexists _, _. split; [reflexivity|]. simpl. by rewrite <- app_assoc.
Qed.

Lemma emits_batch_body self epoch batch_idx state :
  eval_freq self <> 0%Z ->
  stable (emits (due_in_code (eval_freq self)))
         (batch_body self epoch batch_idx state).
Proof.
  intros Hfreq s.
  destruct (batch_body_run self epoch batch_idx state s Hfreq)
    as (s1 & loss & -> & Htrace).
  destruct (due_in_code (eval_freq self) batch_idx) eqn:Hdue.
  - rewrite evaluate_run. unfold emits. cbn [snd trace].
    rewrite Htrace, <- app_assoc.
    eexists. split; [reflexivity|]. simpl. by rewrite Hdue.
  - unfold emits, ret. cbn [snd]. rewrite Htrace.
    eexists. split; [reflexivity|]. simpl. by rewrite Hdue.
Qed.

Lemma returns_gpt_batch_body self epoch batch_idx state :
  eval_freq self <> 0%Z -> returns (batch_body self epoch batch_idx state).
Proof.
  intros Hfreq s.
  destruct (batch_body_run self epoch batch_idx state s Hfreq)
    as (s1 & loss & -> & _).
  destruct (due_in_code _ _); [apply returns_evaluate|apply returns_ret].
Qed.

Lemma epoch_body_unfold self epoch s :
  epoch_body self epoch s =
  bind (for_enumerate 0 (train_dl self) (batch_body self epoch))
    (fun _ => evaluate self)
    (mkState (model s) (opt s)
       (trace s ++
        [LoggerEpoch; EvalFn;
         LoggerTestOutput (eval_fn self (model s) (test_dl self) (train_fn self));
         LoggerSaveCheckpoint])).
Proof.
  unfold epoch_body.
  rewrite (bind_run _ _ _ tt (mkState (model s) (opt s) (trace s ++ [LoggerEpoch])))
    by reflexivity.
  rewrite (bind_run _ _ _ _ _ (evaluate_run self _)).
  cbn [model opt trace]. by rewrite <- app_assoc.
Qed.

(** One epoch: it returns, it starts one epoch, and its events follow
    the schedule. *)
Lemma epoch_body_run self epoch s :
  eval_freq self <> 0%Z ->
  exists new,
    epoch_body self epoch s =
      (Ok tt, (epoch_body self epoch s).2) /\
    trace (epoch_body self epoch s).2 = trace s ++ new /\
    follows_schedule (due_in_code (eval_freq self)) new = true /\
    epoch_starts new = 1.
Proof.
  intros Hfreq. rewrite epoch_body_unfold.
  set (s1 := mkState _ _ _). set (rest := bind _ _).
  assert (stable (emits (due_in_code (eval_freq self))) rest) as Hemits.
  { unfold rest.
    apply (stable_bind (emits _)); [|intros _; apply emits_evaluate].
    apply (stable_for_enumerate (emits _)). intros i b.
    by apply emits_batch_body. }
  assert (returns rest) as Hret.
  { unfold rest.
    apply returns_bind; [|intros _; apply returns_evaluate].
    apply returns_for_enumerate. intros i b. by apply returns_gpt_batch_body. }
  destruct (Hemits s1) as (new & Hnew & Hfollows & Hstarts).
  exists ([LoggerEpoch; EvalFn;
           LoggerTestOutput (eval_fn self (model s) (test_dl self) (train_fn self));
           LoggerSaveCheckpoint] ++ new).
  split; [by apply returns_unit|]. split; [|split].
  - rewrite Hnew. unfold s1. cbn [trace]. by rewrite <- app_assoc.
  - apply follows_schedule_app; [done|exact Hfollows].
  - rewrite epoch_starts_app, Hstarts. reflexivity.
Qed.

(** [n] epochs. *)
Lemma for_in_range_epochs self n s :
  eval_freq self <> 0%Z ->
  exists new,
    for_in_range n (epoch_body self) s =
      (Ok tt, (for_in_range n (epoch_body self) s).2) /\
    trace (for_in_range n (epoch_body self) s).2 = trace s ++ new /\
    follows_schedule (due_in_code (eval_freq self)) new = true /\
    epoch_starts new = n.
Proof.
  intros Hfreq. induction n as [|n (new & Hrun & Htrace & Hfollows & Hstarts)].
  - exists []. simpl. by rewrite app_nil_r.
  - rewrite for_in_range_S, (bind_run _ _ _ _ _ Hrun).
    destruct (epoch_body_run self n (for_in_range n (epoch_body self) s).2 Hfreq)
      as (new' & Hrun' & Htrace' & Hfollows' & Hstarts').
    exists (new ++ new'). split; [done|]. split; [|split].
    + by rewrite Htrace', Htrace, app_assoc.
    + by apply follows_schedule_app.
    + rewrite epoch_starts_app. lia.
Qed.

End schedule.

(* ================================================================== *)
(** * Main results: the model *)
(* ================================================================== *)

Section model_results.
Import model.

(** C1, as amended.  On a non-empty batch of well-formed states and of
    well-formed actions of length [M] between 1 and 1024 (the rows of
    the positional table), [forward] returns [logits], and [logits] is
    this: the transformer is run on the embedded state [pos] and the
    embedded action [tgt] and returns [out]; [full], the output of
    [to_dist] on [out], holds one distribution over the output
    vocabulary for each of the [M] target positions; [logits] is [full]
    without its last position, that is position [t] of [logits] is
    position [t] of [full] for [t < M - 1] (the prediction of token
    [t + 1]), [M - 1] distributions per batch element, each summing to 1
    after exponentiation. *)
Theorem forward_shifted_log_probabilities {T : Torch} {L : @TorchLaws T}
    (w_in w_out : nat) (emb_dim : Z) (b n M : nat)
    (state action : tensor2) (w : World) :
  wf_model w_in w_out emb_dim (self w) ->
  0 < w_in -> 0 < w_out -> 0 < b ->
  1 <= n <= 1024 -> 1 <= M <= 1024 ->
  shape2 b n state -> shape2 b M action ->
  in_vocab_or_padding w_in state -> in_vocab_or_padding w_out action ->
  exists pos tgt out full logits,
    (_state_embed (not_mask_mul (get_mask state (-1)) state) w).1 = Ok pos /\
    (_action_embed (not_mask_mul (get_mask action (-1)) action)
       (_state_embed (not_mask_mul (get_mask state (-1)) state) w).2).1 = Ok tgt /\
    transformer_forward (transformer (self w)) pos tgt
      (generate_square_subsequent_mask M)
      (get_mask state (-1)) (get_mask action (-1)) = Ok out /\
    full = to_dist (to_dist_linear (self w)) out /\
    (forward state action w).1 = Ok logits /\
    shape3 b M w_out full /\
    logits = drop_last_position full /\
    (forall i t, t < M - 1 ->
       logits !! i ≫= (.!! t) = full !! i ≫= (.!! t)) /\
    shape3 b (M - 1) w_out logits /\
    Forall (Forall (fun dist => sum_R (map exp dist) = 1%R)) logits.
Proof.
  intros Hwf Hwin Hwout Hb Hn HM Hs Ha Hvs Hva.
  destruct (forward_steps w_in w_out emb_dim b n M state action w)
    as (pos & tgt & out & Hpos & Htgt & Hpass & Hout & Hrun); try done.
  assert (length (bias (to_dist_linear (self w)))
          = out_features (to_dist_linear (self w))) as Hbias
    by (by rewrite (wf_to_dist _ _ _ _ Hwf), (wf_to_dist_bias _ _ _ _ Hwf)).
  assert (shape3 b M w_out (to_dist (to_dist_linear (self w)) out)) as Hfull.
  { rewrite <- (wf_to_dist _ _ _ _ Hwf). apply to_dist_shape; [done|].
    destruct Hout as (? & ? & _). by split. }
  exists pos, tgt, out, (to_dist (to_dist_linear (self w)) out),
    (drop_last_position (to_dist (to_dist_linear (self w)) out)).
  split; [exact Hpos|]. split; [exact Htgt|]. split; [exact Hpass|].
  split; [done|]. split; [exact Hrun|]. split; [done|]. split; [done|].
  split.
  { intros i t Ht. apply (drop_last_position_lookup M); [|done].
    by destruct Hfull as (_ & ? & _). }
  split; [by apply drop_last_position_shape|].
  unfold drop_last_position. rewrite Forall_fmap.
  eapply Forall_impl; [apply to_dist_normalised; [done|]|].
  - by rewrite (wf_to_dist _ _ _ _ Hwf).
  - intros row Hrow. simpl. by apply Forall_take.
Qed.

(** C3.  [forward] on inputs with padding: the mask is true exactly at
    the sentinel, the ids that reach the two embedding tables are the
    inputs with 0 in place of the sentinel, all of them in the
    vocabulary, and [forward] returns. *)
Theorem forward_masks_padding {T : Torch} {L : @TorchLaws T}
    (w_in w_out : nat) (emb_dim : Z) (b n M : nat)
    (state action : tensor2) (w : World) :
  wf_model w_in w_out emb_dim (self w) ->
  0 < w_in -> 0 < w_out -> 0 < b ->
  1 <= n <= 1024 -> 1 <= M <= 1024 ->
  shape2 b n state -> shape2 b M action ->
  in_vocab_or_padding w_in state -> in_vocab_or_padding w_out action ->
  exists logits pos tgt state' action',
    (forward state action w).1 = Ok logits /\
    calls (forward state action w).2 =
      calls w ++
      [CallBoardEmbed state'; CallMoveEmbed action';
       CallTransformer pos tgt (get_mask state (-1)) (get_mask action (-1))] /\
    in_vocab w_in state' /\ in_vocab w_out action' /\
    (forall i j x, state !! i ≫= (.!! j) = Some x ->
       get_mask state (-1) !! i ≫= (.!! j) = Some (bool_decide (x = (-1)%Z)) /\
       state' !! i ≫= (.!! j) = Some (if decide (x = (-1)%Z) then 0%Z else x)) /\
    (forall i j x, action !! i ≫= (.!! j) = Some x ->
       get_mask action (-1) !! i ≫= (.!! j) = Some (bool_decide (x = (-1)%Z)) /\
       action' !! i ≫= (.!! j) = Some (if decide (x = (-1)%Z) then 0%Z else x)).
Proof.
  intros Hwf Hwin Hwout Hb Hn HM Hs Ha Hvs Hva.
  destruct (forward_ok w_in w_out emb_dim b n M state action w)
    as (pos & tgt & out & Hout & Hrun & Hcalls); try done.
  assert (forall (t : tensor2) i j x, t !! i ≫= (.!! j) = Some x ->
            get_mask t (-1) !! i ≫= (.!! j) = Some (bool_decide (x = (-1)%Z)))
    as Hmask.
  { intros t i j x Hx. unfold get_mask. rewrite list_lookup_fmap.
    destruct (t !! i) as [row|]; [|done]. simpl in *.
    rewrite list_lookup_fmap, Hx. simpl. f_equal.
    destruct (Z.eqb_spec x (-1)).
    - by rewrite bool_decide_true.
    - by rewrite bool_decide_false. }
  exists (drop_last_position (to_dist (to_dist_linear (self w)) out)), pos, tgt,
    (not_mask_mul (get_mask state (-1)) state),
    (not_mask_mul (get_mask action (-1)) action).
  split; [exact Hrun|]. split; [exact Hcalls|].
  split; [by apply not_mask_mul_in_vocab|].
  split; [by apply not_mask_mul_in_vocab|].
  split; intros i j x Hx; (split; [by apply Hmask|by apply not_mask_mul_lookup]).
Qed.

(** C2, as amended.  On a non-empty batch of well-formed states, with a
    start token of the output vocabulary and [0 <= max_len <= 1024] (the
    number of rows of the positional table), [inference] and [sample]
    return a batch of sequences of length [max_len + 1] that begin with
    the start token; the transformer was called [max_len] times, once per
    step; and one more step appends one token to every sequence. *)
Theorem decoder_length {T : Torch} {L : @TorchLaws T}
    (w_in w_out : nat) (emb_dim : Z) (b n : nat)
    (state : tensor2) (max_len : Z) (w : World)
    (decode : tensor2 -> Z -> M tensor2) :
  decode = inference \/ decode = sample ->
  wf_model w_in w_out emb_dim (self w) ->
  0 < w_in -> 0 < w_out -> 0 < b -> 1 <= n <= 1024 ->
  shape2 b n state -> in_vocab_or_padding w_in state ->
  (0 <= start_token (self w) < Z.of_nat w_out)%Z ->
  (0 <= max_len <= 1024)%Z ->
  (exists tokens,
     (decode state max_len w).1 = Ok tokens /\
     shape2 b (Z.to_nat max_len + 1) tokens /\
     Forall (fun row => head row = Some (start_token (self w))) tokens /\
     count_transformer (calls (decode state max_len w).2)
     = count_transformer (calls w) + Z.to_nat max_len) /\
  (forall j : Z, (0 <= j < max_len)%Z ->
     exists tokens tokens',
       (decode state j w).1 = Ok tokens /\
       (decode state (j + 1)%Z w).1 = Ok tokens' /\
       Forall2 (fun row row' => exists x, row' = row ++ [x]) tokens tokens').
Proof.
  intros Hdecode Hwf Hwin Hwout Hb Hn Hs Hv Hstart Hmax.
  assert (exists action_sel,
            decode = (fun s k => _inference s k action_sel) /\
            selects w_out action_sel) as (action_sel & -> & Hsel).
  { destruct Hdecode as [->| ->].
    - exists max_action_sel. split; [done|by apply max_action_sel_selects].
    - exists sample_action_sel. split; [done|by apply sample_action_sel_selects]. }
  split.
  - destruct (_inference_ok w_in w_out emb_dim b n state max_len action_sel w)
      as (pos & tokens & w1 & w' & _ & _ & _ & _ & _ & Hinf & Hshape & _ & Hhead
          & _ & Hcount); try done.
    exists tokens. by rewrite Hinf.
  - intros j Hj.
    apply (_inference_grows w_in w_out emb_dim b n); try done. lia.
Qed.

(** C4.  Every run of [_inference] calls the board embedding exactly
    once, first of all and on the masked state; when this encoding
    returns [pos], every later call is a call of a decode step, none of
    them encodes the source again, and every pass of the transformer has
    [pos] as its source.  The result is the result of the formulation
    that embeds the source again at every step, and, when the encoder of
    the transformer returns on [pos], of the formulation that runs this
    encoder once before the loop and only the decoder at every step. *)
Theorem inference_encodes_once {T : Torch} {L : @TorchLaws T}
    (state : tensor2) (max_len : Z) (action_sel : list vec -> M tensor2)
    (w : World) :
  generator_only action_sel ->
  exists new,
    calls (_inference state max_len action_sel w).2 =
      calls w ++
      CallBoardEmbed (not_mask_mul (get_mask state (-1)) state) :: new /\
    match (_state_embed (not_mask_mul (get_mask state (-1)) state) w).1 with
    | Ok pos =>
        Forall (reuses pos) new /\
        (_inference_reencode state max_len action_sel w).1 =
        (_inference state max_len action_sel w).1 /\
        (forall memory,
           transformer_encoder (transformer (self w)) pos (get_mask state (-1))
           = Ok memory ->
           (_inference_encode_once state max_len action_sel w).1 =
           (_inference state max_len action_sel w).1)
    | Raise _ => new = []
    end.
Proof.
  intros Hsel.
  destruct (_inference_calls state max_len action_sel w Hsel) as (new & Hcalls & Hnew).
  exists new. split; [done|].
  destruct (_state_embed _ w).1 as [pos|e] eqn:Hpos; [|done].
  split; [done|]. split; [by eapply _inference_reencode_eq|].
  intros memory Hmem. by eapply _inference_encode_once_eq.
Qed.

(** C7.  The result of [inference] depends on the state, on [max_len]
    and on the attributes of the model only: two calls in worlds with
    the same attributes return the same, and so does a second call that
    follows the first; the policy picks, in every row of logits, the
    first index at which the maximum is attained. *)
Theorem inference_deterministic {T : Torch}
    (state : tensor2) (max_len : Z) (w1 w2 : World) :
  same_attributes (self w1) (self w2) ->
  (inference state max_len w1).1 = (inference state max_len w2).1 /\
  (inference state max_len (inference state max_len w1).2).1
  = (inference state max_len w1).1 /\
  (forall logits next,
     (max_action_sel logits w1).1 = Ok next ->
     Forall2 (fun (row : vec) (ids : list Z) =>
                exists i v,
                  ids = [Z.of_nat i] /\ row !! i = Some v /\
                  Forall (fun x => x <= v)%R row /\
                  forall j y, j < i -> row !! j = Some y -> (y < v)%R)
       logits next).
Proof.
  intros Hsame.
  assert (forall wa wb, same_attributes (self wa) (self wb) ->
            (inference state max_len wa).1 = (inference state max_len wb).1) as Hdet.
  { intros wa wb Hab.
    apply (agree__inference (pe_to_device (self wa)) false state max_len
             max_action_sel); [|by split].
    intros logits. apply agree_lift. }
  split; [by apply Hdet|]. split.
  - symmetry. apply Hdet.
    apply (stable__inference state max_len max_action_sel
             max_action_sel_generator_only w1).
  - intros logits next Hnext. unfold max_action_sel, lift in Hnext.
    simpl in Hnext. apply rmapM_ok_inv in Hnext.
    eapply Forall2_impl; [exact Hnext|]. intros row ids Hrow. simpl in Hrow.
    destruct row as [|x xs]; [done|]. simpl in Hrow. injection Hrow as <-.
    destruct (argmax_from_first 0 x 1 xs 0%R)
      as [[Hk Hall]|(j & Hk & Hj & Hbest & Hall & Hfirst)].
    + exists 0, x. rewrite Hk. split; [done|]. split; [done|]. split.
      * constructor; [lra|done].
      * intros; lia.
    + destruct (lookup_lt_is_Some_2 xs j Hj) as [v Hv].
      rewrite (nth_lookup_Some xs j 0%R v Hv) in Hbest, Hall, Hfirst.
      exists (S j), v. rewrite Hk. split; [done|]. split; [done|].
      split.
      * constructor; [lra|done].
      * intros [|j'] y Hlt Hy; simpl in Hy.
        -- injection Hy as <-. done.
        -- specialize (Hfirst j' ltac:(lia)).
           erewrite (nth_lookup_Some xs j' 0%R y) in Hfirst by done. done.
Qed.

(** C9.  Whether they return or raise, [inference] and [sample] leave
    the parameters of the model as they were. *)
Theorem decode_leaves_parameters {T : Torch}
    (state : tensor2) (max_len : Z) (w : World) :
  parameters (self (inference state max_len w).2) = parameters (self w) /\
  parameters (self (sample state max_len w).2) = parameters (self w).
Proof.
  split; apply same_attributes_parameters.
  - apply (stable__inference state max_len max_action_sel
             max_action_sel_generator_only w).
  - apply (stable__inference state max_len sample_action_sel
             sample_action_sel_generator_only w).
Qed.

(** C8.  [positionalencoding1d] is a function of its two arguments; for
    an odd dimension it raises [ValueError]; for a positive even
    dimension [d] and a length [len] it returns [len] rows of width [d]
    whose columns [2 i] and [2 i + 1] hold the sine and the cosine of
    the position times [exp (2 i * - (ln 10000 / d))]. *)
Theorem positionalencoding1d_spec (d len d' len' : Z) :
  d' = d -> len' = len ->
  Z.odd d = true \/ (0 < d /\ 0 <= len)%Z ->
  positionalencoding1d d' len' = positionalencoding1d d len /\
  if Z.odd d then positionalencoding1d d len = Raise ValueError
  else
    exists pe,
      positionalencoding1d d len = Ok pe /\
      length pe = Z.to_nat len /\
      forall p row, pe !! p = Some row ->
        length row = Z.to_nat d /\
        forall i, 2 * i < Z.to_nat d ->
          row !! (2 * i) =
            Some (sin (INR p * exp (INR (2 * i) * - (ln 10000 / IZR d))))%R /\
          row !! (2 * i + 1) =
            Some (cos (INR p * exp (INR (2 * i) * - (ln 10000 / IZR d))))%R.
Proof.
  intros -> -> Hdom. split; [done|].
  destruct (Z.odd d) eqn:Hodd.
  - by apply positionalencoding1d_odd.
  - destruct Hdom as [|[Hd Hlen]]; [done|].
    apply positionalencoding1d_ok; [done| |done].
    rewrite Zmod_odd, Hodd. done.
Qed.

End model_results.

(* ================================================================== *)
(** * The main results about the model, on the small model *)
(* ================================================================== *)

Section model_examples.
Import model.

(** The scenario of the 2-token board game: the mask of the state. *)
Example example_state_mask :
  get_mask [[1; 0; -1]]%Z (-1) = [[false; false; true]] /\
  not_mask_mul (get_mask [[1; 0; -1]]%Z (-1)) [[1; 0; -1]]%Z = [[1; 0; 0]]%Z.
Proof. split; reflexivity. Qed.

(** Without the mask, the sentinel is not an index of the table. *)
Example example_state_sentinel_lookup :
  embedding (board_embed example_model) [[1; 0; -1]]%Z = Raise IndexError.
Proof. reflexivity. Qed.

Lemma forward_shifted_log_probabilities_witness :
  exists pos tgt out full logits,
    (@_state_embed example_torch
       (not_mask_mul (get_mask [[1; 0; -1]]%Z (-1)) [[1; 0; -1]]%Z)
       example_world).1 = Ok pos /\
    (@_action_embed example_torch
       (not_mask_mul (get_mask [[0; 1]]%Z (-1)) [[0; 1]]%Z)
       (@_state_embed example_torch
          (not_mask_mul (get_mask [[1; 0; -1]]%Z (-1)) [[1; 0; -1]]%Z)
          example_world).2).1 = Ok tgt /\
    @transformer_forward example_torch (transformer (self example_world)) pos tgt
      (generate_square_subsequent_mask 2)
      (get_mask [[1; 0; -1]]%Z (-1)) (get_mask [[0; 1]]%Z (-1)) = Ok out /\
    full = to_dist (to_dist_linear (self example_world)) out /\
    (@forward example_torch [[1; 0; -1]]%Z [[0; 1]]%Z example_world).1 = Ok logits /\
    shape3 1 2 2 full /\
    logits = drop_last_position full /\
    (forall i t, t < 2 - 1 ->
       logits !! i ≫= (.!! t) = full !! i ≫= (.!! t)) /\
    shape3 1 (2 - 1) 2 logits /\
    Forall (Forall (fun dist => sum_R (map exp dist) = 1%R)) logits.
Proof.
  apply (@forward_shifted_log_probabilities example_torch example_torch_laws
           2 2 2 1 3 2);
    [apply example_model_wf|lia|lia|lia|lia|lia
    |apply example_state_shape|apply example_action_shape
    |apply example_state_shape|apply example_action_shape].
Defined.

(** C1, as stated for every action, fails: an action of 1025 tokens
    needs 1025 rows of the positional table, which has 1024, and
    [forward] raises instead of returning 1024 distributions. *)
Lemma forward_1025_raises :
  (@forward example_torch [[1; 0; -1]]%Z [replicate 1025 0%Z] example_world).1
  = Raise RuntimeError.
Proof.
  apply (@forward_action_too_long example_torch 2 2 2 1 3 1025);
    [apply example_model_wf|lia|lia|lia|lia|lia
    |apply example_state_shape| |apply example_state_shape|].
  - split; [reflexivity|]. constructor; [apply length_replicate|constructor].
  - constructor; [|constructor]. apply Forall_replicate. lia.
Qed.

Lemma forward_masks_padding_witness :
  exists logits pos tgt state' action',
    (@forward example_torch [[1; 0; -1]]%Z [[0; 1]]%Z example_world).1 = Ok logits /\
    calls (@forward example_torch [[1; 0; -1]]%Z [[0; 1]]%Z example_world).2 =
      calls example_world ++
      [CallBoardEmbed state'; CallMoveEmbed action';
       CallTransformer pos tgt (get_mask [[1; 0; -1]]%Z (-1))
         (get_mask [[0; 1]]%Z (-1))] /\
    in_vocab 2 state' /\ in_vocab 2 action' /\
    (forall i j x, [[1; 0; -1]]%Z !! i ≫= (.!! j) = Some x ->
       get_mask [[1; 0; -1]]%Z (-1) !! i ≫= (.!! j)
       = Some (bool_decide (x = (-1)%Z)) /\
       state' !! i ≫= (.!! j) = Some (if decide (x = (-1)%Z) then 0%Z else x)) /\
    (forall i j x, [[0; 1]]%Z !! i ≫= (.!! j) = Some x ->
       get_mask [[0; 1]]%Z (-1) !! i ≫= (.!! j)
       = Some (bool_decide (x = (-1)%Z)) /\
       action' !! i ≫= (.!! j) = Some (if decide (x = (-1)%Z) then 0%Z else x)).
Proof.
  apply (@forward_masks_padding example_torch example_torch_laws 2 2 2 1 3 2);
    [apply example_model_wf|lia|lia|lia|lia|lia
    |apply example_state_shape|apply example_action_shape
    |apply example_state_shape|apply example_action_shape].
Defined.

Lemma decoder_length_witness :
  (exists tokens,
     (@inference example_torch [[1; 0; -1]]%Z 3 example_world).1 = Ok tokens /\
     shape2 1 (Z.to_nat 3 + 1) tokens /\
     Forall (fun row => head row = Some (start_token (self example_world))) tokens /\
     count_transformer
       (calls (@inference example_torch [[1; 0; -1]]%Z 3 example_world).2)
     = count_transformer (calls example_world) + Z.to_nat 3) /\
  (forall j : Z, (0 <= j < 3)%Z ->
     exists tokens tokens',
       (@inference example_torch [[1; 0; -1]]%Z j example_world).1 = Ok tokens /\
       (@inference example_torch [[1; 0; -1]]%Z (j + 1)%Z example_world).1
       = Ok tokens' /\
       Forall2 (fun row row' => exists x, row' = row ++ [x]) tokens tokens').
Proof.
  apply (@decoder_length example_torch example_torch_laws 2 2 2 1 3
           [[1; 0; -1]]%Z 3 example_world (@inference example_torch));
    [by left|apply example_model_wf|lia|lia|lia|lia
    |apply example_state_shape|apply example_state_shape|simpl; lia|lia].
Defined.

(** C2, as stated, fails: with [max_len = 1025] the last decode step
    needs 1025 rows of the positional table, which has 1024, and
    [inference] raises instead of returning 1026 tokens. *)
Lemma inference_1025_raises :
  (@inference example_torch [[1; 0; -1]]%Z 1025 example_world).1
  = Raise RuntimeError.
Proof.
  apply (@_inference_too_long example_torch example_torch_laws 2 2 2 1 3);
    [apply example_model_wf|lia|lia|lia|lia
    |apply example_state_shape|apply example_state_shape|simpl; lia|].
  apply max_action_sel_selects. lia.
Qed.

Lemma inference_encodes_once_witness :
  exists new,
    calls (@_inference example_torch [[1; 0; -1]]%Z 3 max_action_sel example_world).2 =
      calls example_world ++
      CallBoardEmbed (not_mask_mul (get_mask [[1; 0; -1]]%Z (-1)) [[1; 0; -1]]%Z)
        :: new /\
    match (@_state_embed example_torch
             (not_mask_mul (get_mask [[1; 0; -1]]%Z (-1)) [[1; 0; -1]]%Z)
             example_world).1 with
    | Ok pos =>
        Forall (reuses pos) new /\
        (@_inference_reencode example_torch [[1; 0; -1]]%Z 3 max_action_sel
           example_world).1 =
        (@_inference example_torch [[1; 0; -1]]%Z 3 max_action_sel example_world).1 /\
        (forall memory,
           @transformer_encoder example_torch
             (transformer (self example_world)) pos
             (get_mask [[1; 0; -1]]%Z (-1)) = Ok memory ->
           (@_inference_encode_once example_torch [[1; 0; -1]]%Z 3 max_action_sel
              example_world).1 =
           (@_inference example_torch [[1; 0; -1]]%Z 3 max_action_sel
              example_world).1)
    | Raise _ => new = []
    end.
Proof.
  apply (@inference_encodes_once example_torch example_torch_laws
           [[1; 0; -1]]%Z 3 max_action_sel example_world).
  apply max_action_sel_generator_only.
Defined.

(** The small model with [pe] already on the device of the model. *)
Definition example_world_moved : @World example_torch :=
  @mkWorld example_torch (pe_to_device example_model) tt [].

Lemma inference_deterministic_witness :
  (@inference example_torch [[1; 0; -1]]%Z 3 example_world).1
  = (@inference example_torch [[1; 0; -1]]%Z 3 example_world_moved).1 /\
  (@inference example_torch [[1; 0; -1]]%Z 3
     (@inference example_torch [[1; 0; -1]]%Z 3 example_world).2).1
  = (@inference example_torch [[1; 0; -1]]%Z 3 example_world).1 /\
  (forall logits next,
     (@max_action_sel example_torch logits example_world).1 = Ok next ->
     Forall2 (fun (row : vec) (ids : list Z) =>
                exists i v,
                  ids = [Z.of_nat i] /\ row !! i = Some v /\
                  Forall (fun x => x <= v)%R row /\
                  forall j y, j < i -> row !! j = Some y -> (y < v)%R)
       logits next).
Proof.
  apply (@inference_deterministic example_torch [[1; 0; -1]]%Z 3
           example_world example_world_moved).
  reflexivity.
Defined.

Lemma positionalencoding1d_spec_witness :
  positionalencoding1d 2 3 = positionalencoding1d 2 3 /\
  if Z.odd 2 then positionalencoding1d 2 3 = Raise ValueError
  else
    exists pe,
      positionalencoding1d 2 3 = Ok pe /\
      length pe = Z.to_nat 3 /\
      forall p row, pe !! p = Some row ->
        length row = Z.to_nat 2 /\
        forall i, 2 * i < Z.to_nat 2 ->
          row !! (2 * i) =
            Some (sin (INR p * exp (INR (2 * i) * - (ln 10000 / IZR 2))))%R /\
          row !! (2 * i + 1) =
            Some (cos (INR p * exp (INR (2 * i) * - (ln 10000 / IZR 2))))%R.
Proof.
  apply (positionalencoding1d_spec 2 3 2 3); [reflexivity|reflexivity|right; lia].
Defined.

End model_examples.

(* ================================================================== *)
(** * Main results: the training loops *)
(* ================================================================== *)

Section train_results.
Import train.
Context {T : Trainer}.

Definition is_model_snapshot (c : list Entry) : bool :=
  match c with
  | [ModelSnapshot _] => true
  | _ => false
  end.

Definition is_opt_snapshot (c : list Entry) : bool :=
  match c with
  | [OptSnapshot _] => true
  | _ => false
  end.

(** The number of files whose content satisfies [P]. *)
Definition count_files (P : list Entry -> bool) (files : gmap string (list Entry))
  : nat :=
  size (filter (fun kv => P kv.2 = true) files).

(** There are [n] model snapshots and [n] optimizer snapshots. *)
Definition checkpoint_pairs (n : nat) (files : gmap string (list Entry)) : Prop :=
  count_files is_model_snapshot files = n /\
  count_files is_opt_snapshot files = n.

(** C5, as amended.  After [n] completed epochs of a run whose set-up
    returned and whose log file is not a checkpoint file, there is one
    model snapshot per epoch [e < n], at [model_path e], holding the
    parameters as they were when epoch [e] ended; these paths are
    pairwise different and different from [opt_path]; the one optimizer
    file [opt_path] holds the state of the optimizer after the last
    epoch (and is untouched when [n = 0]); and no other file than these
    and the log file was written. *)
Theorem checkpoints_after_epochs
    (dataloader : nat -> list Batch) (log_file_path : string)
    (load_model load_opt : option string) (s0 : State) (log_file : string)
    (n : nat) :
  (setup log_file_path load_model load_opt s0).1 = Ok log_file ->
  not_a_checkpoint log_file_path ->
  let after := after dataloader log_file_path load_model load_opt s0 in
  (main_epochs n dataloader log_file_path load_model load_opt s0).1 = Ok tt /\
  (forall e, e < n ->
     fs (after n) !! model_path e = Some [ModelSnapshot (model (after (S e)))]) /\
  (0 < n -> fs (after n) !! opt_path = Some [OptSnapshot (opt (after n))]) /\
  (n = 0 -> fs (after n) !! opt_path = fs s0 !! opt_path) /\
  NoDup (opt_path :: (model_path <$> seq 0 n)) /\
  (forall path,
     path <> log_file_path -> path <> opt_path ->
     (forall e, e < n -> path <> model_path e) ->
     fs (after n) !! path = fs s0 !! path).
Proof.
  intros Hsetup Hlog after.
  split; [by eapply main_epochs_returns|].
  split; [intros e He; by eapply after_model_snapshot|].
  split; [intros Hn; by eapply after_opt_snapshot|].
  split; [intros ->; by eapply after_0_opt_path|].
  split; [apply model_paths_NoDup|].
  intros path Hl Ho Hm. by eapply after_untouched.
Qed.

(** C10.  A run whose set-up returns, with or without artifacts to
    resume from, starts from an empty log file, whatever the file held
    before; every write appends one record to it; after any number of
    epochs it holds records only, and what it holds later extends what
    it held before. *)
Theorem log_truncated_then_appended
    (dataloader : nat -> list Batch) (log_file_path : string)
    (load_model load_opt : option string) (s0 : State) (log_file : string) :
  (setup log_file_path load_model load_opt s0).1 = Ok log_file ->
  not_a_checkpoint log_file_path ->
  let after := after dataloader log_file_path load_model load_opt s0 in
  log_file = log_file_path /\
  fs (after 0) !! log_file_path = Some [] /\
  (forall s r,
     fs (write log_file_path r s).2 !! log_file_path
     = Some (content log_file_path s ++ [Line r])) /\
  (forall n, exists recs,
     fs (after n) !! log_file_path = Some (Line <$> recs) /\
     forall k, exists more,
       fs (after (n + k)) !! log_file_path = Some (Line <$> (recs ++ more))).
Proof.
  intros Hsetup Hlog after.
  split; [by destruct (setup_ok _ _ _ _ _ Hsetup)|].
  split.
  { unfold after. erewrite after_0 by done.
    destruct (setup_ok _ _ _ _ _ Hsetup) as [_ ->]. by rewrite lookup_insert_eq. }
  split.
  { intros s r. unfold write, modify, set_fs, content. simpl.
    by rewrite lookup_insert_eq. }
  intros n.
  destruct (after_log dataloader log_file_path load_model load_opt s0 log_file
              Hsetup Hlog n) as [recs Hrecs].
  exists recs. split; [done|]. intros k. by eapply after_log_extends.
Qed.

End train_results.

(** ** The calls of a run, in order *)

Section controller_calls.
Import train_gpt.
Context {T : Trainer}.

(** An event without the values that it carries. *)
Inductive Kind : Set :=
| KEpoch
| KEval
| KTestOutput
| KSaveCheckpoint
| KTrain (epoch batch_idx : nat)
| KLoss (batch_idx : nat).

Definition kind (e : Event) : Kind :=
  match e with
  | LoggerEpoch => KEpoch
  | EvalFn => KEval
  | LoggerTestOutput _ => KTestOutput
  | LoggerSaveCheckpoint => KSaveCheckpoint
  | TrainFn e b => KTrain e b
  | LoggerLoss b _ _ => KLoss (Z.to_nat b)
  end.

(** The calls of one evaluation, of one batch and of one epoch. *)
Definition evaluation_kinds : list Kind := [KEval; KTestOutput; KSaveCheckpoint].

Definition batch_kinds (eval_freq : Z) (epoch batch_idx : nat) : list Kind :=
  [KTrain epoch batch_idx; KLoss batch_idx] ++
  (if due_in_code eval_freq batch_idx then evaluation_kinds else []).

Definition epoch_kinds (eval_freq : Z) (len epoch : nat) : list Kind :=
  KEpoch :: evaluation_kinds ++
  flat_map (batch_kinds eval_freq epoch) (seq 0 len) ++ evaluation_kinds.

Lemma batch_body_kinds self epoch batch_idx state s :
  eval_freq self <> 0%Z ->
  exists new,
    batch_body self epoch batch_idx state s =
      (Ok tt, (batch_body self epoch batch_idx state s).2) /\
    trace (batch_body self epoch batch_idx state s).2 = trace s ++ new /\
    map kind new = batch_kinds (eval_freq self) epoch batch_idx.
Proof.
  intros Hfreq.
  destruct (batch_body_run self epoch batch_idx state s Hfreq)
    as (s1 & loss & -> & Htrace).
  unfold batch_kinds. destruct (due_in_code _ _).
  - rewrite evaluate_run. cbn [fst snd trace]. rewrite Htrace.
    eexists. split; [done|]. split; [by rewrite <- app_assoc|].
    simpl. by rewrite Nat2Z.id.
  - unfold ret. cbn [fst snd]. rewrite Htrace.
    eexists. split; [done|]. split; [done|]. simpl. by rewrite Nat2Z.id.
Qed.

Lemma batches_kinds self epoch l i s :
  eval_freq self <> 0%Z ->
  exists new,
    for_enumerate i l (batch_body self epoch) s =
      (Ok tt, (for_enumerate i l (batch_body self epoch) s).2) /\
    trace (for_enumerate i l (batch_body self epoch) s).2 = trace s ++ new /\
    map kind new = flat_map (batch_kinds (eval_freq self) epoch) (seq i (length l)).
Proof.
  intros Hfreq. revert i s. induction l as [|b l IH]; intros i s.
  - exists []. simpl. by rewrite app_nil_r.
  - destruct (batch_body_kinds self epoch i b s Hfreq) as (n1 & Hrun & Ht1 & Hk1).
    cbn [for_enumerate]. rewrite (bind_run _ _ _ _ _ Hrun).
    destruct (IH (S i) (batch_body self epoch i b s).2) as (n2 & Hrun2 & Ht2 & Hk2).
    exists (n1 ++ n2). split; [done|]. split.
    + by rewrite Ht2, Ht1, app_assoc.
    + cbn [length seq flat_map]. by rewrite map_app, Hk1, Hk2.
Qed.

Lemma epoch_body_kinds self epoch s :
  eval_freq self <> 0%Z ->
  exists new,
    epoch_body self epoch s = (Ok tt, (epoch_body self epoch s).2) /\
    trace (epoch_body self epoch s).2 = trace s ++ new /\
    map kind new = epoch_kinds (eval_freq self) (length (train_dl self)) epoch.
Proof.
  intros Hfreq. rewrite epoch_body_unfold. set (s1 := mkState _ _ _).
  destruct (batches_kinds self epoch (train_dl self) 0 s1 Hfreq)
    as (n1 & Hrun & Ht1 & Hk1).
  rewrite (bind_run _ _ _ _ _ Hrun), evaluate_run. cbn [fst snd trace].
  rewrite Ht1. unfold s1. cbn [trace].
  eexists. split; [done|]. split.
  - rewrite <- !app_assoc. reflexivity.
  - rewrite !map_app, Hk1. reflexivity.
Qed.

Lemma epochs_kinds self l i s :
  eval_freq self <> 0%Z ->
  exists new,
    for_enumerate i l (fun _ e => epoch_body self e) s =
      (Ok tt, (for_enumerate i l (fun _ e => epoch_body self e) s).2) /\
    trace (for_enumerate i l (fun _ e => epoch_body self e) s).2 = trace s ++ new /\
    map kind new
    = flat_map (epoch_kinds (eval_freq self) (length (train_dl self))) l.
Proof.
  intros Hfreq. revert i s. induction l as [|e l IH]; intros i s.
  - exists []. simpl. by rewrite app_nil_r.
  - destruct (epoch_body_kinds self e s Hfreq) as (n1 & Hrun & Ht1 & Hk1).
    cbn [for_enumerate]. rewrite (bind_run _ _ _ _ _ Hrun).
    destruct (IH (S i) (epoch_body self e s).2) as (n2 & Hrun2 & Ht2 & Hk2).
    exists (n1 ++ n2). split; [done|]. split.
    + by rewrite Ht2, Ht1, app_assoc.
    + cbn [flat_map]. by rewrite map_app, Hk1, Hk2.
Qed.

(** The calls of a whole run, in order. *)
Lemma __call___kinds self s :
  eval_freq self <> 0%Z ->
  exists new,
    trace (__call__ self s).2 = trace s ++ new /\
    map kind new
    = flat_map (epoch_kinds (eval_freq self) (length (train_dl self)))
        (seq 0 (Z.to_nat (epochs self))).
Proof.
  intros Hfreq. unfold __call__, for_in_range.
  destruct (epochs_kinds self (seq 0 (Z.to_nat (epochs self))) 0 s Hfreq)
    as (new & _ & Ht & Hk).
  by exists new.
Qed.


(** The next call of the evaluation function or of the training function
    along [ks]: [Some true] when it is an evaluation, [Some false] when
    it is a training step, [None] when there is no such call. *)
Fixpoint next_call (ks : list Kind) : option bool :=
  match ks with
  | [] => None
  | KEval :: _ => Some true
  | KTrain _ _ :: _ => Some false
  | _ :: ks' => next_call ks'
  end.

(** Along [ks], the start of every epoch is followed by an evaluation,
    and the training step at batch index [b] is followed by an
    evaluation if [follows b] and by a training step if not. *)
Fixpoint exact_schedule (follows : nat -> bool) (ks : list Kind) : bool :=
  match ks with
  | [] => true
  | KEpoch :: ks' =>
      bool_decide (next_call ks' = Some true) && exact_schedule follows ks'
  | KTrain _ b :: ks' =>
      bool_decide (next_call ks' = Some (follows b)) && exact_schedule follows ks'
  | _ :: ks' => exact_schedule follows ks'
  end.

(** The batch indices after which an evaluation follows: those at which
    one is due, and the last one of the epoch. *)
Definition evaluated_after (eval_freq : Z) (len batch_idx : nat) : bool :=
  due_in_code eval_freq batch_idx || (S batch_idx =? len).

Lemma next_call_app ks ks' x :
  next_call ks = Some x -> next_call (ks ++ ks') = Some x.
Proof. induction ks as [|[] ks IH]; simpl; auto; done. Qed.

Lemma exact_schedule_app follows ks ks' :
  exact_schedule follows ks = true -> exact_schedule follows ks' = true ->
  exact_schedule follows (ks ++ ks') = true.
Proof.
  intros Hks Hks'. induction ks as [|k ks IH]; [done|].
  destruct k; simpl in *; auto.
  - apply andb_prop in Hks as [Hn He]. apply bool_decide_eq_true in Hn.
    rewrite (next_call_app _ _ _ Hn), bool_decide_true by done. by apply IH.
  - apply andb_prop in Hks as [Hn He]. apply bool_decide_eq_true in Hn.
    rewrite (next_call_app _ _ _ Hn), bool_decide_true by done. by apply IH.
Qed.

Lemma next_call_events (t : list Event) x :
  next_call (map kind t) = Some x -> next_is_eval t = x.
Proof.
  induction t as [|e t IH]; [done|]. destruct e; simpl; auto; congruence.
Qed.

Lemma exact_schedule_events follows (t : list Event) :
  exact_schedule follows (map kind t) = true ->
  (forall pre post, t = pre ++ LoggerEpoch :: post -> next_is_eval post = true) /\
  (forall pre e b post,
     t = pre ++ TrainFn e b :: post -> next_is_eval post = follows b).
Proof.
  intros Hex. split.
  - intros pre post ->. induction pre as [|x pre IH].
    + simpl in Hex. apply andb_prop in Hex as [Hn _].
      apply bool_decide_eq_true in Hn. by apply next_call_events.
    + apply IH. destruct x; simpl in Hex; try done;
        by apply andb_prop in Hex as [_ ?].
  - intros pre e b post ->. induction pre as [|x pre IH].
    + simpl in Hex. apply andb_prop in Hex as [Hn _].
      apply bool_decide_eq_true in Hn. by apply next_call_events.
    + apply IH. destruct x; simpl in Hex; try done;
        by apply andb_prop in Hex as [_ ?].
Qed.

Lemma batches_exact f epoch len n i :
  i + n = len ->
  exact_schedule (evaluated_after f len)
    (flat_map (batch_kinds f epoch) (seq i n) ++ evaluation_kinds) = true.
Proof.
  revert i. induction n as [|n IH]; intros i Hlen; [done|].
  cbn [seq flat_map]. rewrite <- app_assoc.
  specialize (IH (S i) ltac:(lia)).
  unfold batch_kinds at 1. cbn [app exact_schedule next_call].
  apply andb_true_intro. split.
  - apply bool_decide_eq_true. unfold evaluated_after.
    destruct (due_in_code f i); [done|]. cbn [orb app].
    destruct n as [|n];
      cbn [seq flat_map app next_call evaluation_kinds batch_kinds].
    + f_equal. symmetry. apply Nat.eqb_eq. lia.
    + f_equal. symmetry. apply Nat.eqb_neq. lia.
  - destruct (due_in_code f i); [|exact IH]. exact IH.
Qed.

Lemma epochs_exact f len (l : list nat) :
  exact_schedule (evaluated_after f len) (flat_map (epoch_kinds f len) l) = true.
Proof.
  induction l as [|e l IH]; [done|]. cbn [flat_map].
  apply exact_schedule_app; [|exact IH].
  unfold epoch_kinds. cbn [evaluation_kinds app exact_schedule next_call].
  rewrite bool_decide_true by done. apply (batches_exact f e len len 0). lia.
Qed.

(** A run follows the schedule exactly. *)
Lemma __call___exact self s :
  eval_freq self <> 0%Z ->
  exists new,
    trace (__call__ self s).2 = trace s ++ new /\
    exact_schedule (evaluated_after (eval_freq self) (length (train_dl self)))
      (map kind new) = true.
Proof.
  intros Hfreq. destruct (__call___kinds self s Hfreq) as (new & Ht & Hk).
  exists new. split; [done|]. rewrite Hk. apply epochs_exact.
Qed.

End controller_calls.

Section schedule_results.
Import train_gpt.
Context {T : Trainer}.

(** C6, as amended.  A run of the controller of [train/gpt.py] with
    [eval_freq <> 0] returns; it starts [epochs] epochs; the start of
    every epoch is followed by an evaluation before the first training
    step; every training step at a positive batch index divisible by
    [eval_freq] is followed by an evaluation before the next training
    step; and a training step is followed by an evaluation before the
    next training step exactly when its batch index is positive and
    divisible by [eval_freq] or it is the last step of its epoch, after
    which the evaluation that ends the epoch runs: the step at batch
    index 0 is so followed exactly when the epoch has one batch.  An
    epoch of the loop of [train.py], which has no [eval_freq], logs one
    evaluation, first, and then one training step per batch. *)
Theorem evaluation_schedule (self : GPTTrainingContext) (s : State) :
  eval_freq self <> 0%Z ->
  (__call__ self s).1 = Ok tt /\
  (exists new,
     trace (__call__ self s).2 = trace s ++ new /\
     epoch_starts new = Z.to_nat (epochs self) /\
     (forall pre post,
        new = pre ++ LoggerEpoch :: post -> next_is_eval post = true) /\
     (forall pre e b post,
        new = pre ++ TrainFn e b :: post ->
        0 < b -> (Z.of_nat b mod eval_freq self = 0)%Z ->
        next_is_eval post = true) /\
     (forall pre e b post,
        new = pre ++ TrainFn e b :: post ->
        next_is_eval post = true <->
        (0 < b /\ (Z.of_nat b mod eval_freq self = 0)%Z) \/
        S b = length (train_dl self)) /\
     (forall pre e post,
        new = pre ++ TrainFn e 0 :: post ->
        next_is_eval post = true <-> length (train_dl self) = 1)) /\
  (forall dataloader log_file epoch (s' : train.State),
     log_file <> train.opt_path -> log_file <> train.model_path epoch ->
     exists t acc trains,
       content log_file (train.epoch_body dataloader log_file epoch s').2 =
       content log_file s' ++
       train.Line (train.TEST (Z.of_nat epoch - 1) t acc)
         :: (train.Line <$> trains) /\
       Forall2 (fun r j => exists t loss,
                  r = train.TRAIN (Z.of_nat epoch) (Z.of_nat j) t loss)
         trains (seq 0 (length (dataloader epoch)))).
Proof.
  intros Hfreq. unfold __call__.
  destruct (for_in_range_epochs self (Z.to_nat (epochs self)) s Hfreq)
    as (new & Hrun & Htrace & Hfollows & Hstarts).
  split; [by rewrite Hrun|]. split; [|by apply epoch_body_log].
  exists new. split; [done|]. split; [done|].
  destruct (follows_schedule_spec _ _ Hfollows) as [Hepoch Htrain].
  split; [done|]. split.
  { intros pre e b post Hnew Hb Hmod.
    apply (Htrain pre e b post Hnew). unfold due_in_code.
    apply andb_true_intro. split; [by apply Z.eqb_eq|apply Z.gtb_lt; lia]. }
  destruct (__call___exact self s Hfreq) as (new' & Htrace' & Hexact).
  unfold __call__ in Htrace'. rewrite Htrace in Htrace'.
  apply app_inv_head in Htrace' as <-.
  destruct (exact_schedule_events _ _ Hexact) as [_ Hiff].
  assert (forall pre e b post,
            new = pre ++ TrainFn e b :: post ->
            next_is_eval post = true <->
            (0 < b /\ (Z.of_nat b mod eval_freq self = 0)%Z) \/
            S b = length (train_dl self)) as Hstep.
  { intros pre e b post Hnew. rewrite (Hiff pre e b post Hnew).
    unfold evaluated_after, due_in_code.
    rewrite orb_true_iff, andb_true_iff, Z.eqb_eq, Nat.eqb_eq.
    rewrite <- Zgt_is_gt_bool. lia. }
  split; [exact Hstep|].
  intros pre e post Hnew. rewrite (Hstep pre e 0 post Hnew). lia.
Qed.

End schedule_results.

(* ================================================================== *)
(** * The main results about the training loops, on a small run *)
(* ================================================================== *)

(** A trainer whose parameters count the gradient steps. *)
Definition example_trainer : Trainer := {|
  Params := nat;
  OptState := nat;
  Batch := unit;
  Scalar := nat;
  time_at := fun k => k;
  init_params := 0;
  init_opt := fun _ => 0;
  eval_model := fun p => (p, p);
  train_step := fun p o _ => (S p, S o, p);
  backward_step := fun _ p o _ => (S p, S o)
|}.

Section train_examples.
Import train.

(** A directory with the artifacts and the log of an earlier run. *)
Definition example_files : gmap string (list (@Entry example_trainer)) :=
  {[ "log.txt" := [@Line example_trainer (@TEST example_trainer (-1) 0 0)];
     "model_0.pth" := [@ModelSnapshot example_trainer 5];
     "opt.pth" := [@OptSnapshot example_trainer 5] ]}.

Definition example_state : @State example_trainer :=
  @mkState example_trainer example_files 0 0 0 [].

(** An empty directory. *)
Definition example_fresh_state : @State example_trainer :=
  @mkState example_trainer ∅ 0 0 0 [].

Lemma example_log_not_a_checkpoint : not_a_checkpoint "log.txt".
Proof. split; [done|]. intros e. unfold model_path. simpl. discriminate. Qed.

Lemma checkpoints_after_epochs_witness :
  let after := @after example_trainer (fun _ => [tt]) "log.txt"
                 (Some "model_0.pth") (Some "opt.pth") example_state in
  (@main_epochs example_trainer 2 (fun _ => [tt]) "log.txt"
     (Some "model_0.pth") (Some "opt.pth") example_state).1 = Ok tt /\
  (forall e, e < 2 ->
     fs (after 2) !! model_path e = Some [ModelSnapshot (model (after (S e)))]) /\
  (0 < 2 -> fs (after 2) !! opt_path = Some [OptSnapshot (opt (after 2))]) /\
  (2 = 0 -> fs (after 2) !! opt_path = fs example_state !! opt_path) /\
  NoDup (opt_path :: (model_path <$> seq 0 2)) /\
  (forall path,
     path <> "log.txt" -> path <> opt_path ->
     (forall e, e < 2 -> path <> model_path e) ->
     fs (after 2) !! path = fs example_state !! path).
Proof.
  apply (@checkpoints_after_epochs example_trainer (fun _ => [tt]) "log.txt"
           (Some "model_0.pth") (Some "opt.pth") example_state "log.txt" 2);
    [reflexivity|apply example_log_not_a_checkpoint].
Defined.

(** C5, as stated, fails: after two epochs in an empty directory there
    are two model snapshots and one optimizer snapshot, not two pairs. *)
Lemma two_epochs_one_optimizer_snapshot :
  let files := fs (@after example_trainer (fun _ => [tt]) "log.txt" None None
                     example_fresh_state 2) in
  count_files is_model_snapshot files = 2 /\
  count_files is_opt_snapshot files = 1 /\
  ~ checkpoint_pairs 2 files.
Proof.
  assert (count_files is_opt_snapshot
            (fs (@after example_trainer (fun _ => [tt]) "log.txt" None None
                   example_fresh_state 2)) = 1) as Hopt by (by vm_compute).
  split; [by vm_compute|]. split; [done|].
  intros [_ Hpairs]. rewrite Hopt in Hpairs. discriminate.
Qed.

Lemma log_truncated_then_appended_witness :
  let after := @after example_trainer (fun _ => [tt]) "log.txt"
                 (Some "model_0.pth") (Some "opt.pth") example_state in
  "log.txt" = "log.txt" /\
  fs (after 0) !! "log.txt" = Some [] /\
  (forall s r,
     fs (@write example_trainer "log.txt" r s).2 !! "log.txt"
     = Some (content "log.txt" s ++ [Line r])) /\
  (forall n, exists recs,
     fs (after n) !! "log.txt" = Some (Line <$> recs) /\
     forall k, exists more,
       fs (after (n + k)) !! "log.txt" = Some (Line <$> (recs ++ more))).
Proof.
  apply (@log_truncated_then_appended example_trainer (fun _ => [tt]) "log.txt"
           (Some "model_0.pth") (Some "opt.pth") example_state "log.txt");
    [reflexivity|apply example_log_not_a_checkpoint].
Defined.

End train_examples.

Section schedule_examples.
Import train_gpt.

(** One epoch over two batches, with an evaluation every second batch. *)
Definition example_context : @GPTTrainingContext example_trainer :=
  @mkGPTTrainingContext example_trainer
    (fun p _ _ => (p, p)) (fun p _ => p) [tt; tt] [] 1 2.

Definition example_start : @State example_trainer :=
  @mkState example_trainer 0 0 [].

(** Two epochs over five batches, with an evaluation every second batch:
    the steps at the batch indices 2 and 4 are the periodic ones. *)
Definition example_periodic_context : @GPTTrainingContext example_trainer :=
  @mkGPTTrainingContext example_trainer
    (fun p _ _ => (p, p)) (fun p _ => p) [tt; tt; tt; tt; tt] [] 2 2.

(** The calls of the first epoch of this run: an evaluation follows the
    start of the epoch and the steps 2 and 4, and one ends the epoch. *)
Example example_periodic_epoch :
  epoch_kinds (eval_freq example_periodic_context)
    (length (train_dl example_periodic_context)) 0
  = [KEpoch; KEval; KTestOutput; KSaveCheckpoint;
     KTrain 0 0; KLoss 0;
     KTrain 0 1; KLoss 1;
     KTrain 0 2; KLoss 2; KEval; KTestOutput; KSaveCheckpoint;
     KTrain 0 3; KLoss 3;
     KTrain 0 4; KLoss 4; KEval; KTestOutput; KSaveCheckpoint;
     KEval; KTestOutput; KSaveCheckpoint].
Proof. reflexivity. Qed.

Example example_periodic_calls :
  map (@kind example_trainer)
    (trace (@__call__ example_trainer example_periodic_context example_start).2)
  = epoch_kinds 2 5 0 ++ epoch_kinds 2 5 1.
Proof. reflexivity. Qed.

Lemma evaluation_schedule_witness :
  (@__call__ example_trainer example_periodic_context example_start).1 = Ok tt /\
  (exists new,
     trace (@__call__ example_trainer example_periodic_context example_start).2
     = trace example_start ++ new /\
     epoch_starts new = Z.to_nat (epochs example_periodic_context) /\
     (forall pre post,
        new = pre ++ LoggerEpoch :: post -> next_is_eval post = true) /\
     (forall pre e b post,
        new = pre ++ TrainFn e b :: post ->
        0 < b -> (Z.of_nat b mod eval_freq example_periodic_context = 0)%Z ->
        next_is_eval post = true) /\
     (forall pre e b post,
        new = pre ++ TrainFn e b :: post ->
        next_is_eval post = true <->
        (0 < b /\ (Z.of_nat b mod eval_freq example_periodic_context = 0)%Z) \/
        S b = length (train_dl example_periodic_context)) /\
     (forall pre e post,
        new = pre ++ TrainFn e 0 :: post ->
        next_is_eval post = true <->
        length (train_dl example_periodic_context) = 1)) /\
  (forall dataloader log_file epoch (s' : @train.State example_trainer),
     log_file <> train.opt_path -> log_file <> train.model_path epoch ->
     exists t acc trains,
       content log_file (train.epoch_body dataloader log_file epoch s').2 =
       content log_file s' ++
       train.Line (train.TEST (Z.of_nat epoch - 1) t acc)
         :: (train.Line <$> trains) /\
       Forall2 (fun r j => exists t loss,
                  r = train.TRAIN (Z.of_nat epoch) (Z.of_nat j) t loss)
         trains (seq 0 (length (dataloader epoch)))).
Proof.
  apply (@evaluation_schedule example_trainer example_periodic_context
           example_start).
  discriminate.
Defined.

(** C6, as stated, fails: the training step at batch index 0, which
    every [eval_freq] divides, is followed by the training step at batch
    index 1 with no evaluation in between. *)
Lemma first_batch_not_followed_by_evaluation :
  exists pre post,
    trace (@__call__ example_trainer example_context example_start).2
    = pre ++ TrainFn 0 0 :: post /\
    divisible (eval_freq example_context) 0 = true /\
    next_is_eval post = false.
Proof.
  exists [LoggerEpoch; EvalFn; @LoggerTestOutput example_trainer (0, 0);
          LoggerSaveCheckpoint].
  eexists. split; [reflexivity|]. split; reflexivity.
Qed.

End schedule_examples.

(* ================================================================== *)
(** * Further properties of the model *)
(* ================================================================== *)

Section exception_facts.

Lemma rmapM_raise_inv {A B} (f : A -> result B) l e :
  rmapM f l = Raise e -> exists x, x ∈ l /\ f x = Raise e.
Proof.
  induction l as [|a l IH]; simpl; [done|].
  destruct (f a) as [y|e'] eqn:Ha; simpl.
  - destruct (rmapM f l) as [ys|e'']; simpl; [done|].
    intros [= ->]. destruct IH as (x & Hx & Hfx); [done|].
    exists x. split; [by apply list_elem_of_further|done].
  - intros [= ->]. exists a. split; [apply list_elem_of_here|done].
Qed.

(** When every exception that [f] raises on [l] is [e], and [f] raises
    on some element, then [rmapM f l] raises [e]. *)
Lemma rmapM_raise {A B} (f : A -> result B) l e x :
  x ∈ l -> f x = Raise e ->
  (forall y e', y ∈ l -> f y = Raise e' -> e' = e) ->
  rmapM f l = Raise e.
Proof.
  intros Hx Hfx Hall. destruct (rmapM f l) as [ys|e'] eqn:Hrun.
  - apply rmapM_ok_inv in Hrun.
    apply list_elem_of_lookup in Hx as [i Hi].
    destruct (Forall2_lookup_l _ _ _ _ _ Hrun Hi) as (y & _ & Hy). congruence.
  - apply rmapM_raise_inv in Hrun as (y & Hy & Hfy). f_equal. by eapply Hall.
Qed.

Lemma embedding_lookup_raise (table : list vec) id e :
  embedding_lookup table id = Raise e -> e = IndexError.
Proof.
  unfold embedding_lookup. destruct (id <? 0)%Z; [congruence|].
  destruct (table !! Z.to_nat id); congruence.
Qed.

Lemma embedding_lookup_unknown (table : list vec) id :
  ~ (0 <= id < Z.of_nat (length table))%Z ->
  embedding_lookup table id = Raise IndexError.
Proof.
  intros Hid. unfold embedding_lookup. destruct (Z.ltb_spec id 0); [done|].
  rewrite lookup_ge_None_2; [done|lia].
Qed.

(** A lookup of a batch of ids of which one is not a row of the table
    raises [IndexError]. *)
Lemma embedding_unknown (table : list vec) (ids : tensor2) row x :
  row ∈ ids -> x ∈ row -> ~ (0 <= x < Z.of_nat (length table))%Z ->
  embedding table ids = Raise IndexError.
Proof.
  intros Hrow Hx Hid. unfold embedding.
  apply (rmapM_raise _ _ _ row Hrow).
  - apply (rmapM_raise _ _ _ x Hx); [by apply embedding_lookup_unknown|].
    intros y e' _ He. by eapply embedding_lookup_raise.
  - intros y e' _ He. apply rmapM_raise_inv in He as (z & _ & He).
    by eapply embedding_lookup_raise.
Qed.

End exception_facts.

Section model_further.
Import model.

(** The masked tensor holds every id other than the sentinel as it is. *)
Lemma not_mask_mul_keeps (t : tensor2) row x :
  row ∈ t -> x ∈ row -> x <> (-1)%Z ->
  exists row', row' ∈ not_mask_mul (get_mask t (-1)) t /\ x ∈ row'.
Proof.
  intros Hrow Hx Hne.
  apply list_elem_of_lookup in Hrow as [i Hi].
  apply list_elem_of_lookup in Hx as [j Hj].
  pose proof (not_mask_mul_lookup t i j x) as Hl.
  rewrite Hi in Hl. simpl in Hl. specialize (Hl Hj).
  rewrite decide_False in Hl by done.
  destruct (not_mask_mul (get_mask t (-1)) t !! i) as [row'|] eqn:Hi'; [|done].
  exists row'. split; [by eapply list_elem_of_lookup_2|].
  simpl in Hl. by eapply list_elem_of_lookup_2.
Qed.

Lemma _state_embed_unknown {T : Torch} (state : tensor2) row x w :
  row ∈ state -> x ∈ row ->
  ~ (0 <= x < Z.of_nat (length (board_embed (self w))))%Z ->
  _state_embed state w = (Raise IndexError, with_call w (CallBoardEmbed state)).
Proof.
  intros Hrow Hx Hid. rewrite _state_embed_run.
  by rewrite (embedding_unknown _ _ row x Hrow Hx Hid).
Qed.

(** X1.  An id of the state that is neither the padding sentinel nor a
    row of the board embedding makes [forward], [inference] and [sample]
    of a model on the CPU raise [IndexError], at the first sub-module
    call: the transformer is not run. *)
Theorem unknown_state_id_raises {T : Torch}
    (state action : tensor2) (max_len : Z) (row : list Z) (x : Z) (w : World) :
  device (self w) = cpu ->
  row ∈ state -> x ∈ row -> x <> (-1)%Z ->
  ~ (0 <= x < Z.of_nat (length (board_embed (self w))))%Z ->
  (forward state action w).1 = Raise IndexError /\
  (inference state max_len w).1 = Raise IndexError /\
  (sample state max_len w).1 = Raise IndexError /\
  count_transformer (calls (forward state action w).2)
  = count_transformer (calls w) /\
  count_transformer (calls (inference state max_len w).2)
  = count_transformer (calls w).
Proof.
  intros _ Hrow Hx Hne Hid.
  destruct (not_mask_mul_keeps state row x Hrow Hx Hne) as (row' & Hrow' & Hx').
  pose proof (_state_embed_unknown _ row' x w Hrow' Hx' Hid) as Hrun.
  unfold inference, sample, _inference, forward.
  rewrite !(bind_run_raise _ _ _ _ _ Hrun). simpl.
  rewrite count_transformer_app. change (count_transformer [_]) with 0.
  repeat split; lia.
Qed.

End model_further.

Section positional_encoding_further.
Import model.

Lemma take_assign_columns n start step (vals pe : list vec) :
  take n (assign_columns start step vals pe)
  = assign_columns start step (take n vals) (take n pe).
Proof.
  unfold assign_columns. revert vals pe.
  induction n as [|n IH]; intros [|v vals] [|r pe]; simpl; try done.
  by rewrite IH.
Qed.

Lemma take_map_seq {A} (f : nat -> A) n m :
  n <= m -> take n (map f (seq 0 m)) = map f (seq 0 n).
Proof.
  intros Hn. rewrite <- fmap_take. f_equal. by rewrite take_seq, Nat.min_l.
Qed.

(** X2.  The table for a shorter length is the beginning of the table
    for a longer one: the slice [pe[:n]] that [_encode_position] takes
    of the table of 1024 rows is the encoding of [n] positions. *)
Theorem positionalencoding1d_prefix (d len n : Z) (pe : list vec) :
  positionalencoding1d d len = Ok pe ->
  (0 <= n <= len)%Z ->
  positionalencoding1d d n = Ok (take (Z.to_nat n) pe).
Proof.
  unfold positionalencoding1d. intros Hpe Hn.
  destruct (negb (d mod 2 =? 0)%Z); [done|].
  destruct (Z.ltb_spec len 0); [lia|]. destruct (Z.ltb_spec n 0); [lia|].
  destruct (d <? 0)%Z; [done|]. simpl in *.
  destruct (d =? 0)%Z; [done|]. injection Hpe as <-. f_equal.
  rewrite !take_assign_columns, !arange_unit, !take_map_seq by lia.
  by rewrite take_replicate, Nat.min_l by lia.
Qed.

(** The arguments for which a table is returned. *)
Lemma positionalencoding1d_returns (d len : Z) (pe : list vec) :
  positionalencoding1d d len = Ok pe ->
  (0 < d)%Z /\ (d mod 2 = 0)%Z /\ (0 <= len)%Z.
Proof.
  unfold positionalencoding1d. intros Hpe.
  destruct (Z.eqb_spec (d mod 2) 0); [|done]. simpl in Hpe.
  destruct (Z.ltb_spec len 0); [done|]. destruct (Z.ltb_spec d 0); [done|].
  simpl in Hpe. destruct (Z.eqb_spec d 0); [done|]. lia.
Qed.

Lemma positionalencoding1d_zero (len : Z) :
  (0 <= len)%Z -> positionalencoding1d 0 len = Raise ZeroDivisionError.
Proof.
  intros Hlen. unfold positionalencoding1d.
  destruct (Z.ltb_spec len 0); [lia|]. done.
Qed.

(** X3.  Every entry of the table lies between -1 and 1, and the row of
    position 0 holds 0 in its even and 1 in its odd columns. *)
Theorem positionalencoding1d_bounded (d len : Z) (pe : list vec) :
  positionalencoding1d d len = Ok pe ->
  (forall p row j x, pe !! p = Some row -> row !! j = Some x ->
     (-1 <= x <= 1)%R) /\
  (forall row j x, pe !! 0 = Some row -> row !! j = Some x ->
     x = if Nat.even j then 0%R else 1%R).
Proof.
  intros Hpe.
  destruct (positionalencoding1d_returns d len pe Hpe) as (Hd & Hev & Hlen).
  destruct (positionalencoding1d_ok d len Hd Hev Hlen) as (pe' & Hpe' & _ & Hrows).
  rewrite Hpe in Hpe'. injection Hpe' as <-.
  assert (forall p row j x, pe !! p = Some row -> row !! j = Some x ->
            exists a, x = sin (INR p * a)%R /\ Nat.even j = true \/
                      x = cos (INR p * a)%R /\ Nat.even j = false) as Hentry.
  { intros p row j x Hrow Hx. destruct (Hrows p row Hrow) as [Hw Hcols].
    pose proof (lookup_lt_Some _ _ _ Hx) as Hj.
    destruct (Nat.Even_or_Odd j) as [[i ->]|[i ->]].
    - destruct (Hcols i) as [Hs _]; [lia|]. rewrite Hs in Hx. injection Hx as <-.
      eexists. left. split; [done|]. by rewrite Nat.even_mul.
    - destruct (Hcols i) as [_ Hc]; [lia|]. rewrite Hc in Hx. injection Hx as <-.
      eexists. right. split; [done|].
      by rewrite Nat.add_1_r, Nat.even_succ, Nat.odd_mul. }
  split.
  - intros p row j x Hrow Hx.
    destruct (Hentry p row j x Hrow Hx) as [a [[-> _]|[-> _]]].
    + apply SIN_bound.
    + apply COS_bound.
  - intros row j x Hrow Hx.
    destruct (Hentry 0 row j x Hrow Hx) as [a [[-> ->]|[-> ->]]]; simpl;
      rewrite Rmult_0_l; [apply sin_0|apply cos_0].
Qed.

End positional_encoding_further.

Section decoder_further.
Import model.
Context {T : Torch} {L : @TorchLaws T}.

Lemma for_range_add n m body (tokens : tensor2) (w : World) :
  for_range (n + m) body tokens w
  = (tokens' <- for_range n body tokens ;; for_range m body tokens') w.
Proof.
  revert tokens w. induction n as [|n IH]; intros tokens w; simpl.
  - unfold bind, ret. done.
  - rewrite bind_assoc. destruct (body tokens w) as [[t|e] w1] eqn:Hb.
    + rewrite !(bind_run _ _ _ _ _ Hb). apply IH.
    + by rewrite !(bind_run_raise _ _ _ _ _ Hb).
Qed.

(** X4.  For every [max_len] above the 1024 rows of the positional
    table, [inference] and [sample] raise [RuntimeError], and only at
    step 1025: the transformer was run 1024 times before. *)
Theorem decoder_beyond_positional_table
    (w_in w_out : nat) (emb_dim : Z) (b n : nat)
    (state : tensor2) (max_len : Z) (w : World)
    (decode : tensor2 -> Z -> M tensor2) :
  decode = inference \/ decode = sample ->
  wf_model w_in w_out emb_dim (self w) ->
  0 < w_in -> 0 < w_out -> 0 < b -> 1 <= n <= 1024 ->
  shape2 b n state -> in_vocab_or_padding w_in state ->
  (0 <= start_token (self w) < Z.of_nat w_out)%Z ->
  (1024 < max_len)%Z ->
  (decode state max_len w).1 = Raise RuntimeError /\
  count_transformer (calls (decode state max_len w).2)
  = count_transformer (calls w) + 1024.
Proof.
  intros Hdecode Hwf Hwin Hwout Hb Hn Hs Hv Hstart Hmax.
  assert (exists action_sel,
            decode = (fun s k => _inference s k action_sel) /\
            selects w_out action_sel) as (action_sel & -> & Hsel).
  { destruct Hdecode as [->| ->].
    - exists max_action_sel. split; [done|by apply max_action_sel_selects].
    - exists sample_action_sel. split; [done|by apply sample_action_sel_selects]. }
  destruct (_inference_ok w_in w_out emb_dim b n state 1024 action_sel w)
    as (pos & tokens & w1 & w' & Hrun & Hpos & Hwf1 & Hst & Hloop & _ & Hshape
        & Hvoc & _ & Hsame & Hcount); [done|done|done|done|done|done|done|done|lia|done|].
  assert (wf_model w_in w_out emb_dim (self w')) as Hwf'
    by (by eapply wf_model_same_attributes).
  assert (_action_embed tokens w'
          = (Raise RuntimeError, moved (with_call w' (CallMoveEmbed tokens))))
    as Hraise.
  { rewrite _action_embed_run.
    destruct Hshape as [Htb Htn].
    destruct (embedding_ok (move_embed (self w')) b (Z.to_nat 1024 + 1) tokens)
      as (e & -> & Heb & Hek);
      [done|by rewrite (wf_move_embed _ _ _ _ Hwf')|].
    destruct e as [|row e]; [simpl in Heb; lia|]. simpl map.
    rewrite add_positions_too_long; [reflexivity|].
    apply Forall_cons in Hek as [Hrow _]. rewrite length_map, Hrow.
    destruct (wf_pe_shape w_in w_out emb_dim _ Hwf') as [-> _]. lia. }
  assert (_inference state max_len action_sel w
          = (Raise RuntimeError, moved (with_call w' (CallMoveEmbed tokens))))
    as ->.
  { unfold _inference.
    rewrite (bind_run _ _ _ _ _ Hrun).
    rewrite (bind_run (asks start_token) _ w1 (start_token (self w1)) w1)
      by reflexivity.
    rewrite Hst. destruct Hs as [Hsb Hsn]. rewrite Hsb.
    replace (Z.to_nat max_len)
      with (Z.to_nat 1024 + S (Z.to_nat max_len - 1025)) by lia.
    rewrite for_range_add, (bind_run _ _ _ _ _ Hloop).
    cbn [for_range]. unfold decode_step.
    by rewrite (bind_run_raise _ _ _ _ _ (bind_run_raise _ _ _ _ _ Hraise)). }
  simpl. rewrite count_transformer_app. change (count_transformer [_]) with 0.
  split; [done|]. rewrite Hcount. lia.
Qed.

(** X5.  What [inference] and [sample] return is a batch of ids of the
    output vocabulary, and [forward] accepts it as the action for the
    same state: it returns [max_len] distributions per batch element,
    one for each generated token. *)
Theorem forward_accepts_decoded
    (w_in w_out : nat) (emb_dim : Z) (b n : nat)
    (state : tensor2) (max_len : Z) (w : World)
    (decode : tensor2 -> Z -> M tensor2) :
  decode = inference \/ decode = sample ->
  wf_model w_in w_out emb_dim (self w) ->
  0 < w_in -> 0 < w_out -> 0 < b -> 1 <= n <= 1024 ->
  shape2 b n state -> in_vocab_or_padding w_in state ->
  (0 <= start_token (self w) < Z.of_nat w_out)%Z ->
  (0 <= max_len < 1024)%Z ->
  exists tokens logits,
    (decode state max_len w).1 = Ok tokens /\
    in_vocab w_out tokens /\
    (forward state tokens (decode state max_len w).2).1 = Ok logits /\
    shape3 b (Z.to_nat max_len) w_out logits.
Proof.
  intros Hdecode Hwf Hwin Hwout Hb Hn Hs Hv Hstart Hmax.
  assert (exists action_sel,
            decode = (fun s k => _inference s k action_sel) /\
            selects w_out action_sel) as (action_sel & -> & Hsel).
  { destruct Hdecode as [->| ->].
    - exists max_action_sel. split; [done|by apply max_action_sel_selects].
    - exists sample_action_sel. split; [done|by apply sample_action_sel_selects]. }
  destruct (_inference_ok w_in w_out emb_dim b n state max_len action_sel w)
    as (pos & tokens & w1 & w' & _ & _ & _ & _ & _ & Hinf & Hshape & Hvoc & _
        & Hsame & _); [done|done|done|done|done|done|done|done|lia|done|].
  rewrite Hinf. simpl.
  assert (wf_model w_in w_out emb_dim (self w')) as Hwf'
    by (by eapply wf_model_same_attributes).
  destruct (forward_ok w_in w_out emb_dim b n (Z.to_nat max_len + 1)
              state tokens w')
    as (pos' & tgt & out & Hout & Hrun & _);
    [done|done|done|done|done|lia|done|done|done| |].
  { eapply Forall_impl; [exact Hvoc|]. intros row Hrow.
    eapply Forall_impl; [exact Hrow|]. intros x Hx. simpl in *. lia. }
  exists tokens, (drop_last_position (to_dist (to_dist_linear (self w')) out)).
  split; [done|]. split; [done|]. split; [done|].
  replace (Z.to_nat max_len) with (Z.to_nat max_len + 1 - 1) at 1 by lia.
  apply drop_last_position_shape.
  rewrite <- (wf_to_dist _ _ _ _ Hwf'). apply to_dist_shape.
  - by rewrite (wf_to_dist _ _ _ _ Hwf'), (wf_to_dist_bias _ _ _ _ Hwf').
  - destruct Hout as (? & ? & _). by split.
Qed.

End decoder_further.

Section wrapper_further.
Import model.
Context {T : Torch}.

(** X6.  [inference] draws no random number: whether it returns or
    raises, the state of the generator is what it was. *)
Theorem inference_leaves_generator (state : tensor2) (max_len : Z) (w : World) :
  gen (inference state max_len w).2 = gen w.
Proof.
  assert (stable keeps_attributes_gen (inference state max_len)) as Hstable.
  { unfold inference, _inference, asks.
    apply (stable_bind keeps_attributes_gen); [apply stable__state_embed|intros ?].
    apply (stable_bind keeps_attributes_gen);
      [apply (stable_gets keeps_attributes_gen)|intros ?].
    apply (stable_for_range (R:=keeps_attributes_gen)). intros t.
    unfold decode_step, max_action_sel, asks.
    apply (stable_bind keeps_attributes_gen); [apply stable__action_embed|intros ?].
    apply (stable_bind keeps_attributes_gen);
      [apply stable__transformer_pass|intros ?].
    apply (stable_bind keeps_attributes_gen);
      [apply (stable_gets keeps_attributes_gen)|intros ?].
    apply (stable_bind keeps_attributes_gen);
      [apply (stable_lift keeps_attributes_gen)|intros ?].
    apply (stable_bind keeps_attributes_gen);
      [apply (stable_lift keeps_attributes_gen)|intros ?].
    apply (stable_bind keeps_attributes_gen);
      [apply (stable_lift keeps_attributes_gen)|intros ?].
    apply (stable_bind keeps_attributes_gen); [apply stable_move_embedding|intros ?].
    apply (stable_bind keeps_attributes_gen);
      [apply (stable_lift keeps_attributes_gen)|intros ?].
    apply (stable_ret keeps_attributes_gen). }
  by destruct (Hstable w) as [_ Hgen].
Qed.

(** X7.  [_encode_position] on data of [n] positions: for [n] up to the
    1024 rows of the table it adds row [t] of the table to the vector at
    position [t] of every batch element; for more positions it raises
    [RuntimeError]; either way the table, unchanged, is then on the
    device of the model. *)
Theorem _encode_position_adds_rows
    (w_in w_out : nat) (emb_dim : Z) (b n : nat) (data : tensor3) (w : World) :
  wf_model w_in w_out emb_dim (self w) ->
  0 < b -> shape3 b n (Z.to_nat emb_dim) data ->
  (if decide (n <= 1024) then
     exists out,
       (_encode_position data w).1 = Ok out /\
       shape3 b n (Z.to_nat emb_dim) out /\
       forall i t v, data !! i ≫= (.!! t) = Some v ->
         exists p, pe (self w) !! t = Some p /\
                   out !! i ≫= (.!! t) = Some (vadd v p)
   else (_encode_position data w).1 = Raise RuntimeError) /\
  pe (self (_encode_position data w).2) = pe (self w) /\
  pe_device (self (_encode_position data w).2)
  = device (self (_encode_position data w).2).
Proof.
  intros Hwf Hb Hdata. rewrite _encode_position_run. simpl.
  split; [|done]. destruct (wf_pe_shape _ _ _ _ Hwf) as [Hlen Hpe].
  case_decide as Hn.
  - destruct (add_positions_ok (pe (self w)) b n (Z.to_nat emb_dim) data)
      as (out & Hout & Hshape); [lia|done|done|].
    exists out. split; [done|]. split; [done|].
    intros i t v Hv. unfold add_positions in Hout. apply rmapM_ok_inv in Hout.
    destruct (data !! i) as [row|] eqn:Hi; [|done]. simpl in Hv.
    destruct (Forall2_lookup_l _ _ _ _ _ Hout Hi) as (y & Hy & Hrow).
    rewrite Hy. simpl. case_decide as Hslice; [|done]. injection Hrow as <-.
    pose proof (lookup_lt_Some _ _ _ Hv) as Ht.
    destruct (lookup_lt_is_Some_2 (pe (self w)) t) as [p Hp].
    { rewrite length_take in Hslice. lia. }
    exists p. split; [done|]. apply lookup_zip_with_Some.
    exists v, p. split; [done|]. split; [done|].
    by rewrite lookup_take_lt.
  - destruct Hdata as (Hdb & Hdn & _).
    destruct data as [|row data]; [simpl in Hdb; lia|].
    rewrite add_positions_too_long; [done|].
    apply Forall_cons in Hdn as [-> _]. lia.
Qed.

(** X8.  The constructor raises [ValueError] for an odd [emb_dim] and
    [ZeroDivisionError] for [emb_dim = 0], both from the positional
    table; a model that it returns has a positive even [emb_dim], a
    table of 1024 rows of [emb_dim] entries on its own device, and the
    weights and the start token that it was given. *)
Theorem BaseModel_init_builds (dev : Device)
    (board move : list vec) (emb_dim : Z) (transformer : TransformerParams)
    (to_board to_move to_dist : Linear) (start_id : Z) :
  let init := BaseModel_init dev board move emb_dim transformer
                to_board to_move to_dist start_id in
  (Z.odd emb_dim = true -> init = Raise ValueError) /\
  (emb_dim = 0%Z -> init = Raise ZeroDivisionError) /\
  (forall m, init = Ok m ->
     (0 < emb_dim)%Z /\ Z.even emb_dim = true /\
     length (pe m) = 1024 /\ rect (Z.to_nat emb_dim) (pe m) /\
     device m = dev /\ pe_device m = dev /\ start_token m = start_id /\
     parameters m = (board, move, transformer, to_board, to_move, to_dist)).
Proof.
  intros init. unfold init, BaseModel_init. split; [|split].
  - intros Hodd. by rewrite (positionalencoding1d_odd emb_dim 1024 Hodd).
  - intros ->. by rewrite (positionalencoding1d_zero 1024) by lia.
  - intros m Hm.
    destruct (positionalencoding1d emb_dim 1024) as [pe|e] eqn:Hpe;
      [|discriminate Hm].
    cbn [rbind] in Hm. injection Hm as <-.
    destruct (positionalencoding1d_width _ _ _ Hpe) as [Hlen Hrect].
    destruct (positionalencoding1d_returns _ _ _ Hpe) as (Hd & Hev & _).
    split; [exact Hd|]. split.
    { rewrite Zmod_odd in Hev. rewrite <- Z.negb_odd.
      by destruct (Z.odd emb_dim). }
    split; [exact Hlen|]. split; [exact Hrect|].
    repeat split; reflexivity.
Qed.

End wrapper_further.

Section model_further_examples.
Import model.

Lemma unknown_state_id_raises_witness :
  (@forward example_torch [[1; 5]]%Z [[0]]%Z example_world).1 = Raise IndexError /\
  (@inference example_torch [[1; 5]]%Z 3 example_world).1 = Raise IndexError /\
  (@sample example_torch [[1; 5]]%Z 3 example_world).1 = Raise IndexError /\
  count_transformer (calls (@forward example_torch [[1; 5]]%Z [[0]]%Z example_world).2)
  = count_transformer (calls example_world) /\
  count_transformer (calls (@inference example_torch [[1; 5]]%Z 3 example_world).2)
  = count_transformer (calls example_world).
Proof.
  apply (@unknown_state_id_raises example_torch [[1; 5]]%Z [[0]]%Z 3 [1; 5]%Z 5
           example_world);
    [reflexivity|apply list_elem_of_here
    |apply list_elem_of_further, list_elem_of_here|lia|simpl; lia].
Defined.

Lemma positionalencoding1d_prefix_witness :
  positionalencoding1d 2 3 = Ok (take (Z.to_nat 3) example_pe).
Proof.
  apply (positionalencoding1d_prefix 2 1024 3 example_pe);
    [apply example_pe_ok|lia].
Defined.

Lemma positionalencoding1d_bounded_witness :
  (forall p row j x, example_pe !! p = Some row -> row !! j = Some x ->
     (-1 <= x <= 1)%R) /\
  (forall row j x, example_pe !! 0 = Some row -> row !! j = Some x ->
     x = if Nat.even j then 0%R else 1%R).
Proof.
  apply (positionalencoding1d_bounded 2 1024 example_pe), example_pe_ok.
Defined.

Lemma decoder_beyond_positional_table_witness :
  (@sample example_torch [[1; 0; -1]]%Z 2000 example_world).1
  = Raise RuntimeError /\
  count_transformer (calls (@sample example_torch [[1; 0; -1]]%Z 2000 example_world).2)
  = count_transformer (calls example_world) + 1024.
Proof.
  apply (@decoder_beyond_positional_table example_torch example_torch_laws
           2 2 2 1 3 [[1; 0; -1]]%Z 2000 example_world (@sample example_torch));
    [by right|apply example_model_wf|lia|lia|lia|lia
    |apply example_state_shape|apply example_state_shape|simpl; lia|lia].
Defined.

Lemma forward_accepts_decoded_witness :
  exists tokens logits,
    (@inference example_torch [[1; 0; -1]]%Z 3 example_world).1 = Ok tokens /\
    in_vocab 2 tokens /\
    (@forward example_torch [[1; 0; -1]]%Z tokens
       (@inference example_torch [[1; 0; -1]]%Z 3 example_world).2).1 = Ok logits /\
    shape3 1 (Z.to_nat 3) 2 logits.
Proof.
  apply (@forward_accepts_decoded example_torch example_torch_laws 2 2 2 1 3
           [[1; 0; -1]]%Z 3 example_world (@inference example_torch));
    [by left|apply example_model_wf|lia|lia|lia|lia
    |apply example_state_shape|apply example_state_shape|simpl; lia|lia].
Defined.

Lemma _encode_position_adds_rows_witness :
  (if decide (1 <= 1024) then
     exists out,
       (@_encode_position example_torch [[[0; 0]]]%R example_world).1 = Ok out /\
       shape3 1 1 (Z.to_nat 2) out /\
       forall i t v, [[[0; 0]]]%R !! i ≫= (.!! t) = Some v ->
         exists p, pe (self example_world) !! t = Some p /\
                   out !! i ≫= (.!! t) = Some (vadd v p)
   else (@_encode_position example_torch [[[0; 0]]]%R example_world).1
        = Raise RuntimeError) /\
  pe (self (@_encode_position example_torch [[[0; 0]]]%R example_world).2)
  = pe (self example_world) /\
  pe_device (self (@_encode_position example_torch [[[0; 0]]]%R example_world).2)
  = device (self (@_encode_position example_torch [[[0; 0]]]%R example_world).2).
Proof.
  apply (@_encode_position_adds_rows example_torch 2 2 2 1 1 [[[0; 0]]]%R
           example_world);
    [apply example_model_wf|lia|by repeat constructor].
Defined.

End model_further_examples.

(* ================================================================== *)
(** * Further properties of the training loop controller *)
(* ================================================================== *)

Section controller_further.
Import train_gpt.
Context {T : Trainer}.

(** The epoch and the batch index of a training step. *)
Definition trained (e : Event) : option (nat * nat) :=
  match e with
  | TrainFn epoch batch_idx => Some (epoch, batch_idx)
  | _ => None
  end.

Definition trained_kind (k : Kind) : option (nat * nat) :=
  match k with
  | KTrain epoch batch_idx => Some (epoch, batch_idx)
  | _ => None
  end.

Lemma omap_trained (t : list Event) :
  omap trained t = omap trained_kind (map kind t).
Proof.
  induction t as [|e t IH]; [done|].
  destruct e; simpl; first [exact IH|f_equal; exact IH].
Qed.

Lemma omap_trained_batches f epoch (l : list nat) :
  omap trained_kind (flat_map (batch_kinds f epoch) l) = map (pair epoch) l.
Proof.
  induction l as [|b l IH]; [done|]. cbn [flat_map]. rewrite omap_app, IH.
  unfold batch_kinds. by destruct (due_in_code f b).
Qed.

Lemma omap_trained_epochs f len (l : list nat) :
  omap trained_kind (flat_map (epoch_kinds f len) l)
  = flat_map (fun epoch => map (pair epoch) (seq 0 len)) l.
Proof.
  induction l as [|e l IH]; [done|]. cbn [flat_map]. rewrite omap_app, IH.
  f_equal. unfold epoch_kinds.
  change (KEpoch :: evaluation_kinds ++ ?l) with (([KEpoch] ++ evaluation_kinds) ++ l).
  rewrite !omap_app, omap_trained_batches. simpl. by rewrite app_nil_r.
Qed.

(** X9.  A run with [eval_freq <> 0] returns, and it calls the training
    function once on every batch of every epoch, in the order of the
    epochs and, within an epoch, of the batches: [epochs] times
    [len(train_dl)] training steps in all. *)
Theorem training_steps_in_order (self : GPTTrainingContext) (s : State) :
  eval_freq self <> 0%Z ->
  exists new,
    (__call__ self s).1 = Ok tt /\
    trace (__call__ self s).2 = trace s ++ new /\
    omap trained new
    = flat_map (fun epoch => map (pair epoch) (seq 0 (length (train_dl self))))
        (seq 0 (Z.to_nat (epochs self))) /\
    length (omap trained new)
    = Z.to_nat (epochs self) * length (train_dl self).
Proof.
  intros Hfreq. unfold __call__, for_in_range.
  destruct (epochs_kinds self (seq 0 (Z.to_nat (epochs self))) 0 s Hfreq)
    as (new & Hrun & Ht & Hk).
  exists new. split; [by rewrite Hrun|]. split; [done|].
  assert (omap trained new
          = flat_map (fun epoch => map (pair epoch) (seq 0 (length (train_dl self))))
              (seq 0 (Z.to_nat (epochs self)))) as Heq
    by (by rewrite omap_trained, Hk, omap_trained_epochs).
  split; [done|]. rewrite Heq.
  assert (forall l : list nat,
            length (flat_map (fun epoch : nat =>
                      map (pair epoch) (seq 0 (length (train_dl self)))) l)
            = length l * length (train_dl self)) as Hlen.
  { induction l as [|e l IH]; [done|]. cbn [flat_map].
    rewrite length_app, IH, length_map, length_seq. simpl. lia. }
  by rewrite Hlen, length_seq.
Qed.


(** What one training step does to the model and to the optimizer. *)
Lemma batch_body_zero self epoch batch_idx state s :
  eval_freq self = 0%Z ->
  exists loss,
    batch_body self epoch batch_idx state s =
    (Raise ZeroDivisionError,
     mkState (backward_step (train_fn self) (model s) (opt s) state).1
       (backward_step (train_fn self) (model s) (opt s) state).2
       (trace s ++ [TrainFn epoch batch_idx;
                    LoggerLoss (Z.of_nat batch_idx) (length (train_dl self)) loss])).
Proof.
  intros Hfreq. unfold batch_body, bind at 1, emit, modify.
  unfold bind at 1, train_on. simpl.
  destruct (backward_step _ _ _ _) as [p o].
  unfold bind at 1. unfold bind at 1, lift, py_mod.
  rewrite decide_True by done.
  eexists. simpl. by rewrite <- app_assoc.
Qed.

(** X10.  With [eval_freq = 0], a run of at least one epoch over at
    least one batch raises [ZeroDivisionError], after the evaluation
    that starts the first epoch and after one training step, which has
    updated the model and the optimizer. *)
Theorem zero_eval_freq_raises (self : GPTTrainingContext) (s : State)
    (state : Batch) (rest : list Batch) :
  eval_freq self = 0%Z -> (0 < epochs self)%Z -> train_dl self = state :: rest ->
  exists new,
    (__call__ self s).1 = Raise ZeroDivisionError /\
    trace (__call__ self s).2 = trace s ++ new /\
    map kind new
    = [KEpoch; KEval; KTestOutput; KSaveCheckpoint; KTrain 0 0; KLoss 0] /\
    model (__call__ self s).2
    = (backward_step (train_fn self) (model s) (opt s) state).1 /\
    opt (__call__ self s).2
    = (backward_step (train_fn self) (model s) (opt s) state).2.
Proof.
  intros Hfreq Hepochs Hdl. unfold __call__, for_in_range.
  destruct (Z.to_nat (epochs self)) as [|n] eqn:Hn; [lia|].
  cbn [seq for_enumerate].
  assert (exists loss,
            epoch_body self 0 s =
            (Raise ZeroDivisionError,
             mkState (backward_step (train_fn self) (model s) (opt s) state).1
               (backward_step (train_fn self) (model s) (opt s) state).2
               (trace s ++
                [LoggerEpoch; EvalFn;
                 LoggerTestOutput
                   (eval_fn self (model s) (test_dl self) (train_fn self));
                 LoggerSaveCheckpoint; TrainFn 0 0;
                 LoggerLoss 0 (length (train_dl self)) loss])))
    as [loss Hrun].
  { rewrite epoch_body_unfold, Hdl. cbn [for_enumerate].
    set (s1 := mkState _ _ _).
    destruct (batch_body_zero self 0 0 state s1 Hfreq) as [loss Hb].
    exists loss.
    rewrite (bind_run_raise _ _ _ _ _ (bind_run_raise _ _ _ _ _ Hb)).
    unfold s1. cbn [model opt trace]. rewrite <- app_assoc, Hdl. reflexivity. }
  rewrite (bind_run_raise _ _ _ _ _ Hrun). cbn [fst snd trace model opt].
  eexists. split; [done|]. split; [done|]. by split.
Qed.

End controller_further.

Section controller_further_examples.
Import train_gpt.

Lemma training_steps_in_order_witness :
  exists new,
    (@__call__ example_trainer example_periodic_context example_start).1 = Ok tt /\
    trace (@__call__ example_trainer example_periodic_context example_start).2
    = trace example_start ++ new /\
    omap trained new
    = flat_map
        (fun epoch =>
           map (pair epoch) (seq 0 (length (train_dl example_periodic_context))))
        (seq 0 (Z.to_nat (epochs example_periodic_context))) /\
    length (omap trained new)
    = Z.to_nat (epochs example_periodic_context)
      * length (train_dl example_periodic_context).
Proof.
  apply (@training_steps_in_order example_trainer example_periodic_context
           example_start).
  discriminate.
Defined.

(** The controller of the periodic example with [eval_freq = 0]. *)
Definition example_zero_context : @GPTTrainingContext example_trainer :=
  @mkGPTTrainingContext example_trainer
    (fun p _ _ => (p, p)) (fun p _ => p) [tt; tt] [] 1 0.

Lemma zero_eval_freq_raises_witness :
  exists new,
    (@__call__ example_trainer example_zero_context example_start).1
    = Raise ZeroDivisionError /\
    trace (@__call__ example_trainer example_zero_context example_start).2
    = trace example_start ++ new /\
    map kind new
    = [KEpoch; KEval; KTestOutput; KSaveCheckpoint; KTrain 0 0; KLoss 0] /\
    model (@__call__ example_trainer example_zero_context example_start).2
    = (@backward_step example_trainer (train_fn example_zero_context)
         (model example_start) (opt example_start) tt).1 /\
    opt (@__call__ example_trainer example_zero_context example_start).2
    = (@backward_step example_trainer (train_fn example_zero_context)
         (model example_start) (opt example_start) tt).2.
Proof.
  apply (@zero_eval_freq_raises example_trainer example_zero_context
           example_start tt [tt]); [reflexivity|reflexivity|reflexivity].
Defined.

End controller_further_examples.

(* ================================================================== *)
(** * Further properties of the board-game training loop *)
(* ================================================================== *)

Section train_further.
Import train.
Context {trainer : Trainer}.

Lemma if_path_missing (p : string) (k : string -> T unit) s e :
  p <> EmptyString -> k p s = (Raise e, s) ->
  if_path (Some p) k s = (Raise e, s).
Proof. intros Hp Hk. unfold if_path. by rewrite decide_False. Qed.

Lemma load_model_state_missing p s :
  fs s !! p = None -> load_model_state p s = (Raise FileNotFoundError, s).
Proof. intros Hp. unfold load_model_state. by rewrite Hp. Qed.

Lemma load_opt_state_missing p s :
  fs s !! p = None -> load_opt_state p s = (Raise FileNotFoundError, s).
Proof. intros Hp. unfold load_opt_state. by rewrite Hp. Qed.

(** When the set-up raises, no file was written. *)
Lemma setup_raises_fs log_file_path load_model load_opt s e :
  (setup log_file_path load_model load_opt s).1 = Raise e ->
  fs (setup log_file_path load_model load_opt s).2 = fs s.
Proof.
  unfold setup, bind, modify, open_w, ret.
  destruct (if_path load_model load_model_state _) as [[[]|e2] s2] eqn:H2.
  - destruct (if_path load_opt load_opt_state _) as [[[]|e4] s4] eqn:H4; [done|].
    intros _. cbn [snd].
    apply (f_equal (fun x => fs x.2)) in H2, H4. cbn [snd] in H2, H4.
    rewrite if_path_fs in H2 by apply load_model_state_fs.
    rewrite if_path_fs in H4 by apply load_opt_state_fs.
    cbn [fs] in H2, H4. by rewrite <- H4, <- H2.
  - intros _. cbn [snd].
    apply (f_equal (fun x => fs x.2)) in H2. cbn [snd] in H2.
    rewrite if_path_fs in H2 by apply load_model_state_fs.
    cbn [fs] in H2. by rewrite <- H2.
Qed.

(** X11.  A run that is asked to resume from a file that does not exist
    raises before it opens the log file: no epoch is run and every file,
    the log of an earlier run included, is left as it was.  For a
    missing model file the exception is [FileNotFoundError]. *)
Theorem failed_resume_keeps_files
    (dataloader : nat -> list Batch) (log_file_path : string)
    (load_model load_opt : option string) (s : State) (n : nat) (p : string) :
  p <> EmptyString -> fs s !! p = None ->
  load_model = Some p \/ load_opt = Some p ->
  exists e,
    (main_epochs n dataloader log_file_path load_model load_opt s).1 = Raise e /\
    (load_model = Some p -> e = FileNotFoundError) /\
    fs (main_epochs n dataloader log_file_path load_model load_opt s).2 = fs s.
Proof.
  intros Hp Hmissing Hload.
  assert (exists e,
            (setup log_file_path load_model load_opt s).1 = Raise e /\
            (load_model = Some p -> e = FileNotFoundError)) as (e & Hraise & He).
  { unfold setup.
    rewrite (bind_run (modify _) _ s tt
               (mkState (fs s) init_params (opt s) (clock s) (losses s)))
      by reflexivity.
    set (s1 := mkState _ _ _ _ _).
    destruct Hload as [->| ->].
    - exists FileNotFoundError. split; [|done].
      rewrite (bind_run_raise _ _ _ _ _
                 (if_path_missing p _ s1 _ Hp (load_model_state_missing p s1 Hmissing))).
      done.
    - destruct (if_path load_model load_model_state s1) as [[[]|e2] s2] eqn:H2.
      + rewrite (bind_run _ _ _ _ _ H2).
        rewrite (bind_run (modify _) _ s2 tt
                   (mkState (fs s2) (model s2) (init_opt (model s2)) (clock s2)
                      (losses s2))) by reflexivity.
        set (s3 := mkState _ _ _ _ _).
        assert (fs s3 !! p = None) as Hm3.
        { apply (f_equal (fun x => fs x.2)) in H2. cbn [snd] in H2.
          rewrite if_path_fs in H2 by apply load_model_state_fs.
          unfold s3. cbn [fs]. by rewrite <- H2. }
        exists FileNotFoundError. split.
        * rewrite (bind_run_raise _ _ _ _ _
                     (if_path_missing p _ s3 _ Hp (load_opt_state_missing p s3 Hm3))).
          done.
        * intros Hlm. rewrite Hlm in H2.
          rewrite (if_path_missing p _ s1 _ Hp
                     (load_model_state_missing p s1 Hmissing)) in H2. done.
      + exists e2. rewrite (bind_run_raise _ _ _ _ _ H2). split; [done|].
        intros Hlm. rewrite Hlm in H2.
        rewrite (if_path_missing p _ s1 _ Hp
                   (load_model_state_missing p s1 Hmissing)) in H2. congruence. }
  exists e. unfold main_epochs.
  destruct (setup log_file_path load_model load_opt s) as [r s'] eqn:Hsetup.
  cbn [fst] in Hraise. subst r.
  rewrite (bind_run_raise _ _ _ _ _ Hsetup). cbn [fst snd].
  split; [done|]. split; [done|].
  pose proof (setup_raises_fs log_file_path load_model load_opt s e) as Hfs.
  rewrite Hsetup in Hfs. by apply Hfs.
Qed.

Lemma model_path_nonempty e : model_path e <> EmptyString.
Proof. unfold model_path. simpl. discriminate. Qed.

(** X12.  The checkpoint of a run restores it: a set-up that resumes
    from the model file of the last completed epoch and from the
    optimizer file returns, with the parameters and the optimizer state
    that the run had after that epoch. *)
Theorem resume_restores_checkpoint
    (dataloader : nat -> list Batch) (log_file_path : string)
    (load_model load_opt : option string) (s0 : State) (log_file : string)
    (n : nat) (log_file_path' : string) :
  (setup log_file_path load_model load_opt s0).1 = Ok log_file ->
  not_a_checkpoint log_file_path ->
  0 < n ->
  let final := after dataloader log_file_path load_model load_opt s0 n in
  let resumed :=
    setup log_file_path' (Some (model_path (n - 1))) (Some opt_path) final in
  resumed.1 = Ok log_file_path' /\
  model resumed.2 = model final /\
  opt resumed.2 = opt final.
Proof.
  intros Hsetup Hlog Hn final resumed.
  pose proof (after_model_snapshot dataloader log_file_path load_model load_opt
                s0 log_file Hsetup Hlog n (n - 1) ltac:(lia)) as Hmodel.
  pose proof (after_opt_snapshot dataloader log_file_path load_model load_opt
                s0 log_file Hsetup n Hn) as Hopt.
  replace (S (n - 1)) with n in Hmodel by lia.
  fold final in Hmodel, Hopt.
  unfold resumed, setup.
  rewrite (bind_run (modify _) _ final tt
             (mkState (fs final) init_params (opt final) (clock final)
                (losses final))) by reflexivity.
  set (s1 := mkState _ _ _ _ _).
  assert (if_path (Some (model_path (n - 1))) load_model_state s1
          = (Ok tt, mkState (fs final) (model final) (opt final) (clock final)
                      (losses final))) as H1.
  { unfold if_path. rewrite decide_False by apply model_path_nonempty.
    unfold load_model_state, s1. cbn [fs]. by rewrite Hmodel. }
  rewrite (bind_run _ _ _ _ _ H1).
  set (s2 := mkState _ _ _ _ _).
  rewrite (bind_run (modify _) _ s2 tt
             (mkState (fs s2) (model s2) (init_opt (model s2)) (clock s2)
                (losses s2))) by reflexivity.
  set (s3 := mkState _ _ _ _ _).
  assert (if_path (Some opt_path) load_opt_state s3
          = (Ok tt, mkState (fs final) (model final) (opt final) (clock final)
                      (losses final))) as H3.
  { unfold if_path. rewrite decide_False by done.
    unfold load_opt_state, s3, s2. cbn [fs]. by rewrite Hopt. }
  rewrite (bind_run _ _ _ _ _ H3). done.
Qed.

(** The losses of the training records of a file, in order. *)
Definition train_losses (c : list Entry) : list Scalar :=
  flat_map (fun e => match e with
                     | Line (TRAIN _ _ _ loss) => [loss]
                     | _ => []
                     end) c.

(** The last [maxlen] elements of a list. *)
Definition window (maxlen : nat) (l : list Scalar) : list Scalar :=
  drop (length l - maxlen) l.

(** [losses] holds the last 1000 losses that were written to the log. *)
Definition losses_of_log (log_file : string) (s : State) : Prop :=
  losses s = window 1000 (train_losses (content log_file s)).

Lemma deque_append_window maxlen (l : list Scalar) x :
  0 < maxlen ->
  deque_append maxlen (window maxlen l) x = window maxlen (l ++ [x]).
Proof.
  intros Hm. unfold deque_append, window.
  rewrite !length_app, length_drop. cbn [length].
  destruct (decide (length l <= maxlen)) as [Hle|Hgt].
  - replace (length l - maxlen) with 0 by lia. rewrite drop_0. f_equal. lia.
  - replace (length l - (length l - maxlen) + 1 - maxlen) with 1 by lia.
    replace (length l + 1 - maxlen) with (length l - maxlen + 1) by lia.
    rewrite <- drop_drop. f_equal. rewrite drop_app_le by lia. done.
Qed.

Lemma train_losses_app c c' :
  train_losses (c ++ c') = train_losses c ++ train_losses c'.
Proof. unfold train_losses. apply flat_map_app. Qed.

Lemma content_insert log_file c (files : gmap string (list Entry)) p o k l :
  content log_file (mkState (<[log_file := c]> files) p o k l) = c.
Proof. unfold content. cbn [fs]. by rewrite lookup_insert_eq. Qed.

Lemma batch_body_state log_file epoch i b s :
  exists p o t loss,
    batch_body log_file epoch i b s =
    (Ok tt,
     mkState
       (<[log_file := content log_file s ++
                      [Line (TRAIN (Z.of_nat epoch) (Z.of_nat i) t loss)]]> (fs s))
       p o (S (clock s)) (deque_append 1000 (losses s) loss)).
Proof.
  unfold batch_body, bind at 1, train_on.
  destruct (train_step (model s) (opt s) b) as [[p o] loss].
  exists p, o, (time_at (clock s)), loss. reflexivity.
Qed.

Lemma losses_of_log_batch_body log_file epoch i b s :
  losses_of_log log_file s ->
  losses_of_log log_file (batch_body log_file epoch i b s).2.
Proof.
  unfold losses_of_log. intros Hinv.
  destruct (batch_body_state log_file epoch i b s) as (p & o & t & loss & ->).
  cbn [snd losses]. rewrite content_insert.
  rewrite train_losses_app. cbn [train_losses flat_map app].
  rewrite Hinv. apply deque_append_window. lia.
Qed.

Lemma losses_of_log_batches log_file epoch l i s :
  losses_of_log log_file s ->
  losses_of_log log_file (for_enumerate i l (batch_body log_file epoch) s).2.
Proof.
  revert i s. induction l as [|b l IH]; intros i s Hinv; [done|].
  cbn [for_enumerate].
  rewrite (bind_run _ _ _ tt (batch_body log_file epoch i b s).2)
    by apply returns_unit, returns_batch_body.
  by apply IH, losses_of_log_batch_body.
Qed.

Lemma losses_of_log_epoch_body dataloader log_file epoch s :
  log_file <> opt_path -> log_file <> model_path epoch ->
  losses_of_log log_file s ->
  losses_of_log log_file (epoch_body dataloader log_file epoch s).2.
Proof.
  intros Hopt Hmodel Hinv. unfold epoch_body, bind at 1, gets.
  destruct (eval_model (model s)) as [acc loss].
  unfold bind at 1, time. unfold bind at 1, write, modify.
  set (s1 := set_fs _ _).
  assert (losses_of_log log_file s1) as Hs1.
  { unfold losses_of_log, s1, set_fs, content in *. simpl.
    rewrite lookup_insert_eq. simpl.
    rewrite train_losses_app. simpl.
    by rewrite app_nil_r. }
  rewrite (bind_run _ _ _ tt
             (for_enumerate 0 (dataloader epoch) (batch_body log_file epoch) s1).2)
    by (apply returns_unit, returns_for_enumerate; intros;
        apply returns_batch_body).
  pose proof (losses_of_log_batches log_file epoch (dataloader epoch) 0 s1 Hs1)
    as Hs2.
  unfold losses_of_log, content in *.
  unfold bind, gets, torch_save, modify, set_fs. simpl.
  by rewrite !lookup_insert_ne by done.
Qed.

Lemma setup_losses log_file_path load_model load_opt s log_file :
  (setup log_file_path load_model load_opt s).1 = Ok log_file ->
  losses (setup log_file_path load_model load_opt s).2 = [].
Proof.
  unfold setup, bind, modify, open_w, ret.
  destruct (if_path load_model load_model_state _) as [[[]|e] s2]; [|done].
  by destruct (if_path load_opt load_opt_state _) as [[[]|e] s4].
Qed.

(** X13.  After any number of epochs, the deque [losses] holds the
    losses of the last 1000 training records of the log file, in the
    order in which they were written, and all of them while the log has
    fewer than 1000: it never holds more than 1000. *)
Theorem losses_window
    (dataloader : nat -> list Batch) (log_file_path : string)
    (load_model load_opt : option string) (s0 : State) (log_file : string)
    (n : nat) :
  (setup log_file_path load_model load_opt s0).1 = Ok log_file ->
  not_a_checkpoint log_file_path ->
  let final := after dataloader log_file_path load_model load_opt s0 n in
  let logged := train_losses (content log_file_path final) in
  losses final = drop (length logged - 1000) logged /\
  length (losses final) <= 1000 /\
  (length logged <= 1000 -> losses final = logged).
Proof.
  intros Hsetup Hlog final logged.
  assert (losses_of_log log_file_path final) as Hinv.
  { unfold final. induction n as [|n IH].
    - rewrite (after_0 dataloader log_file_path load_model load_opt s0 log_file
                 Hsetup).
      unfold losses_of_log, content.
      rewrite (setup_losses _ _ _ _ _ Hsetup).
      destruct (setup_ok _ _ _ _ _ Hsetup) as [_ ->].
      by rewrite lookup_insert_eq.
    - rewrite (after_S dataloader log_file_path load_model load_opt s0 log_file
                 Hsetup).
      destruct Hlog as [Hopt Hmodel].
      apply losses_of_log_epoch_body; [done|apply Hmodel|exact IH]. }
  unfold losses_of_log, window in Hinv. fold logged in Hinv.
  split; [exact Hinv|]. split.
  - rewrite Hinv, length_drop. lia.
  - intros Hle. rewrite Hinv.
    replace (length logged - 1000) with 0 by lia. apply drop_0.
Qed.

End train_further.

Section train_further_examples.
Import train.

Lemma failed_resume_keeps_files_witness :
  exists e,
    (@main_epochs example_trainer 2 (fun _ => [tt]) "log.txt"
       (Some "missing.pth") None example_state).1 = Raise e /\
    (Some "missing.pth" = Some "missing.pth" -> e = FileNotFoundError) /\
    fs (@main_epochs example_trainer 2 (fun _ => [tt]) "log.txt"
          (Some "missing.pth") None example_state).2 = fs example_state.
Proof.
  apply (@failed_resume_keeps_files example_trainer (fun _ => [tt]) "log.txt"
           (Some "missing.pth") None example_state 2 "missing.pth");
    [discriminate|reflexivity|left; reflexivity].
Defined.

Lemma resume_restores_checkpoint_witness :
  let final := @after example_trainer (fun _ => [tt]) "log.txt" None None
                 example_fresh_state 2 in
  let resumed :=
    @setup example_trainer "log2.txt" (Some (model_path (2 - 1))) (Some opt_path)
      final in
  resumed.1 = Ok "log2.txt" /\
  model resumed.2 = model final /\
  opt resumed.2 = opt final.
Proof.
  apply (@resume_restores_checkpoint example_trainer (fun _ => [tt]) "log.txt"
           None None example_fresh_state "log.txt" 2 "log2.txt");
    [reflexivity|apply example_log_not_a_checkpoint|lia].
Defined.

Lemma losses_window_witness :
  let final := @after example_trainer (fun _ => [tt]) "log.txt" None None
                 example_fresh_state 2 in
  let logged := @train_losses example_trainer (content "log.txt" final) in
  losses final = drop (length logged - 1000) logged /\
  length (losses final) <= 1000 /\
  (length logged <= 1000 -> losses final = logged).
Proof.
  apply (@losses_window example_trainer (fun _ => [tt]) "log.txt"
           None None example_fresh_state "log.txt" 2);
    [reflexivity|apply example_log_not_a_checkpoint].
Defined.

End train_further_examples.

(* ================================================================== *)
(** * The script of the board-game training loop *)
(* ================================================================== *)

Section script_further.
Import train.
Context {trainer : Trainer}.

(** The answers whose lower case is [y]. *)
Lemma lower_y (res : string) : lower res = "y" -> res = "y" \/ res = "Y".
Proof.
  destruct res as [|c [|c' res]]; [done| |done].
  destruct c as [[] [] [] [] [] [] [] []]; vm_compute; intros Hc;
    first [discriminate Hc|by left|by right].
Qed.

(** X14.  When the log file exists, [-o] was not given and the user
    answers the question with anything but an empty line, [y] or [Y],
    the script returns without calling [main]: the log of the earlier
    run is not truncated, no file is written and nothing is trained. *)
Theorem script_keeps_declined_log
    (dataloader : nat -> list Batch) (log_file : string)
    (load_model load_opt : option string) (res : string) (s : State) :
  is_Some (fs s !! log_file) ->
  res <> EmptyString -> res <> "y" -> res <> "Y" ->
  script dataloader log_file load_model load_opt false res s = (Ok tt, s).
Proof.
  intros Hexists Hempty Hy HY. unfold script. cbn [negb].
  assert (path_exists log_file s = (Ok true, s)) as Hpath.
  { unfold path_exists, gets. by rewrite bool_decide_true. }
  rewrite (bind_run _ _ s false s).
  - rewrite (bind_run _ _ _ _ _ Hpath). reflexivity.
  - rewrite (bind_run _ _ _ _ _ Hpath). unfold ret. f_equal. f_equal.
    rewrite bool_decide_false by done. rewrite bool_decide_false; [done|].
    intros Hl. destruct (lower_y res Hl); done.
Qed.

End script_further.

Section script_further_examples.
Import train.

Lemma script_keeps_declined_log_witness :
  @script example_trainer (fun _ => [tt]) "log.txt" None None false "n"
    example_state
  = (Ok tt, example_state).
Proof.
  apply (@script_keeps_declined_log example_trainer (fun _ => [tt]) "log.txt"
           None None "n" example_state);
    [by eexists|discriminate|discriminate|discriminate].
Defined.

End script_further_examples.

(* ================================================================== *)
(** * The wrapper of the pretrained language model *)
(* ================================================================== *)

Section GPTModel_further.
Import model model.GPTModel.
Context {T : Torch} {L : @TorchLaws T} {G : GPT2} {GL : @GPT2Laws G}.

Lemma GPT_forward_run (state : tensor2) (w : World) :
  forward state w =
  (lm_logits (GPTModel.model (self w)) (not_mask_mul (get_mask state (-1)) state),
   mkWorld (self w) (gen w)
     (calls w ++ [not_mask_mul (get_mask state (-1)) state])).
Proof.
  unfold forward, bind, gets, modify, lift, ret. simpl.
  by destruct (lm_logits _ _).
Qed.

Lemma sample_batch_ok (V : nat) (logits : list vec) (g : Generator) :
  0 < V -> rect V logits ->
  length (sample_batch logits g).1 = length logits /\
  Forall (fun x => (0 <= x < Z.of_nat V)%Z) (sample_batch logits g).1.
Proof.
  intros HV Hr. revert g. induction Hr as [|row logits Hrow _ IH]; intros g.
  - done.
  - cbn [sample_batch].
    pose proof (Categorical_sample_range row g) as Hrange.
    destruct (Categorical_sample row g) as [i g'].
    specialize (IH g'). destruct (sample_batch logits g') as [next g''].
    cbn [fst length] in *. destruct IH as [IHl IHv]. split; [by rewrite IHl|].
    constructor; [|done]. rewrite Hrow in Hrange. apply Hrange.
    intros ->. simpl in Hrow. lia.
Qed.

(** One step of the loop on a well-formed non-empty batch: the language
    model is called once, one token is drawn per sequence, and the
    tokens are put together in one row. *)
Lemma inference_step_run (temp : R) (b n : nat) (tensor : tensor2) (w : World) :
  0 < vocab_size (GPTModel.model (self w)) ->
  0 < b -> 1 <= n <= n_positions (GPTModel.model (self w)) ->
  shape2 b n tensor ->
  in_vocab_or_padding (vocab_size (GPTModel.model (self w))) tensor ->
  exists next w',
    inference_step temp tensor w = (cat1 tensor [next], w') /\
    length next = b /\
    Forall (fun x => (0 <= x < Z.of_nat (vocab_size (GPTModel.model (self w))))%Z)
      next /\
    self w' = self w /\
    calls w' = calls w ++ [not_mask_mul (get_mask tensor (-1)) tensor].
Proof.
  intros HV Hb Hn Hs Hv. unfold inference_step.
  destruct (not_mask_mul_shape b n tensor Hs) as [Hmb Hmn].
  destruct (lm_logits_shape (GPTModel.model (self w))
              (not_mask_mul (get_mask tensor (-1)) tensor) n)
    as (out & Hout & Hob & Hon & Hod);
    [lia|done|done|by apply not_mask_mul_in_vocab|].
  rewrite (bind_run _ _ _ out _ (eq_trans (GPT_forward_run tensor w)
             (f_equal (fun r => (r, _)) Hout))).
  set (w1 := mkWorld _ _ _).
  destruct (last_position_ok b n (vocab_size (GPTModel.model (self w))) out)
    as (last & Hlast & Hlb & Hlr); [lia|split; [lia|by split]|].
  rewrite (bind_run (lift (last_position out)) _ w1 last w1)
    by (unfold lift; by rewrite Hlast).
  set (logits := map (map (fun x => (x / temp)%R)) last).
  assert (rect (vocab_size (GPTModel.model (self w))) logits) as Hlogits.
  { unfold logits, rect. rewrite Forall_fmap.
    eapply Forall_impl; [exact Hlr|]. intros row Hrow. simpl.
    by rewrite length_map. }
  destruct (sample_batch_ok _ logits (gen w1) HV Hlogits) as [Hsl Hsv].
  destruct (sample_batch logits (gen w1)) as [next g] eqn:Hsample.
  cbn [fst] in Hsl, Hsv.
  exists next, (mkWorld (self w1) g (calls w1)).
  split.
  - unfold bind at 1. rewrite Hsample. reflexivity.
  - split; [by rewrite Hsl; unfold logits; rewrite length_map|].
    split; [done|]. by split.
Qed.

(** X15.  [inference] on one prompt that, with the [max_length] new
    tokens, fits the positions of the language model: it returns the
    prompt followed by exactly [max_length] tokens of the vocabulary,
    after [max_length] calls of the language model; it does not stop at
    an end-of-text token. *)
Theorem GPT_inference_appends
    (row : list Z) (max_length : Z) (temp : R) (w : World) :
  temp <> 0%R ->
  0 < vocab_size (GPTModel.model (self w)) ->
  1 <= length row ->
  (0 <= max_length)%Z ->
  length row + Z.to_nat max_length <= n_positions (GPTModel.model (self w)) ->
  in_vocab_or_padding (vocab_size (GPTModel.model (self w))) [row] ->
  exists new,
    (inference [row] max_length temp w).1 = Ok [row ++ new] /\
    length new = Z.to_nat max_length /\
    Forall (fun x => (0 <= x < Z.of_nat (vocab_size (GPTModel.model (self w))))%Z)
      new /\
    length (calls (inference [row] max_length temp w).2)
    = length (calls w) + Z.to_nat max_length.
Proof.
  intros _ HV Hrow _ Hfit Hvoc. unfold inference.
  generalize dependent w. generalize dependent row.
  induction (Z.to_nat max_length) as [|k IH]; intros row Hrow w HV Hfit Hvoc.
  - exists []. cbn [while_lt]. unfold ret. cbn [fst snd].
    rewrite app_nil_r. repeat split; [done|lia].
  - cbn [while_lt].
    destruct (inference_step_run temp 1 (length row) [row] w)
      as (next & w' & Hstep & Hnl & Hnv & Hself & Hcalls);
      [done|lia|lia|split; [done|by repeat constructor]|done|].
    destruct next as [|x [|]]; try (simpl in Hnl; lia).
    rewrite cat1_ok in Hstep by done. cbn [zip_with] in Hstep.
    rewrite (bind_run _ _ _ _ _ Hstep).
    apply Forall_cons in Hnv as [Hx _].
    destruct (IH (row ++ [x]) ltac:(rewrite length_app; simpl; lia) w')
      as (new & Hrun & Hlen & Hnew & Hcount).
    + by rewrite Hself.
    + rewrite Hself, length_app. simpl. lia.
    + rewrite Hself. constructor; [|constructor].
      apply Forall_app. split.
      * by apply Forall_cons in Hvoc as [? _].
      * constructor; [by right|constructor].
    + exists (x :: new). rewrite Hrun, <- app_assoc. cbn [app].
      split; [done|]. split; [simpl; lia|]. split.
      * constructor; [done|]. by rewrite <- Hself.
      * rewrite Hcount, Hcalls, length_app. simpl. lia.
Qed.

(** X16.  [inference] on a batch of two or more sequences raises
    [RuntimeError] in its first step, when it puts the drawn tokens, one
    row of them, beside the batch; the language model was called once. *)
Theorem GPT_inference_batch_raises
    (b n : nat) (tensor : tensor2) (max_length : Z) (temp : R) (w : World) :
  temp <> 0%R ->
  0 < vocab_size (GPTModel.model (self w)) ->
  2 <= b -> 1 <= n <= n_positions (GPTModel.model (self w)) ->
  shape2 b n tensor ->
  in_vocab_or_padding (vocab_size (GPTModel.model (self w))) tensor ->
  (1 <= max_length)%Z ->
  (inference tensor max_length temp w).1 = Raise RuntimeError /\
  length (calls (inference tensor max_length temp w).2) = length (calls w) + 1.
Proof.
  intros _ HV Hb Hn Hs Hvoc Hmax. unfold inference.
  destruct (Z.to_nat max_length) as [|k] eqn:Hk; [lia|]. cbn [while_lt].
  destruct (inference_step_run temp b n tensor w)
    as (next & w' & Hstep & Hnl & Hnv & Hself & Hcalls);
    [done|lia|lia|done|done|].
  assert (cat1 tensor [next] = Raise RuntimeError) as Hcat.
  { unfold cat1. rewrite decide_False; [done|]. destruct Hs as [-> _]. simpl. lia. }
  rewrite Hcat in Hstep. rewrite (bind_run_raise _ _ _ _ _ Hstep).
  cbn [fst snd]. split; [done|]. rewrite Hcalls, length_app. simpl. lia.
Qed.

End GPTModel_further.

(** A language model with the vocabulary and the positions of GPT-2
    whose logits are all 0. *)
Definition example_gpt2 : GPT2 := {|
  LMParams := unit;
  vocab_size := fun _ => Z.to_nat 50257;
  n_positions := fun _ => 1024;
  lm_logits := fun _ ids =>
    Ok (map (map (fun _ : Z => replicate (Z.to_nat 50257) 0%R)) ids)
|}.

Lemma example_gpt2_laws : @GPT2Laws example_gpt2.
Proof.
  split. intros theta ids n Hb Hn Hr Hv. eexists. split; [reflexivity|].
  split; [apply length_map|]. split.
  - unfold rect in *. rewrite Forall_fmap.
    eapply Forall_impl; [exact Hr|]. intros row Hrow. cbv beta delta [compose].
    rewrite length_map. exact Hrow.
  - rewrite Forall_fmap. apply Forall_forall. intros row _. cbv beta delta [compose].
    unfold rect. rewrite Forall_fmap. apply Forall_forall. intros x _. cbv beta delta [compose].
    apply length_replicate.
Qed.

Definition example_gpt_world : @model.GPTModel.World example_torch example_gpt2 :=
  @model.GPTModel.mkWorld example_torch example_gpt2
    (@model.GPTModel.GPTModel_init example_gpt2 cpu tt) tt [].

Section GPTModel_further_examples.
Import model model.GPTModel.

Lemma GPT_inference_appends_witness :
  exists new,
    (@inference example_torch example_gpt2 [[0; 1]]%Z 2 1 example_gpt_world).1
    = Ok [[0; 1]%Z ++ new] /\
    length new = Z.to_nat 2 /\
    Forall (fun x =>
              (0 <= x < Z.of_nat (@vocab_size example_gpt2
                                    (GPTModel.model (self example_gpt_world))))%Z)
      new /\
    length (calls (@inference example_torch example_gpt2 [[0; 1]]%Z 2 1
                     example_gpt_world).2)
    = length (calls example_gpt_world) + Z.to_nat 2.
Proof.
  apply (@GPT_inference_appends example_torch example_torch_laws
           example_gpt2 example_gpt2_laws [0; 1]%Z 2 1%R example_gpt_world).
  - exact R1_neq_R0.
  - cbn [example_gpt_world self GPTModel.model GPTModel_init vocab_size
         example_gpt2]. lia.
  - cbn [length]. lia.
  - lia.
  - cbn [example_gpt_world self GPTModel.model GPTModel_init n_positions
         example_gpt2 length]. lia.
  - repeat first [apply Forall_nil; exact I|apply Forall_cons; split];
      right;
      cbn [example_gpt_world self GPTModel.model GPTModel_init vocab_size
           example_gpt2]; lia.
Defined.

Lemma GPT_inference_batch_raises_witness :
  (@inference example_torch example_gpt2 [[0; 1]; [1; 0]]%Z 1 1
     example_gpt_world).1 = Raise RuntimeError /\
  length (calls (@inference example_torch example_gpt2 [[0; 1]; [1; 0]]%Z 1 1
                   example_gpt_world).2)
  = length (calls example_gpt_world) + 1.
Proof.
  apply (@GPT_inference_batch_raises example_torch example_torch_laws
           example_gpt2 example_gpt2_laws 2 2 [[0; 1]; [1; 0]]%Z 1 1%R
           example_gpt_world).
  - exact R1_neq_R0.
  - cbn [example_gpt_world self GPTModel.model GPTModel_init vocab_size
         example_gpt2]. lia.
  - lia.
  - cbn [example_gpt_world self GPTModel.model GPTModel_init n_positions
         example_gpt2]. lia.
  - split; [reflexivity|]. by repeat constructor.
  - repeat first [apply Forall_nil; exact I|apply Forall_cons; split];
      right;
      cbn [example_gpt_world self GPTModel.model GPTModel_init vocab_size
           example_gpt2]; lia.
  - lia.
Defined.

End GPTModel_further_examples.

(* ================================================================== *)
(** * The loss of the language model *)
(* ================================================================== *)

Section compute_loss_further.
Import train_gpt.

Lemma rows_of_concat (n : nat) (rows : list vec) (fuel : nat) :
  0 < n -> Forall (fun v => length v = n) rows -> length rows <= fuel ->
  rows_of fuel n (concat rows) = rows.
Proof.
  intros Hn Hrows. revert fuel.
  induction Hrows as [|v rows Hv _ IH]; intros fuel Hfuel.
  - by destruct fuel.
  - destruct fuel as [|fuel]; [simpl in Hfuel; lia|].
    destruct v as [|x v]; [simpl in Hv; lia|].
    change (concat ((x :: v) :: rows)) with (x :: (v ++ concat rows)).
    cbn [rows_of].
    change (x :: (v ++ concat rows)) with ((x :: v) ++ concat rows).
    rewrite (take_app_length' (x :: v) _ n) by done.
    rewrite (drop_app_length' (x :: v) _ n) by done.
    rewrite IH; [done|]. simpl in Hfuel. lia.
Qed.

Lemma length_concat_rows (n : nat) (rows : list vec) :
  Forall (fun v => length v = n) rows ->
  length (concat rows) = length rows * n.
Proof.
  induction 1 as [|v rows Hv _ IH]; [done|].
  cbn [concat length]. rewrite length_app, IH, Hv. lia.
Qed.

Lemma reshape_rows_ok (n : nat) (t : tensor3) :
  0 < n -> Forall (rect n) t -> reshape_rows n t = Ok (concat t).
Proof.
  intros Hn Ht. unfold reshape_rows.
  assert (Forall (fun v : vec => length v = n) (concat t)) as Hrows
    by (by apply Forall_concat).
  rewrite (length_concat_rows n _ Hrows), Nat.Div0.mod_mul, Nat.eqb_refl.
  f_equal. apply rows_of_concat; [done|done|]. nia.
Qed.

(** Selecting from two lists by the same mask selects from their pairs. *)
Lemma masked_select_zip {A B} (xs : list A) (ys : list B) (keep : B -> bool) :
  length xs = length ys ->
  exists xs' ys',
    masked_select xs (map keep ys) = Ok xs' /\
    masked_select ys (map keep ys) = Ok ys' /\
    length xs' = length ys' /\
    zip xs' ys' = List.filter (fun p => keep p.2) (zip xs ys).
Proof.
  intros Hlen. unfold masked_select.
  rewrite !decide_True by (by rewrite length_map).
  eexists _, _. split; [done|]. split; [done|].
  revert ys Hlen. induction xs as [|x xs IH]; intros [|y ys] Hlen;
    try discriminate Hlen; [done|].
  injection Hlen as Hlen. destruct (IH ys Hlen) as [IHl IHz].
  cbn [map zip zip_with List.filter snd fst]. destruct (keep y); cbn [map fst];
    cbn [length zip zip_with]; split; congruence.
Qed.

Lemma zip_concat {A B} (xss : list (list A)) (yss : list (list B)) :
  Forall2 (fun xs ys => length xs = length ys) xss yss ->
  zip (concat xss) (concat yss) = concat (zip_with zip xss yss).
Proof.
  induction 1 as [|xs ys xss yss Hlen _ IH]; [done|].
  change (concat (xs :: xss)) with (xs ++ concat xss).
  change (concat (ys :: yss)) with (ys ++ concat yss).
  change (zip_with zip (xs :: xss) (ys :: yss))
    with (zip xs ys :: zip_with zip xss yss).
  change (concat (zip xs ys :: zip_with zip xss yss))
    with (zip xs ys ++ concat (zip_with zip xss yss)).
  rewrite zip_with_app by done. by rewrite IH.
Qed.

Lemma nll_ok (p : vec) (t : Z) :
  (0 <= t < Z.of_nat (length p))%Z ->
  nll p t = Ok (- default 0 (log_softmax p !! Z.to_nat t))%R.
Proof.
  intros Ht. unfold nll. destruct (Z.ltb_spec t 0); [lia|].
  destruct (lookup_lt_is_Some_2 (log_softmax p) (Z.to_nat t)) as [x Hx].
  { rewrite log_softmax_length. lia. }
  by rewrite Hx.
Qed.

(** The mean of the negative log-probabilities that the predictions give
    to their targets; [None] when there is no pair. *)
Definition mean_nll (pairs : list (vec * Z)) : option R :=
  match pairs with
  | [] => None
  | _ =>
      Some (sum_R (map (fun p => - default 0 (log_softmax p.1 !! Z.to_nat p.2))%R
                     pairs)
            / INR (length pairs))%R
  end.

Lemma cross_entropy_ok (V : nat) (input : list vec) (target : list Z) :
  length input = length target ->
  Forall (fun p => length p.1 = V /\ (0 <= p.2 < Z.of_nat V)%Z) (zip input target) ->
  cross_entropy input target = Ok (mean_nll (zip input target)).
Proof.
  intros Hlen Hpairs. unfold cross_entropy. rewrite decide_True by done.
  assert (List.filter (fun p : vec * Z => negb (p.2 =? -100)%Z) (zip input target)
          = zip input target) as ->.
  { induction Hpairs as [|p pairs [_ Hp] _ IH]; [done|].
    cbn [List.filter]. destruct (Z.eqb_spec p.2 (-100)); [lia|].
    cbn [negb]. by rewrite IH. }
  assert (rmapM (fun p : vec * Z => nll p.1 p.2) (zip input target)
          = Ok (map (fun p => - default 0 (log_softmax p.1 !! Z.to_nat p.2))%R
                  (zip input target))) as ->.
  { apply rmapM_ok_intro. apply Forall2_fmap_r, Forall_Forall2_diag.
    eapply Forall_impl; [exact Hpairs|]. intros p [Hl Hp]. cbv beta.
    apply nll_ok. by rewrite Hl. }
  cbn [rbind]. unfold mean_nll.
  destruct (zip input target) as [|p pairs]; [done|].
  cbn [map length]. by rewrite length_map.
Qed.

Lemma Forall2_of_Forall {A B} (P : A -> Prop) (Q : B -> Prop)
    (R : A -> B -> Prop) (l : list A) (k : list B) :
  length l = length k -> Forall P l -> Forall Q k ->
  (forall a b, P a -> Q b -> R a b) -> Forall2 R l k.
Proof.
  intros Hlen HP HQ HR. revert k Hlen HQ.
  induction HP as [|a l Ha _ IH]; intros [|b k] Hlen HQ;
    try discriminate Hlen; constructor.
  - apply HR; [done|]. by apply Forall_cons in HQ as [? _].
  - apply IH; [by injection Hlen|]. by apply Forall_cons in HQ as [_ ?].
Qed.

Lemma concat_length_eq {A B} (xss : list (list A)) (yss : list (list B)) :
  Forall2 (fun xs ys => length xs = length ys) xss yss ->
  length (concat xss) = length (concat yss).
Proof.
  induction 1 as [|xs ys xss yss Hlen _ IH]; [done|].
  cbn [concat]. rewrite !length_app. congruence.
Qed.

Lemma Forall_zip_both {A B} (P : A -> Prop) (Q : B -> Prop)
    (l : list A) (k : list B) :
  Forall P l -> Forall Q k -> Forall (fun p => P p.1 /\ Q p.2) (zip l k).
Proof.
  intros HP. revert k. induction HP as [|a l Ha _ IH]; intros [|b k] HQ;
    try constructor.
  - split; [done|]. by apply Forall_cons in HQ as [? _].
  - apply IH. by apply Forall_cons in HQ as [_ ?].
Qed.

(** The pairs of a prediction and its target, row by row. *)
Lemma zip_rows (n : nat) (preds : tensor3) (state : tensor2) :
  rect n preds ->
  zip_with zip (drop_last_position preds) (map (drop 1) state)
  = zip_with (fun prow srow => zip (take (n - 1) prow) (drop 1 srow)) preds state.
Proof.
  intros Hr. revert state. induction Hr as [|prow preds Hp _ IH];
    intros [|srow state]; try done.
  cbn [drop_last_position map zip_with]. rewrite Hp. f_equal. apply IH.
Qed.

(** X17.  [compute_loss] on a batch whose predictions have one vector
    over the 50257 tokens per position: the prediction at position [t]
    of a sequence is scored against the token at position [t + 1], the
    prediction of the last position and the first token are not used,
    the pairs whose target is the padding sentinel are left out, and the
    loss is the mean negative log-probability of the targets of the
    other pairs (nan when there is none). *)
Theorem compute_loss_scores_next_tokens
    (model : tensor2 -> result tensor3) (state : tensor2) (preds : tensor3)
    (b n : nat) :
  model state = Ok preds ->
  shape2 b n state -> shape3 b n gpt2_vocab preds ->
  Forall (Forall (fun t => t = (-1)%Z \/ (0 <= t < Z.of_nat gpt2_vocab)%Z))
    (map (drop 1) state) ->
  compute_loss model state =
  Ok (mean_nll
        (List.filter (fun p => negb (p.2 =? -1)%Z)
           (concat (zip_with
                      (fun prow srow => zip (take (n - 1) prow) (drop 1 srow))
                      preds state)))).
Proof.
  intros Hmodel [Hsb Hsn] (Hpb & Hpn & Hpv) Htargets.
  assert (0 < gpt2_vocab) as HV by (unfold gpt2_vocab; lia).
  unfold compute_loss. rewrite Hmodel. cbn [rbind].
  assert (Forall (rect gpt2_vocab) (drop_last_position preds)) as Hdv.
  { unfold drop_last_position. rewrite Forall_fmap.
    eapply Forall_impl; [exact Hpv|]. intros row Hrow. cbv beta delta [compose].
    by apply Forall_take. }
  rewrite (reshape_rows_ok gpt2_vocab _ HV Hdv). cbn [rbind].
  assert (Forall2 (fun (xs : list vec) (ys : list Z) => length xs = length ys)
            (drop_last_position preds) (map (drop 1) state)) as Hrows.
  { unfold drop_last_position. apply Forall2_fmap.
    apply (Forall2_of_Forall (fun row : list vec => length row = n)
             (fun row : list Z => length row = n)); [congruence|done|done|].
    intros prow srow Hp Hs. rewrite length_take, length_drop. lia. }
  destruct (masked_select_zip (concat (drop_last_position preds))
              (concat (map (drop 1) state)) (fun t => negb (t =? -1)%Z)
              (concat_length_eq _ _ Hrows))
    as (preds' & targets' & -> & -> & Hlen & Hzip).
  cbn [rbind].
  rewrite (cross_entropy_ok gpt2_vocab preds' targets' Hlen).
  - by rewrite Hzip, (zip_concat _ _ Hrows), (zip_rows n) by done.
  - rewrite Hzip. apply Forall_forall. intros p Hp.
    apply list_elem_of_In, List.filter_In in Hp as [Hp Hkeep].
    apply list_elem_of_In in Hp.
    pose proof (Forall_zip_both
                  (fun v : vec => length v = gpt2_vocab)
                  (fun t : Z => t = (-1)%Z \/ (0 <= t < Z.of_nat gpt2_vocab)%Z)
                  (concat (drop_last_position preds))
                  (concat (map (drop 1) state))
                  ltac:(by apply Forall_concat)
                  ltac:(by apply Forall_concat)) as Hall.
    rewrite Forall_forall in Hall. destruct (Hall p Hp) as [Hl Ht].
    split; [done|]. cbv beta in Hkeep.
    destruct Ht as [Ht|Ht]; [rewrite Ht in Hkeep; discriminate Hkeep|exact Ht].
Qed.

End compute_loss_further.

(** A model whose logits are all 0. *)
Definition example_lm (state : tensor2) : result tensor3 :=
  Ok (map (map (fun _ : Z => replicate train_gpt.gpt2_vocab 0%R)) state).

Section compute_loss_further_examples.
Import train_gpt.

Lemma compute_loss_scores_next_tokens_witness :
  compute_loss example_lm [[0; 1; -1]]%Z =
  Ok (mean_nll
        (List.filter (fun p => negb (p.2 =? -1)%Z)
           (concat (zip_with
                      (fun prow srow => zip (take (3 - 1) prow) (drop 1 srow))
                      [[replicate gpt2_vocab 0%R; replicate gpt2_vocab 0%R;
                        replicate gpt2_vocab 0%R]]
                      [[0; 1; -1]]%Z)))).
Proof.
  apply (compute_loss_scores_next_tokens example_lm [[0; 1; -1]]%Z
           [[replicate gpt2_vocab 0%R; replicate gpt2_vocab 0%R;
             replicate gpt2_vocab 0%R]] 1 3).
  - reflexivity.
  - split; [reflexivity|]. constructor; [reflexivity|constructor].
  - split; [reflexivity|]. split.
    + constructor; [reflexivity|constructor].
    + constructor; [|constructor]. unfold rect.
      repeat (apply Forall_cons; split; [apply length_replicate|]).
      apply Forall_nil. exact I.
  - cbn [map drop]. constructor; [|constructor].
    apply Forall_cons. split; [right; unfold gpt2_vocab; lia|].
    apply Forall_cons. split; [by left|]. apply Forall_nil. exact I.
Defined.

End compute_loss_further_examples.
